(** * pyembedding: lagged embeddings, distance matrices, nearest neighbours
      and the greedy (Nichkawde) lag selection of [pyembedding.py].

    The arrays of the program hold IEEE 754 binary64 numbers.  They are
    modelled with the Standard Library's executable specification of
    floating-point arithmetic ([SpecFloat], precision 53, emax 1024), so that
    [nan], the infinities, signed zeros, rounding and overflow behave as they
    do in the program.

    The two parsers of the output of the cost function program,
    [uzal_parse_results] and [uzal_parse_params], work on strings; Python's
    [int] and [float] are parameters of their model. *)

From Stdlib Require Import ZArith Bool Lia.
From Stdlib Require Import Floats.SpecFloat.
From Stdlib Require Import Ascii.
From stdpp Require Import base list sorting strings gmap.


(** ** Binary64 numbers *)

Module F64.

Definition prec : Z := 53%Z.
Definition emax : Z := 1024%Z.

Abbreviation float := spec_float (only parsing).

Definition nan : float := S754_nan.
Definition inf : float := S754_infinity false.
Definition zero : float := S754_zero false.

Definition add (a b : float) : float := SFadd prec emax a b.
Definition sub (a b : float) : float := SFsub prec emax a b.
Definition mul (a b : float) : float := SFmul prec emax a b.
Definition div (a b : float) : float := SFdiv prec emax a b.
Definition sqrt (a : float) : float := SFsqrt prec emax a.
Definition abs (a : float) : float := SFabs a.

(** [a == b], [a < b] and [a != b] of the program: all comparisons with
    [nan] are false, except [!=]. *)
Definition eqb (a b : float) : bool := SFeqb a b.
Definition ltb (a b : float) : bool := SFltb a b.
Definition neqb (a b : float) : bool := negb (SFeqb a b).

Definition isnan (a : float) : bool :=
  match a with S754_nan => true | _ => false end.

Definition is_finite (a : float) : bool :=
  match a with S754_zero _ | S754_finite _ _ _ => true | _ => false end.

(** The float nearest to the integer [z], and to [m * 2^e]. *)
Definition of_Z (z : Z) : float := binary_normalize prec emax z 0%Z false.
Definition of_Z_pow2 (m e : Z) : float := binary_normalize prec emax m e false.

(** A rank of the numbers that are not [nan], for reasoning about their
    order: sign class, then exponent, then mantissa. *)
Definition rank (a : float) : Z * Z * Z :=
  match a with
  | S754_nan => (0, 0, 0)
  | S754_zero _ => (0, 0, 0)
  | S754_infinity s => (if s then -2 else 2, 0, 0)
  | S754_finite s m e => if s then (-1, - e, - Z.pos m) else (1, e, Z.pos m)
  end%Z.

Definition lex3 (p q : Z * Z * Z) : comparison :=
  match (fst (fst p) ?= fst (fst q))%Z with
  | Eq => match (snd (fst p) ?= snd (fst q))%Z with
          | Eq => (snd p ?= snd q)%Z
          | c => c
          end
  | c => c
  end.

End F64.

Global Instance float_inhabited : Inhabited F64.float := populate F64.nan.

(** ** Exceptions and results *)

(** The exceptions the program can raise.  [EmbeddingFailure] is the
    [Exception('Embedding identification failed: ...')] of
    [nichkawde_embedding]; the others are raised by [assert] and by numpy. *)
Inductive exn :=
  AssertionError | ValueError | IndexError | TypeError | EmbeddingFailure.

Inductive result (A : Type) :=
  | Ok (a : A)
  | Raise (e : exn).
Arguments Ok {A} a.
Arguments Raise {A} e.

Global Instance result_ret : MRet result := λ A a, Ok a.
Global Instance result_bind : MBind result := λ A B f r,
  match r with Ok a => f a | Raise e => Raise e end.

(** [lookup_or e o]: the value of an array access, raising [e] when the
    index is out of range. *)
Definition lookup_or {A} (e : exn) (o : option A) : result A :=
  match o with Some a => Ok a | None => Raise e end.

(** [for a in l: ...] collecting results, stopping at the first exception. *)
Fixpoint mapR {A B} (f : A → result B) (l : list A) : result (list B) :=
  match l with
  | [] => Ok []
  | a :: l' => b ← f a; bs ← mapR f l'; Ok (b :: bs)
  end.

(** ** Arrays *)

(** A 1-D array is a list; a 2-D array is the list of its rows, all of one
    length (an array with no rows does not record its number of columns). *)
Abbreviation vector := (list F64.float) (only parsing).
Abbreviation matrix := (list (list F64.float)) (only parsing).

Definition shape0 (X : matrix) : nat := length X.
Definition shape1 (X : matrix) : nat :=
  match X with [] => 0 | row :: _ => length row end.

(** [rect c X]: every row of [X] has [c] entries. *)
Definition rect (c : nat) (X : matrix) : Prop := Forall (λ row, length row = c) X.
Definition square (X : matrix) : Prop := rect (length X) X.

(** [X[i, j]] *)
Definition item (X : matrix) (i j : nat) : option F64.float :=
  row ← X !! i; row !! j.

(** [X[i, j] = v] *)
Definition setitem (X : matrix) (i j : nat) (v : F64.float) : matrix :=
  alter (λ row, <[j := v]> row) i X.

(** [range(a, b)] and [range(n)] *)
Definition range (a b : Z) : list Z :=
  map (λ k, (a + Z.of_nat k)%Z) (seq 0 (Z.to_nat (b - a))).

(** [numpy.arange(0, stop, step)] for [step > 0] *)
Definition arange (stop step : Z) : list Z :=
  map (λ k, (Z.of_nat k * step)%Z) (seq 0 (Z.to_nat ((stop + step - 1) / step))).

(** [x[:stop]]: a negative [stop] counts from the end of [x]. *)
Definition slice_to {A} (x : list A) (stop : Z) : list A :=
  take (Z.to_nat (if (stop <? 0)%Z then (Z.of_nat (length x) + stop)%Z else stop)) x.

(** [X[start:, i] = src]: [src] must have as many entries as [X] has rows
    from [start] on; a [src] of one entry is broadcast; any other length is
    numpy's "could not broadcast input array" [ValueError]. *)
Definition assign_column_from (X : matrix) (start i : nat) (src : vector)
  : result matrix :=
  if decide (length src = length X - start) then
    Ok (imap (λ r row, if decide (start ≤ r)
                       then <[i := src !!! (r - start)]> row else row) X)
  else if decide (length src = 1) then
    Ok (imap (λ r row, if decide (start ≤ r)
                       then <[i := src !!! 0]> row else row) X)
  else Raise ValueError.

(** [numpy.max(taus)]: raises on an empty array. *)
Definition np_max (taus : list Z) : result Z :=
  match taus with
  | [] => Raise ValueError
  | t :: ts => Ok (foldl Z.max t ts)
  end.

(** ** [make_partial_embedding] and [make_full_embedding] *)

(** The loop [for i, tau in enumerate(taus)] of [make_partial_embedding],
    from index [i] on, on the array [X] filled so far. *)
Fixpoint fill_lagged (x : vector) (X : matrix) (i : nat) (taus : list Z)
  : result matrix :=
  match taus with
  | [] => Ok X
  | tau :: rest =>
      if (tau <? 0)%Z then Raise AssertionError
      else
        X' ← assign_column_from X (Z.to_nat tau) i
               (slice_to x (Z.of_nat (length x) - tau));
        fill_lagged x X' (S i) rest
  end.

Definition make_partial_embedding (x : vector) (taus : list Z)
    (preserve_indices : bool) : result matrix :=
  let N := length x in
  let E := length taus in
  X ← fill_lagged x (replicate N (replicate E F64.nan)) 0 taus;
  if preserve_indices then Ok X
  else m ← np_max taus; Ok (drop (Z.to_nat m) X).

Definition make_full_embedding (x : vector) (E tau : Z)
    (preserve_indices : bool) : result matrix :=
  if negb (0 <? E)%Z then Raise AssertionError
  else if negb (0 <? tau)%Z then Raise AssertionError
  else make_partial_embedding x (arange (E * tau) tau) preserve_indices.

(** ** [squared_euclidean_distance] and [euclidean_distance] *)

(** Elementwise [f b a] of two rows; numpy broadcasts a row of one entry
    and raises [ValueError] for any other pair of different lengths. *)
Definition broadcast2 (f : F64.float → F64.float → F64.float) (b a : vector)
  : result vector :=
  if decide (length b = length a) then Ok (zip_with f b a)
  else if decide (length a = 1) then Ok (map (λ v, f v (a !!! 0)) b)
  else if decide (length b = 1) then Ok (map (λ v, f (b !!! 0) v) a)
  else Raise ValueError.

(** [v.sum()] along the contiguous axis, as numpy's [add.reduce] adds
    floats.  The inner loop [pairwise_sum] adds fewer than 8 entries from
    left to right, starting from zero; it adds up to 128 entries in eight
    running sums [r[0..7]], entry [i] going to [r[i % 8]], which are then
    combined as [((r0 + r1) + (r2 + r3)) + ((r4 + r5) + (r6 + r7))], the
    entries after the last full row of eight being added to that one by one;
    and it splits a longer array in two, the first part a multiple of 8. *)
Fixpoint add_rows (r rest : vector) (rows : nat) : vector :=
  match rows with
  | O => r
  | S rows' => add_rows (zip_with F64.add r (take 8 rest)) (drop 8 rest) rows'
  end.

Definition combine8 (r : vector) : F64.float :=
  F64.add
    (F64.add (F64.add (r !!! 0) (r !!! 1)) (F64.add (r !!! 2) (r !!! 3)))
    (F64.add (F64.add (r !!! 4) (r !!! 5)) (F64.add (r !!! 6) (r !!! 7))).

Definition block_sum (v : vector) : F64.float :=
  let n := length v in
  let r := add_rows (take 8 v) (drop 8 v) (n / 8 - 1) in
  foldl F64.add (combine8 r) (drop (n - n mod 8) v).

(** The recursion halves the array, so [fuel] can be its length; the case
    of no fuel left does not arise. *)
Fixpoint pairwise_sum_rec (fuel : nat) (v : vector) : F64.float :=
  let n := length v in
  if n <? 8 then foldl F64.add F64.zero v
  else if n <=? 128 then block_sum v
  else
    match fuel with
    | O => block_sum v
    | S fuel' =>
        let n2 := n / 2 - (n / 2) mod 8 in
        F64.add (pairwise_sum_rec fuel' (take n2 v))
                (pairwise_sum_rec fuel' (drop n2 v))
    end.

Definition pairwise_sum (v : vector) : F64.float :=
  pairwise_sum_rec (length v) v.

(** The reduction hands the inner loop at most [bufsize] entries at a time
    (numpy's default buffer size) and adds what it returns to the result,
    which starts as zero. *)
Definition bufsize : nat := 64 * 128.

Fixpoint add_chunks (fuel : nat) (acc : F64.float) (v : vector) : F64.float :=
  match v, fuel with
  | [], _ => acc
  | _, O => acc
  | _, S fuel' =>
      add_chunks fuel' (F64.add acc (pairwise_sum (take bufsize v)))
                 (drop bufsize v)
  end.

Definition np_sum (v : vector) : F64.float := add_chunks (length v) F64.zero v.

(** [((b - a)**2).sum()] for a row [a] of [A] and a row [b] of [B]. *)
Definition row_sqdist (a b : vector) : result F64.float :=
  d ← broadcast2 F64.sub b a;
  Ok (np_sum (map (λ v, F64.mul v v) d)).

Definition squared_euclidean_distance (A B : matrix) : result matrix :=
  mapR (λ a, mapR (row_sqdist a) B) A.

Definition np_sqrt (D : matrix) : matrix := map (map F64.sqrt) D.

Definition euclidean_distance (A B : matrix) : result matrix :=
  D ← squared_euclidean_distance A B; Ok (np_sqrt D).

(** ** [assign_diagonal] and the masking of the Theiler band *)

(** [for i in range(X.shape[0]): if 0 <= i + offset < X.shape[1]:
    X[i, i + offset] = val].  The array is updated in place; the model
    returns the updated array. *)
Definition assign_diagonal (X : matrix) (offset : Z) (val : F64.float) : matrix :=
  foldl (λ X i,
           let j := (Z.of_nat i + offset)%Z in
           if (0 <=? j)%Z && (j <? Z.of_nat (shape1 X))%Z
           then setitem X i (Z.to_nat j) val else X)
        X (seq 0 (shape0 X)).

(** One turn of the loop [for offset in range(neighbor_offset_min)] of
    [nichkawde_embedding], with the value [val] in place of [nan]. *)
Definition mask_offset (val : F64.float) (D : matrix) (offset : Z) : matrix :=
  let D := assign_diagonal D offset val in
  if (0 <? offset)%Z then assign_diagonal D (- offset) val else D.

(** The whole loop. *)
Definition mask_band (val : F64.float) (D : matrix) (neighbor_offset_min : Z)
  : matrix :=
  foldl (mask_offset val) D (range 0 neighbor_offset_min).

(** [D[D == 0.0] = float('inf')] *)
Definition zeros_to_inf (D : matrix) : matrix :=
  map (map (λ d, if F64.eqb d F64.zero then F64.inf else d)) D.

(** ** [numpy.argpartition] and [find_neighbors] *)

(** The order numpy sorts floats by: [nan] is above every number. *)
Definition np_lt (a b : F64.float) : bool :=
  F64.ltb a b || (F64.isnan b && negb (F64.isnan a)).

(** One selection of numpy's partition for a position [kth] close to the
    start of the remaining range: the position, from [k] on, of the first
    entry of [rest] (indices into [v]) whose value is below [minval]. *)
Fixpoint min_position (v : vector) (rest : list nat) (k minidx : nat)
    (minval : F64.float) : nat :=
  match rest with
  | [] => minidx
  | t :: rest' =>
      if np_lt (v !!! t) minval
      then min_position v rest' (S k) k (v !!! t)
      else min_position v rest' (S k) minidx minval
  end.

Definition swap (tosort : list nat) (i j : nat) : list nat :=
  <[i := tosort !!! j]> (<[j := tosort !!! i]> tosort).

Definition select_round (v : vector) (tosort : list nat) (i : nat) : list nat :=
  swap tosort i
       (min_position v (drop (S i) tosort) (S i) i (v !!! (tosort !!! i))).

(** [numpy.argpartition(v, range(k))]: the positions [0 .. k-1] are put in
    their sorted place one after the other, each by one selection from the
    position on (for the single neighbour the program asks for, the first
    smallest entry); a [kth] that is not an index of [v] is a [ValueError].
    For [k = 0] the empty [kth] becomes an array of floats, which numpy
    refuses as a partition index with a [TypeError]. *)
Definition argpartition (v : vector) (k : nat) : result (list nat) :=
  if decide (k = 0) then Raise TypeError
  else if decide (k ≤ length v)
  then Ok (foldl (select_round v) (seq 0 (length v)) (seq 0 k))
  else Raise ValueError.

(** [D[:, i]] *)
Definition column {A} (D : list (list A)) (i : nat) : result (list A) :=
  mapR (λ row, lookup_or IndexError (row !! i)) D.

(** [v[idx]] for an array [idx] of indices *)
Definition take_items {A} (v : list A) (idx : list nat) : result (list A) :=
  mapR (λ n, lookup_or IndexError (v !! n)) idx.

(** The body of the loop of [find_neighbors] for row [i]: the pair of
    [N[i,:]] and [DN[i,:]]. *)
Definition neighbors_of_row (D : matrix) (k i : nat)
  : result (list nat * vector) :=
  col ← column D i;
  part ← argpartition col k;
  let Ni := take k part in
  Di ← lookup_or IndexError (D !! i);
  DNi ← take_items Di Ni;
  Ok (Ni, DNi).

Definition find_neighbors (D : matrix) (n_neighbors : Z)
  : result (list (list nat) * matrix) :=
  if (n_neighbors <? 0)%Z then Raise ValueError
  else
    rows ← mapR (neighbors_of_row D (Z.to_nat n_neighbors)) (seq 0 (shape0 D));
    Ok (map fst rows, map snd rows).

(** ** [nichkawde_embedding] *)

(** [X[:, taus]], for lags that are not negative *)
Definition take_columns (X : matrix) (taus : list Z) : result matrix :=
  mapR (λ row, mapR (λ t : Z, lookup_or IndexError (row !! Z.to_nat t)) taus) X.

Section Nichkawde.

(** [numpy.log] and [numpy.exp] on finite arguments are the platform's
    [log] and [exp], which are not part of the program. *)
Variable log_fin exp_fin : F64.float → F64.float.

Definition np_log (a : F64.float) : F64.float :=
  match a with
  | S754_nan => F64.nan
  | S754_infinity false => F64.inf
  | S754_infinity true => F64.nan
  | S754_zero _ => S754_infinity true
  | S754_finite true _ _ => F64.nan
  | S754_finite false _ _ => log_fin a
  end.

Definition np_exp (a : F64.float) : F64.float :=
  match a with
  | S754_nan => F64.nan
  | S754_infinity false => F64.inf
  | S754_infinity true => F64.zero
  | S754_zero _ => F64.of_Z 1
  | S754_finite _ _ _ => exp_fin a
  end.

(** [v.mean()]: the sum divided by the number of entries ([nan] for none). *)
Definition np_mean (v : vector) : F64.float :=
  F64.div (np_sum v) (F64.of_Z (Z.of_nat (length v))).

(** The derivatives kept for a candidate lag: neither [nan] nor zero. *)
Definition kept (d : F64.float) : bool :=
  negb (F64.isnan d) && F64.neqb d F64.zero.

Definition derivs (X_full : matrix) (N0 : list nat) (DN0 : vector)
    (tau_next : Z) : result vector :=
  Xnext ← column X_full (Z.to_nat tau_next);
  Xnext_N ← take_items Xnext N0;
  let Dnext := zip_with (λ a b, F64.abs (F64.sub a b)) Xnext Xnext_N in
  let deriv := zip_with F64.div Dnext DN0 in
  Ok (filter (λ d, kept d = true) deriv).

(** [geo_mean_deriv] for the candidate [tau_next]. *)
Definition geo_mean_deriv (X_full : matrix) (N0 : list nat) (DN0 : vector)
    (tau_next : Z) : result F64.float :=
  deriv ← derivs X_full N0 DN0 tau_next;
  Ok (np_exp (np_mean (map np_log deriv))).

(** The loop [for tau_next in range(taus[-1] + 1, E_max)] over the
    candidates still to visit, with the running [max_deriv] and
    [max_deriv_tau]. *)
Fixpoint best_candidate (score : Z → result F64.float) (candidates : list Z)
    (max_deriv : F64.float) (max_deriv_tau : option Z)
  : result (F64.float * option Z) :=
  match candidates with
  | [] => Ok (max_deriv, max_deriv_tau)
  | tau_next :: rest =>
      g ← score tau_next;
      if F64.ltb max_deriv g
      then best_candidate score rest g (Some tau_next)
      else best_candidate score rest max_deriv max_deriv_tau
  end.

(** The distance matrix of one turn of the [while] loop, as it is handed
    to [find_neighbors]. *)
Definition masked_distance (X : matrix) (neighbor_offset_min : Z)
  : result matrix :=
  D ← squared_euclidean_distance X X;
  let D := np_sqrt D in
  let D := zeros_to_inf D in
  Ok (mask_band F64.nan D neighbor_offset_min).

(** The nearest neighbour of every row and its distance: [N[:,0]] and
    [DN[:,0]] of one turn of the [while] loop. *)
Definition nearest (X_full : matrix) (neighbor_offset_min : Z) (taus : list Z)
  : result (list nat * vector) :=
  X ← take_columns X_full taus;
  D ← masked_distance X neighbor_offset_min;
  ndn ← find_neighbors D 1;
  N0 ← column ndn.1 0;
  DN0 ← column ndn.2 0;
  Ok (N0, DN0).

(** [taus[-1]] of a non-empty tuple *)
Definition last_lag (taus : list Z) : Z := List.last taus 0%Z.

(** One turn of the [while] loop: the lag to append, or the exception. *)
Definition next_lag (X_full : matrix) (E_max neighbor_offset_min : Z)
    (taus : list Z) : result Z :=
  nn ← nearest X_full neighbor_offset_min taus;
  best ← best_candidate (geo_mean_deriv X_full nn.1 nn.2)
            (range (last_lag taus + 1) E_max) F64.zero None;
  match best.2 with
  | None => Raise EmbeddingFailure
  | Some max_deriv_tau => Ok max_deriv_tau
  end.

(** The [while] loop, as a relation: [greedy_run X_full E_max m taus n r]
    when the loop entered with [taus] ends after [n] turns with [r]. *)
Inductive greedy_run (X_full : matrix) (E_max neighbor_offset_min : Z)
  : list Z → nat → result (list Z) → Prop :=
  | run_exit taus :
      (last_lag taus <? E_max - 1)%Z = false →
      greedy_run X_full E_max neighbor_offset_min taus 0 (Ok taus)
  | run_raise taus e :
      (last_lag taus <? E_max - 1)%Z = true →
      next_lag X_full E_max neighbor_offset_min taus = Raise e →
      greedy_run X_full E_max neighbor_offset_min taus 1 (Raise e)
  | run_turn taus tau n r :
      (last_lag taus <? E_max - 1)%Z = true →
      next_lag X_full E_max neighbor_offset_min taus = Ok tau →
      greedy_run X_full E_max neighbor_offset_min (taus ++ [tau]) n r →
      greedy_run X_full E_max neighbor_offset_min taus (S n) r.

(** [greedy_reaches X_full E_max m taus taus']: the loop entered with
    [taus] gets to the test of its condition with [taus']. *)
Inductive greedy_reaches (X_full : matrix) (E_max neighbor_offset_min : Z)
  : list Z → list Z → Prop :=
  | reach_here taus :
      greedy_reaches X_full E_max neighbor_offset_min taus taus
  | reach_turn taus tau taus' :
      (last_lag taus <? E_max - 1)%Z = true →
      next_lag X_full E_max neighbor_offset_min taus = Ok tau →
      greedy_reaches X_full E_max neighbor_offset_min (taus ++ [tau]) taus' →
      greedy_reaches X_full E_max neighbor_offset_min taus taus'.

(** The [while] loop, run for at most [fuel] turns ([None]: not finished). *)
Fixpoint greedy_loop (fuel : nat) (X_full : matrix)
    (E_max neighbor_offset_min : Z) (taus : list Z) : option (result (list Z)) :=
  if (last_lag taus <? E_max - 1)%Z then
    match fuel with
    | O => None
    | S fuel' =>
        match next_lag X_full E_max neighbor_offset_min taus with
        | Raise e => Some (Raise e)
        | Ok tau =>
            greedy_loop fuel' X_full E_max neighbor_offset_min (taus ++ [tau])
        end
    end
  else Some (Ok taus).

(** What [nichkawde_embedding] returns for the lags the loop ends with. *)
Definition embedding_of (X_full : matrix) (r : result (list Z))
  : result (list Z * matrix) :=
  taus ← r; X ← take_columns X_full taus; Ok (taus, X).

(** [nichkawde_embedding], as a relation between the arguments and the
    outcome: the value returned or the exception raised. *)
Inductive nichkawde_run (x : vector) (E_max neighbor_offset_min : Z)
    (preserve_indices : bool) : result (list Z * matrix) → Prop :=
  | embed_no_matrix e :
      make_full_embedding x E_max 1 preserve_indices = Raise e →
      nichkawde_run x E_max neighbor_offset_min preserve_indices (Raise e)
  | embed_loop X_full n r :
      make_full_embedding x E_max 1 preserve_indices = Ok X_full →
      greedy_run X_full E_max neighbor_offset_min [0%Z] n r →
      nichkawde_run x E_max neighbor_offset_min preserve_indices
        (embedding_of X_full r).

(** [nichkawde_embedding], run with [fuel] turns of the loop at most. *)
Definition nichkawde_embedding (fuel : nat) (x : vector)
    (E_max neighbor_offset_min : Z) (preserve_indices : bool)
  : option (result (list Z * matrix)) :=
  match make_full_embedding x E_max 1 preserve_indices with
  | Raise e => Some (Raise e)
  | Ok X_full =>
      embedding_of X_full <$>
        greedy_loop fuel X_full E_max neighbor_offset_min [0%Z]
  end.

End Nichkawde.

(** ** [uzal_parse_results] and [uzal_parse_params] *)

(** [s.split(sep)] for a separator of one character: the pieces between
    the occurrences of [sep], empty pieces included.  There is always at
    least one piece, so the last case below does not arise. *)
Fixpoint str_split (sep : ascii) (s : string) : list string :=
  match s with
  | EmptyString => [EmptyString]
  | String ch rest =>
      if Ascii.eqb ch sep then EmptyString :: str_split sep rest
      else match str_split sep rest with
           | piece :: pieces => String ch piece :: pieces
           | [] => [String ch EmptyString]
           end
  end.

(** The line feed ['\n']. *)
Definition newline : ascii := "010"%char.

(** A loop whose body can raise, with the value it updates. *)
Fixpoint foldlR {A B} (f : B → A → result B) (b : B) (l : list A) : result B :=
  match l with
  | [] => Ok b
  | a :: l' => b' ← f b a; foldlR f b' l'
  end.

Section Uzal.

(** Python's [int(s)] and [float(s)] on a string: the number read, or
    [None] for the [ValueError] of a string that is not a numeral.  They are
    built into the language and not part of the program. *)
Variable py_int : string → option Z.
Variable py_float : string → option F64.float.

(** The body of the [try] of [uzal_parse_results] for one line. *)
Definition parse_result_line (line : string) : result (Z * F64.float) :=
  let pieces := str_split " " line in
  p0 ← lookup_or IndexError (pieces !! 0);
  i ← lookup_or ValueError (py_int p0);
  let m := (i + 1)%Z in
  p1 ← lookup_or IndexError (pieces !! 1);
  Lk ← lookup_or ValueError (py_float p1);
  Ok (m, Lk).

(** One turn of the loop over the lines, on the lists [ms] and [Lks]: a
    line that raises is skipped ([except: pass]). *)
Definition uzal_results_step (acc : list Z * list F64.float) (line : string)
  : list Z * list F64.float :=
  if negb (String.prefix "#" line) && (0 <? String.length line)%nat then
    match parse_result_line line with
    | Ok (m, Lk) => (acc.1 ++ [m], acc.2 ++ [Lk])
    | Raise _ => acc
    end
  else acc.

Definition uzal_parse_results (file_data : string)
  : list Z * list F64.float :=
  foldl uzal_results_step ([], []) (str_split newline file_data).

(** One turn of the loop of [uzal_parse_params] on the dictionary. *)
Definition uzal_params_step (params : gmap string Z) (line : string)
  : result (gmap string Z) :=
  if String.prefix "Using T_M=" line then
    let pieces := str_split "=" line in
    p1 ← lookup_or IndexError (pieces !! 1);
    v ← lookup_or ValueError (py_int p1);
    Ok (<["tw_max" := v]> params)
  else if String.prefix "Using ThW=" line then
    let pieces := str_split "=" line in
    p1 ← lookup_or IndexError (pieces !! 1);
    v ← lookup_or ValueError (py_int p1);
    Ok (<["theiler_window" := v]> params)
  else if String.prefix "Using k=" line then
    let pieces := str_split "=" line in
    p1 ← lookup_or IndexError (pieces !! 1);
    q ← lookup_or IndexError (str_split " " p1 !! 0);
    v ← lookup_or ValueError (py_int q);
    Ok (<["n_neighbors" := v]> params)
  else Ok params.

Definition uzal_parse_params (stderr_data : string) : result (gmap string Z) :=
  foldlR uzal_params_step ∅ (str_split newline stderr_data).

End Uzal.

(** ** Auxiliary definitions for the statements *)

(** What [assign_diagonal] does to row [i]. *)
Definition diag_row (c : nat) (offset : Z) (val : F64.float) (i : nat)
    (row : list F64.float) : list F64.float :=
  let j := (Z.of_nat i + offset)%Z in
  if (0 <=? j)%Z && (j <? Z.of_nat c)%Z then <[Z.to_nat j := val]> row else row.

(** [(a - b)**2] summed over the entries of two rows. *)
Definition sqdist (a b : vector) : F64.float :=
  np_sum (zip_with (λ x y, F64.mul (F64.sub x y) (F64.sub x y)) a b).

(** The squares [(a[c] - b[c])**2], column by column. *)
Definition sq_diffs (a b : vector) : vector :=
  zip_with (λ x y, F64.mul (F64.sub x y) (F64.sub x y)) a b.

(** The distance of the rows [i] and [k] of [X], as the program computes it. *)
Definition dist (X : matrix) (i k : nat) : F64.float :=
  F64.sqrt (sqdist (X !!! i) (X !!! k)).

(** The index arrays [argpartition] goes through: every index of [v] once. *)
Definition index_array (n : nat) (tosort : list nat) : Prop :=
  length tosort = n ∧ NoDup tosort ∧ Forall (λ t, t < n) tosort.

(** [best_candidate] for scores that do not raise. *)
Fixpoint best_pure (g : Z → F64.float) (candidates : list Z)
    (max_deriv : F64.float) (max_deriv_tau : option Z) : F64.float * option Z :=
  match candidates with
  | [] => (max_deriv, max_deriv_tau)
  | tau_next :: rest =>
      if F64.ltb max_deriv (g tau_next)
      then best_pure g rest (g tau_next) (Some tau_next)
      else best_pure g rest max_deriv max_deriv_tau
  end.

(** The lags chosen so far: they start at [0], increase strictly, and the
    last one is the largest and at most [E_max - 1]. *)
Definition lags_inv (E_max : Z) (taus : list Z) : Prop :=
  (∃ rest, taus = 0%Z :: rest) ∧
  StronglySorted Z.lt taus ∧
  Forall (λ t, 0 ≤ t ≤ last_lag taus)%Z taus ∧
  (last_lag taus ≤ E_max - 1)%Z.

(** The rank of a float in numpy's sorting order: [nan] is above all. *)
Definition np_rank (a : F64.float) : Z * Z * Z :=
  match a with
  | S754_nan => (3, 0, 0)%Z
  | _ => F64.rank a
  end.

(** [sel_sorted v k p]: the first [k] positions of the index array [p] are
    in their sorted place: no later position holds a smaller value. *)
Definition sel_sorted (v : vector) (k : nat) (p : list nat) : Prop :=
  ∀ a b, a < k → a < b < length p →
    np_lt (v !!! (p !!! b)) (v !!! (p !!! a)) = false.

(** [symmetric D]: [D[a, b]] and [D[b, a]] are the same entry. *)
Definition symmetric (D : matrix) : Prop := ∀ a b, item D a b = item D b a.

(** Stand-ins for the platform's [log] and [exp] on finite arguments, to run
    the program on examples: the base-2 logarithm rounded down, and two to
    the power of the integer part.  The theorems hold for every choice of
    these two functions. *)
Definition coarse_log (a : F64.float) : F64.float :=
  match a with
  | S754_finite _ m e => F64.of_Z (e + Z.pos (digits2_pos m) - 1)
  | _ => F64.nan
  end.

Definition coarse_exp (a : F64.float) : F64.float :=
  match a with
  | S754_finite s m e =>
      let n := Z.shiftl (Z.pos m) e in
      F64.of_Z_pow2 1 (if s then - n else n)
  | _ => F64.nan
  end.

(** [lag_fits N tau]: the lags [make_partial_embedding] accepts for a
    series of [N] values. *)
Definition lag_fits (N : nat) (tau : Z) : Prop :=
  (0 ≤ tau ∧ (tau ≤ Z.of_nat N ∨ 2 * Z.of_nat N - 1 ≤ tau))%Z.

(** [not_negative a]: [a] is [nan] or has a clear sign bit (it is [+0.0],
    a positive number or [+inf]). *)
Definition not_negative (a : F64.float) : bool :=
  match a with
  | S754_nan => true
  | S754_zero s | S754_infinity s | S754_finite s _ _ => negb s
  end.

(** [ch in s] *)
Fixpoint contains (ch : ascii) (s : string) : bool :=
  match s with
  | EmptyString => false
  | String ch' rest => Ascii.eqb ch' ch || contains ch rest
  end.

(** A stand-in for [int] on the numerals of the examples: decimal digits
    only.  The theorems hold for every [int] and [float]. *)
Fixpoint digits_value (acc : Z) (s : string) : option Z :=
  match s with
  | EmptyString => Some acc
  | String ch rest =>
      let d := Z.of_nat (nat_of_ascii ch) - 48 in
      if (0 <=? d) && (d <=? 9) then digits_value (10 * acc + d) rest else None
  end%Z.

Definition digits_int (s : string) : option Z :=
  match s with
  | EmptyString => None
  | _ => digits_value 0 s
  end.

(** A stand-in for [float] on the examples: whole numbers only. *)
Definition digits_float (s : string) : option F64.float :=
  F64.of_Z <$> digits_int s.

(** ** Example inputs *)

Definition of_Zs : list (list Z) → matrix := map (map F64.of_Z).

(** The series of the doctests: [1.0, ..., 6.0] and
    [3.0, 1.7, 4.3, 5.4, 8.8, 9.6]. *)
Definition x16 : vector := map F64.of_Z [1; 2; 3; 4; 5; 6]%Z.

Definition tenths (z : Z) : F64.float := F64.div (F64.of_Z z) (F64.of_Z 10).
Definition x_doc : vector := map tenths [30; 17; 43; 54; 88; 96]%Z.

(** The full candidate matrix of [x16] for [E_max = 3]. *)
Definition X16_full : matrix :=
  Eval vm_compute in
    match make_full_embedding x16 3 1 true with Ok X => X | Raise _ => [] end.

(** A series of three values. *)
Definition x123 : vector := map F64.of_Z [1; 2; 3]%Z.

(** A square array that is not symmetric. *)
Definition D_asym : matrix := of_Zs [[1; 5]; [0; 1]]%Z.

(** A symmetric array of distances. *)
Definition D3 : matrix := of_Zs [[0; 3; 12]; [3; 0; 3]; [12; 3; 0]]%Z.

(** A 2 x 2 array of distances after masking: nothing finite is left. *)
Definition D_masked : matrix :=
  [[F64.nan; F64.inf]; [F64.inf; F64.nan]].

(** A series of finite values with a quotient that overflows:
    [2^-100, 2^-100, 2^1000, 0]. *)
Definition x_overflow : vector :=
  [F64.of_Z_pow2 1 (-100); F64.of_Z_pow2 1 (-100); F64.of_Z_pow2 1 1000; F64.zero].

(** Its full candidate matrix for [E_max = 2]. *)
Definition X_overflow : matrix :=
  Eval vm_compute in
    match make_full_embedding x_overflow 2 1 true with
    | Ok X => X | Raise _ => [] end.

(** A row of eight entries whose squares are not added to the same float
    from left to right and pairwise: [2^27, 1, 1, 1, 1, 1, 1, 1]. *)
Definition row8 : vector :=
  F64.of_Z_pow2 1 27 :: replicate 7 (F64.of_Z 1).

(** * Properties *)

(** ** The doctests of the program *)

Example make_full_embedding_doctest :
  make_full_embedding x_doc 3 1 true =
    Ok [[tenths 30; F64.nan; F64.nan];
        [tenths 17; tenths 30; F64.nan];
        [tenths 43; tenths 17; tenths 30];
        [tenths 54; tenths 43; tenths 17];
        [tenths 88; tenths 54; tenths 43];
        [tenths 96; tenths 88; tenths 54]] ∧
  (X2 ← make_full_embedding x_doc 3 2 true; Ok (drop 4 X2)) =
    Ok [[tenths 88; tenths 43; tenths 30];
        [tenths 96; tenths 54; tenths 17]].
Proof. vm_compute. done. Qed.

Example squared_euclidean_distance_doctest :
  (X ← make_full_embedding x16 3 1 true;
   D ← squared_euclidean_distance X X;
   Ok (drop 2 (map (drop 2) D))) =
    Ok (of_Zs [[0; 3; 12; 27]; [3; 0; 3; 12]; [12; 3; 0; 3]; [27; 12; 3; 0]]%Z).
Proof. vm_compute. done. Qed.

Example find_neighbors_doctest :
  (X ← make_full_embedding x16 3 1 true;
   D ← squared_euclidean_distance X X;
   let D := assign_diagonal D 0 F64.inf in
   ndn ← find_neighbors D 1;
   let D := assign_diagonal D 1 F64.inf in
   let D := assign_diagonal D (-1) F64.inf in
   ndn' ← find_neighbors D 1;
   Ok (drop 2 ndn.1, drop 2 ndn'.1)) =
    Ok ([[3]; [2]; [3]; [4]], [[4]; [5]; [2]; [3]]).
Proof. vm_compute. done. Qed.

(** ** Binary64 comparison is a total order away from [nan] *)

Section F64_order.
Import F64.

Lemma compare_rank a b :
  SFcompare a b =
    if isnan a || isnan b then None else Some (lex3 (rank a) (rank b)).
Proof.
  destruct a as [sa|sa| |sa ma ea], b as [sb|sb| |sb mb eb];
    try destruct sa; try destruct sb; try reflexivity; cbn.
  f_equal. rewrite !Z.compare_opp. cbn.
  rewrite (Z.compare_antisym ea eb).
  destruct (ea ?= eb)%Z; cbn; try reflexivity.
  rewrite (Pos.compare_antisym ma mb). reflexivity.
Qed.

Lemma lex3_lt_trans p q r : lex3 p q = Lt → lex3 q r = Lt → lex3 p r = Lt.
Proof.
  destruct p as [[p1 p2] p3], q as [[q1 q2] q3], r as [[r1 r2] r3].
  unfold lex3; cbn.
  destruct (Z.compare_spec p1 q1), (Z.compare_spec q1 r1),
    (Z.compare_spec p1 r1); try lia; try discriminate; try reflexivity;
  destruct (Z.compare_spec p2 q2), (Z.compare_spec q2 r2),
    (Z.compare_spec p2 r2); try lia; try discriminate; try reflexivity;
  rewrite ?Z.compare_lt_iff; lia.
Qed.

Lemma lex3_antisym p q : lex3 q p = CompOpp (lex3 p q).
Proof.
  destruct p as [[p1 p2] p3], q as [[q1 q2] q3]. unfold lex3; cbn.
  rewrite (Z.compare_antisym p1 q1), (Z.compare_antisym p2 q2),
    (Z.compare_antisym p3 q3).
  destruct (p1 ?= q1)%Z; cbn; try reflexivity.
  destruct (p2 ?= q2)%Z; cbn; reflexivity.
Qed.

Lemma lex3_eq_lt_trans p q r : lex3 p q = Eq → lex3 q r = Lt → lex3 p r = Lt.
Proof.
  destruct p as [[p1 p2] p3], q as [[q1 q2] q3], r as [[r1 r2] r3].
  unfold lex3; cbn.
  destruct (Z.compare_spec p1 q1); try discriminate.
  destruct (Z.compare_spec p2 q2); try discriminate.
  intros E3%Z.compare_eq; subst; trivial.
Qed.

Lemma ltb_rank a b :
  ltb a b = true ↔
  isnan a = false ∧ isnan b = false ∧ lex3 (rank a) (rank b) = Lt.
Proof.
  unfold ltb, SFltb. rewrite compare_rank.
  destruct (isnan a), (isnan b); cbn; try (split; [discriminate|intros (?&?&?); discriminate]).
  destruct (lex3 (rank a) (rank b)); split; try discriminate; auto;
    intros (?&?&?); discriminate.
Qed.

Lemma eqb_rank a b :
  eqb a b = true ↔
  isnan a = false ∧ isnan b = false ∧ lex3 (rank a) (rank b) = Eq.
Proof.
  unfold eqb, SFeqb. rewrite compare_rank.
  destruct (isnan a), (isnan b); cbn; try (split; [discriminate|intros (?&?&?); discriminate]).
  destruct (lex3 (rank a) (rank b)); split; try discriminate; auto;
    intros (?&?&?); discriminate.
Qed.

Lemma ltb_trans a b c : ltb a b = true → ltb b c = true → ltb a c = true.
Proof.
  rewrite !ltb_rank. intros (?&?&?) (?&?&?). eauto using lex3_lt_trans.
Qed.

Lemma eqb_ltb_trans a b c : eqb a b = true → ltb b c = true → ltb a c = true.
Proof.
  rewrite !ltb_rank, eqb_rank. intros (?&?&?) (?&?&?).
  eauto using lex3_eq_lt_trans.
Qed.

Lemma ltb_irrefl a : ltb a a = false.
Proof.
  destruct (ltb a a) eqn:E; [|reflexivity].
  apply ltb_rank in E as (_&_&E). pose proof (lex3_antisym (rank a) (rank a)) as H.
  rewrite E in H. discriminate.
Qed.

Lemma ltb_not_eqb a b : ltb a b = true → eqb a b = false.
Proof.
  intros H. destruct (eqb a b) eqn:E; [|reflexivity].
  apply ltb_rank in H as (_&_&H). apply eqb_rank in E as (_&_&E). congruence.
Qed.

Lemma ltb_not_eqb_sym a b : ltb a b = true → eqb b a = false.
Proof.
  intros H. destruct (eqb b a) eqn:E; [|reflexivity].
  apply ltb_rank in H as (_&_&H). apply eqb_rank in E as (_&_&E).
  rewrite lex3_antisym, H in E. discriminate.
Qed.

Lemma ltb_asym a b : ltb a b = true → ltb b a = false.
Proof.
  intros H. destruct (ltb b a) eqn:E; [|reflexivity].
  pose proof (ltb_trans _ _ _ H E) as F. rewrite ltb_irrefl in F. discriminate.
Qed.

(** Two numbers that are not [nan] are comparable. *)
Lemma ltb_total a b :
  isnan a = false → isnan b = false →
  ltb a b = false → ltb b a = true ∨ eqb b a = true.
Proof.
  intros Ha Hb H.
  destruct (lex3 (rank b) (rank a)) eqn:E.
  - right. apply eqb_rank; auto.
  - left. apply ltb_rank; auto.
  - exfalso. assert (ltb a b = true) as F; [|congruence].
    apply ltb_rank. repeat split; auto. rewrite lex3_antisym, E. reflexivity.
Qed.

Lemma ltb_isnan a b : ltb a b = true → isnan a = false ∧ isnan b = false.
Proof. rewrite ltb_rank. tauto. Qed.

End F64_order.

(** ** Binary64 arithmetic used by the distances *)

Section F64_arith.
Import F64.

Lemma binary_round_opp m e :
  binary_round prec emax true m e = SFopp (binary_round prec emax false m e).
Proof.
  unfold binary_round, binary_round_aux.
  destruct (shl_align _ _ _) as [mz ez].
  destruct (shr_fexp _ _ _ _ _) as [mrs e'].
  destruct (shr_fexp _ _ _ _ _) as [mrs' e''].
  destruct (shr_m mrs'); try reflexivity.
  destruct (_ <=? _)%Z; reflexivity.
Qed.

Lemma binary_normalize_opp z e :
  binary_normalize prec emax (- z) e false = 
  match z with
  | Z0 => zero
  | _ => SFopp (binary_normalize prec emax z e false)
  end.
Proof.
  destruct z as [|p|p]; try reflexivity.
  - apply binary_round_opp.
  - change (binary_round prec emax false p e =
            SFopp (binary_round prec emax true p e)).
    rewrite binary_round_opp.
    destruct (binary_round _ _ _ _ _) as [[]|[]| |[]]; reflexivity.
Qed.

Lemma mul_opp_opp a : mul (SFopp a) (SFopp a) = mul a a.
Proof. destruct a as [[]|[]| |[] m e]; reflexivity. Qed.

(** [(a - b)**2] and [(b - a)**2] are the same number. *)
Lemma sq_sub_swap a b : mul (sub a b) (sub a b) = mul (sub b a) (sub b a).
Proof.
  destruct a as [sa|sa| |sa ma ea], b as [sb|sb| |sb mb eb];
    try (destruct sa, sb; reflexivity);
    try (destruct sa; reflexivity); try (destruct sb; reflexivity);
    try reflexivity.
  unfold sub, SFsub. rewrite (Z.min_comm eb ea).
  set (ez := Z.min ea eb).
  set (za := cond_Zopp sa _). set (zb := cond_Zopp sb _).
  replace (zb - za)%Z with (- (za - zb))%Z by lia.
  rewrite binary_normalize_opp.
  destruct (za - zb)%Z; [reflexivity| |]; symmetry; apply mul_opp_opp.
Qed.

Lemma sub_diag a : is_finite a = true → sub a a = zero.
Proof.
  destruct a as [[]|[]| |s m e]; try discriminate; try reflexivity.
  intros _. unfold sub, SFsub. rewrite Z.sub_diag. reflexivity.
Qed.

(** *** numpy's summation: what does not depend on the order *)

Lemma add_nan_l a : add nan a = nan.
Proof. reflexivity. Qed.

Lemma add_nan_r a : add a nan = nan.
Proof. by destruct a. Qed.

Lemma lookup_total_Forall (P : float → Prop) (l : vector) i :
  i < length l → Forall P l → P (l !!! i).
Proof.
  intros Hi Hl. destruct (lookup_lt_is_Some_2 l i Hi) as [a Ha].
  rewrite (list_lookup_total_correct _ _ _ Ha).
  exact (proj1 (Forall_lookup _ _) Hl _ _ Ha).
Qed.

Lemma add_rows_length rows : ∀ r rest,
  length r = 8 → 8 * rows ≤ length rest → length (add_rows r rest rows) = 8.
Proof.
  induction rows as [|rows IH]; intros r rest Hr Hrest; cbn [add_rows]; [done|].
  apply IH.
  - rewrite length_zip_with, length_take. lia.
  - rewrite length_drop. lia.
Qed.

Lemma block_rows (n : nat) :
  8 ≤ n → n - n mod 8 = 8 + 8 * (n / 8 - 1) ∧ 8 * (n / 8 - 1) ≤ n - 8.
Proof.
  intros Hn. pose proof (Nat.div_mod_eq n 8) as Hdiv.
  pose proof (Nat.mod_upper_bound n 8). lia.
Qed.

(** A property of zero that additions keep holds of every sum. *)
Section Closed.
Variable P : float → Prop.
Hypothesis P_add : ∀ a b, P a → P b → P (add a b).

Lemma foldl_add_closed (v : vector) : ∀ acc,
  P acc → Forall P v → P (foldl add acc v).
Proof.
  induction v as [|a v IH]; intros acc Hacc Hv; [done|].
  apply Forall_cons in Hv as [Ha Hv]. cbn. apply IH; auto.
Qed.

Lemma zip_with_add_closed (l : vector) : ∀ k : vector,
  Forall P l → Forall P k → Forall P (zip_with add l k).
Proof.
  induction l as [|a l IH]; intros [|b k] Hl Hk; cbn; try constructor.
  - apply Forall_cons in Hl as [? _]. apply Forall_cons in Hk as [? _]. auto.
  - apply Forall_cons in Hl as [_ ?]. apply Forall_cons in Hk as [_ ?]. auto.
Qed.

Lemma add_rows_closed rows : ∀ r rest,
  Forall P r → Forall P rest → Forall P (add_rows r rest rows).
Proof.
  induction rows as [|rows IH]; intros r rest Hr Hrest; cbn [add_rows]; [done|].
  apply IH; [|by apply Forall_drop].
  apply zip_with_add_closed; [done|by apply Forall_take].
Qed.

Lemma combine8_closed (r : vector) :
  length r = 8 → Forall P r → P (combine8 r).
Proof.
  intros Hlen Hr. unfold combine8.
  repeat apply P_add; apply lookup_total_Forall; (lia || done).
Qed.

Lemma block_sum_closed (v : vector) :
  8 ≤ length v → Forall P v → P (block_sum v).
Proof.
  intros Hn Hv. unfold block_sum. destruct (block_rows _ Hn) as [_ Hrows].
  apply foldl_add_closed; [|by apply Forall_drop].
  apply combine8_closed.
  - apply add_rows_length; [rewrite length_take|rewrite length_drop]; lia.
  - apply add_rows_closed; [by apply Forall_take|by apply Forall_drop].
Qed.

Lemma pairwise_sum_rec_closed fuel : ∀ v : vector,
  P zero → Forall P v → P (pairwise_sum_rec fuel v).
Proof.
  induction fuel as [|fuel IH]; intros v H0 Hv; cbn [pairwise_sum_rec];
    (destruct (Nat.ltb_spec (length v) 8); [by apply foldl_add_closed|]);
    (destruct (Nat.leb_spec (length v) 128); [by apply block_sum_closed|]).
  - by apply block_sum_closed.
  - apply P_add; apply IH; (done || by apply Forall_take || by apply Forall_drop).
Qed.

Lemma add_chunks_closed fuel : ∀ acc (v : vector),
  P zero → P acc → Forall P v → P (add_chunks fuel acc v).
Proof.
  induction fuel as [|fuel IH]; intros acc v H0 Hacc Hv;
    destruct v as [|a v]; cbn [add_chunks]; try done.
  apply IH; [done| |by apply Forall_drop].
  apply P_add; [done|].
  apply pairwise_sum_rec_closed; [done|by apply Forall_take].
Qed.

Lemma np_sum_closed (v : vector) : P zero → Forall P v → P (np_sum v).
Proof. intros H0 Hv. by apply add_chunks_closed. Qed.

End Closed.

Lemma np_sum_zeros (v : vector) : Forall (λ a, a = zero) v → np_sum v = zero.
Proof.
  apply (np_sum_closed (λ a, a = zero)); [|done]. by intros a b -> ->.
Qed.

(** A sum is [nan] as soon as an entry is: every entry is added. *)
Lemma foldl_add_nan (v : vector) : foldl add nan v = nan.
Proof. induction v as [|a v IH]; [done|]. cbn [foldl]. by rewrite add_nan_l. Qed.

Lemma foldl_add_nan_elem (v : vector) : ∀ acc, nan ∈ v → foldl add acc v = nan.
Proof.
  induction v as [|a v IH]; intros acc Hin; [by apply elem_of_nil in Hin|].
  apply elem_of_cons in Hin as [<-|Hin]; cbn [foldl]; [|by apply IH].
  rewrite add_nan_r. apply foldl_add_nan.
Qed.

Lemma zip_with_add_nan (l k : vector) :
  length l = length k → nan ∈ l ∨ nan ∈ k → nan ∈ zip_with add l k.
Proof.
  intros Hlen Hin. apply list_elem_of_lookup.
  destruct Hin as [[i Hi]%list_elem_of_lookup|[i Hi]%list_elem_of_lookup];
    exists i; rewrite lookup_zip_with, Hi.
  - destruct (lookup_lt_is_Some_2 k i) as [b ->];
      [apply lookup_lt_Some in Hi; lia|]. done.
  - destruct (lookup_lt_is_Some_2 l i) as [a ->];
      [apply lookup_lt_Some in Hi; lia|]. cbn [mbind option_bind].
    by rewrite add_nan_r.
Qed.

Lemma add_rows_nan rows : ∀ r rest : vector,
  length r = 8 → 8 * rows ≤ length rest →
  nan ∈ r ∨ nan ∈ take (8 * rows) rest → nan ∈ add_rows r rest rows.
Proof.
  induction rows as [|rows IH]; intros r rest Hr Hrest Hin; cbn [add_rows].
  - destruct Hin as [?|Hin]; [done|]. by apply elem_of_nil in Hin.
  - assert (length (take 8 rest) = 8) as Hlen8 by (rewrite length_take; lia).
    apply IH.
    + rewrite length_zip_with. lia.
    + rewrite length_drop. lia.
    + replace (8 * S rows) with (8 + 8 * rows) in Hin by lia.
      rewrite <- take_take_drop in Hin.
      destruct Hin as [Hin|[Hin|Hin]%elem_of_app]; [| |by right];
        left; apply zip_with_add_nan; auto; lia.
Qed.

Lemma combine8_nan (r : vector) : length r = 8 → nan ∈ r → combine8 r = nan.
Proof.
  intros Hlen Hin.
  do 8 (destruct r as [|? r]; [done|]). destruct r; [|done].
  unfold combine8. cbn [lookup_total list_lookup_total].
  repeat (apply elem_of_cons in Hin as [<-|Hin];
          [by repeat first [rewrite add_nan_l|rewrite add_nan_r]|]).
  by apply elem_of_nil in Hin.
Qed.

Lemma block_sum_nan (v : vector) : 8 ≤ length v → nan ∈ v → block_sum v = nan.
Proof.
  intros Hn Hin. unfold block_sum. destruct (block_rows _ Hn) as [Hm Hrows].
  rewrite <- (take_drop (length v - length v mod 8) v) in Hin.
  apply elem_of_app in Hin as [Hin|Hin]; [|by apply foldl_add_nan_elem].
  rewrite combine8_nan; [apply foldl_add_nan| |].
  - apply add_rows_length; [rewrite length_take|rewrite length_drop]; lia.
  - rewrite Hm, <- take_take_drop in Hin.
    apply add_rows_nan; [rewrite length_take; lia|rewrite length_drop; lia|].
    by apply elem_of_app in Hin.
Qed.

Lemma pairwise_sum_rec_nan fuel : ∀ v : vector,
  nan ∈ v → pairwise_sum_rec fuel v = nan.
Proof.
  induction fuel as [|fuel IH]; intros v Hin; cbn [pairwise_sum_rec];
    (destruct (Nat.ltb_spec (length v) 8); [by apply foldl_add_nan_elem|]);
    (destruct (Nat.leb_spec (length v) 128); [by apply block_sum_nan|]).
  - by apply block_sum_nan.
  - set (n2 := length v / 2 - (length v / 2) mod 8).
    rewrite <- (take_drop n2 v) in Hin.
    apply elem_of_app in Hin as [Hin|Hin]; rewrite (IH _ Hin);
      [apply add_nan_l|apply add_nan_r].
Qed.

Lemma add_chunks_nan_acc fuel : ∀ v : vector, add_chunks fuel nan v = nan.
Proof.
  induction fuel as [|fuel IH]; intros [|a v]; cbn [add_chunks];
    rewrite ?add_nan_l; auto.
Qed.

Lemma bufsize_pos : 0 < bufsize.
Proof. unfold bufsize. lia. Qed.

Lemma add_chunks_nan fuel : ∀ acc (v : vector),
  length v ≤ fuel → nan ∈ v → add_chunks fuel acc v = nan.
Proof.
  induction fuel as [|fuel IH]; intros acc v Hlen Hin.
  { destruct v; [by apply elem_of_nil in Hin|cbn in Hlen; lia]. }
  destruct v as [|a v]; [by apply elem_of_nil in Hin|]. cbn [add_chunks].
  pose proof bufsize_pos.
  rewrite <- (take_drop bufsize (a :: v)) in Hin.
  apply elem_of_app in Hin as [Hin|Hin].
  - unfold pairwise_sum. rewrite (pairwise_sum_rec_nan _ _ Hin), add_nan_r.
    apply add_chunks_nan_acc.
  - apply IH; [|done]. rewrite length_drop. cbn [length] in *. lia.
Qed.

(** [v.sum()] is [nan] as soon as an entry is. *)
Lemma np_sum_nan (v : vector) : nan ∈ v → np_sum v = nan.
Proof. intros Hin. by apply add_chunks_nan. Qed.

(** Fewer than 8 entries are added from left to right. *)
Lemma np_sum_small (v : vector) :
  length v < 8 → np_sum v = add zero (foldl add zero v).
Proof.
  intros Hlen. unfold np_sum. destruct v as [|a v]; [reflexivity|].
  cbn [length add_chunks].
  assert (length (a :: v) ≤ bufsize) as Hbuf.
  { unfold bufsize. cbn [length] in *. lia. }
  rewrite take_ge, drop_ge by done.
  assert (∀ fuel acc, add_chunks fuel acc [] = acc) as -> by (by intros []).
  unfold pairwise_sum. destruct (length (a :: v)) as [|n] eqn:Hn; [done|].
  cbn [pairwise_sum_rec]. rewrite Hn.
  by destruct (Nat.ltb_spec (S n) 8); [|lia].
Qed.

(** Up to [bufsize] entries are handed to the inner loop at once. *)
Lemma np_sum_one_chunk (v : vector) :
  0 < length v ≤ bufsize → np_sum v = add zero (pairwise_sum v).
Proof.
  intros [Hpos Hbuf]. unfold np_sum. destruct v as [|a v]; [cbn in Hpos; lia|].
  cbn [length add_chunks]. rewrite take_ge, drop_ge by done.
  by destruct (length v).
Qed.

(** From 8 to 15 entries: the first eight are combined pairwise, and the
    others are added to the result one by one. *)
Lemma np_sum_one_row (v : vector) :
  8 ≤ length v < 16 →
  np_sum v =
    add zero
      (foldl add
         (add (add (add (v !!! 0) (v !!! 1)) (add (v !!! 2) (v !!! 3)))
              (add (add (v !!! 4) (v !!! 5)) (add (v !!! 6) (v !!! 7))))
         (drop 8 v)).
Proof.
  intros Hlen. rewrite np_sum_one_chunk by (unfold bufsize; lia). f_equal.
  unfold pairwise_sum.
  assert (length v / 8 = 1) as Hdiv
    by (symmetry; apply (Nat.div_unique _ 8 1 (length v - 8)); lia).
  assert (length v mod 8 = length v - 8) as Hmod
    by (symmetry; apply (Nat.mod_unique _ 8 1 (length v - 8)); lia).
  destruct (length v) as [|n] eqn:Hn; [lia|]. cbn [pairwise_sum_rec].
  rewrite Hn. destruct (Nat.ltb_spec (S n) 8); [lia|].
  destruct (Nat.leb_spec (S n) 128); [|lia].
  unfold block_sum. rewrite Hn, Hdiv, Hmod.
  replace (S n - (S n - 8)) with 8 by lia.
  replace (1 - 1) with 0 by lia. cbn [add_rows].
  unfold combine8. by rewrite !lookup_total_take_lt by lia.
Qed.

(** The recursion of [pairwise_sum] never runs out of steps: any number of
    steps from the length of the array on gives the same sum. *)
Lemma pairwise_sum_rec_fuel fuel : ∀ fuel' (v : vector),
  length v ≤ fuel → length v ≤ fuel' →
  pairwise_sum_rec fuel v = pairwise_sum_rec fuel' v.
Proof.
  induction fuel as [|fuel IH]; intros fuel' v Hf Hf'.
  - destruct v; [|cbn in Hf; lia]. by destruct fuel'.
  - destruct fuel' as [|fuel'].
    { destruct v; [|cbn in Hf'; lia]. done. }
    cbn [pairwise_sum_rec].
    destruct (Nat.ltb_spec (length v) 8); [done|].
    destruct (Nat.leb_spec (length v) 128); [done|].
    pose proof (Nat.mod_upper_bound (length v / 2) 8) as Hmod.
    pose proof (Nat.div_mod_eq (length v) 2) as Hdiv.
    pose proof (Nat.mod_upper_bound (length v) 2) as Hmod2.
    f_equal; apply IH; rewrite ?length_take, ?length_drop; lia.
Qed.

(** [pairwise_sum] as numpy writes it: fewer than 8 entries one by one, up
    to 128 by [block_sum], more as the sum of the sums of two parts, the
    first of [n / 2] entries cut down to a multiple of 8. *)
Lemma pairwise_sum_unfold (v : vector) :
  pairwise_sum v =
    if length v <? 8 then foldl add zero v
    else if length v <=? 128 then block_sum v
    else add (pairwise_sum (take (length v / 2 - (length v / 2) mod 8) v))
             (pairwise_sum (drop (length v / 2 - (length v / 2) mod 8) v)).
Proof.
  unfold pairwise_sum at 1. destruct (length v) as [|n] eqn:Hn.
  { by destruct v. }
  cbn [pairwise_sum_rec]. rewrite Hn.
  destruct (Nat.ltb_spec (S n) 8); [done|].
  destruct (Nat.leb_spec (S n) 128); [done|].
  pose proof (Nat.mod_upper_bound (S n / 2) 8) as Hmod.
  pose proof (Nat.div_mod_eq (S n) 2) as Hdiv.
  pose proof (Nat.mod_upper_bound (S n) 2) as Hmod2.
  unfold pairwise_sum.
  f_equal; apply pairwise_sum_rec_fuel;
    rewrite ?length_take, ?length_drop; lia.
Qed.

Lemma add_chunks_fuel fuel : ∀ fuel' acc (v : vector),
  length v ≤ fuel → length v ≤ fuel' →
  add_chunks fuel acc v = add_chunks fuel' acc v.
Proof.
  induction fuel as [|fuel IH]; intros fuel' acc v Hf Hf'.
  - destruct v; [|cbn in Hf; lia]. by destruct fuel'.
  - destruct fuel' as [|fuel'].
    { destruct v; [|cbn in Hf'; lia]. done. }
    destruct v as [|a v]; [done|]. cbn [add_chunks].
    pose proof bufsize_pos.
    apply IH; rewrite length_drop; cbn [length] in *; lia.
Qed.

(** [np_sum] chunk by chunk: the first [bufsize] entries are added to the
    result, then the others. *)
Lemma np_sum_unfold (v : vector) :
  np_sum v =
    add_chunks (length (drop bufsize v))
      (match v with [] => zero | _ => add zero (pairwise_sum (take bufsize v)) end)
      (drop bufsize v).
Proof.
  unfold np_sum. destruct v as [|a v]; [done|]. cbn [length add_chunks].
  pose proof bufsize_pos.
  apply add_chunks_fuel; rewrite ?length_drop; cbn [length]; lia.
Qed.

(** Eight squares that the two orders add to different floats:
    [2^54 + 1 + ... + 1] is [2^54 + 4] in numpy's order and [2^54] from
    left to right. *)
Example np_sum_eight_squares :
  np_sum (map (λ x, mul x x) row8) = of_Z (2 ^ 54 + 4) ∧
  foldl add zero (map (λ x, mul x x) row8) = of_Z (2 ^ 54).
Proof. split; vm_compute; reflexivity. Qed.

End F64_arith.

(** ** Results *)

Lemma bind_Ok {A B} (r : result A) (f : A → result B) b :
  r ≫= f = Ok b ↔ ∃ a, r = Ok a ∧ f a = Ok b.
Proof.
  destruct r as [a|e]; cbn; split.
  - eauto.
  - intros (a'&[= <-]&H). exact H.
  - discriminate.
  - intros (a'&[=]&_).
Qed.

Lemma bind_ret_l {A B} (a : A) (f : A → result B) : Ok a ≫= f = f a.
Proof. reflexivity. Qed.

Lemma mapR_Ok {A B} (f : A → result B) l bs :
  mapR f l = Ok bs ↔ Forall2 (λ a b, f a = Ok b) l bs.
Proof.
  revert bs. induction l as [|a l IH]; intros bs; cbn.
  - split; [intros [= <-]; constructor | intros ->%Forall2_nil_inv_l; reflexivity].
  - rewrite bind_Ok. split.
    + intros (b&Hb&H). apply bind_Ok in H as (bs'&Hbs&[= <-]).
      constructor; [exact Hb | apply IH, Hbs].
    + intros (b&bs'&Hb&Hbs&->)%Forall2_cons_inv_l.
      exists b. split; [exact Hb|]. apply IH in Hbs. rewrite Hbs. reflexivity.
Qed.

Lemma mapR_total {A B} (f : A → result B) (g : A → B) l :
  Forall (λ a, f a = Ok (g a)) l → mapR f l = Ok (map g l).
Proof.
  intros H. apply mapR_Ok. induction H; cbn; constructor; auto.
Qed.

Lemma mapR_length {A B} (f : A → result B) l bs :
  mapR f l = Ok bs → length bs = length l.
Proof. intros H%mapR_Ok. symmetry. eapply Forall2_length, H. Qed.

(** ** Shapes *)

Lemma rect_lookup c (X : matrix) i row :
  rect c X → X !! i = Some row → length row = c.
Proof. intros H Hi. exact (proj1 (Forall_lookup _ _) H i row Hi). Qed.

Lemma shape1_rect c (X : matrix) : rect c X → X ≠ [] → shape1 X = c.
Proof. destruct X as [|row X]; [done|]. intros H _. by inversion H. Qed.

Lemma item_Some (X : matrix) i j v :
  item X i j = Some v ↔ ∃ row, X !! i = Some row ∧ row !! j = Some v.
Proof.
  unfold item. destruct (X !! i) as [row|]; cbn; split.
  - eauto.
  - intros (?&[= <-]&?); done.
  - done.
  - intros (?&[=]&_).
Qed.

Lemma item_is_Some c (X : matrix) i j :
  rect c X → i < length X → j < c → is_Some (item X i j).
Proof.
  intros H Hi Hj. destruct (lookup_lt_is_Some_2 X i Hi) as [row Hrow].
  unfold item. rewrite Hrow. cbn. apply lookup_lt_is_Some_2.
  by rewrite (rect_lookup _ _ _ _ H Hrow).
Qed.

Lemma setitem_length X i j v : length (setitem X i j v) = length X.
Proof. apply length_alter. Qed.

Lemma setitem_rect c X i j v : rect c X → rect c (setitem X i j v).
Proof.
  intros H. apply Forall_alter; [exact H|]. intros row _ Hrow.
  by rewrite length_insert.
Qed.

Lemma setitem_shape1 X i j v : shape1 (setitem X i j v) = shape1 X.
Proof.
  destruct X as [|row X]; [done|]. destruct i; cbn; [|done].
  by rewrite length_insert.
Qed.

Lemma setitem_lookup X i j v i' :
  setitem X i j v !! i' =
    if decide (i' = i) then (λ row, <[j := v]> row) <$> X !! i' else X !! i'.
Proof.
  unfold setitem. case_decide as E.
  - subst. apply list_lookup_alter_eq.
  - apply list_lookup_alter_ne. congruence.
Qed.

(** ** [assign_diagonal] *)


Lemma assign_diagonal_prefix (X : matrix) offset val k :
  k ≤ length X →
  let X' := foldl (λ X i,
           let j := (Z.of_nat i + offset)%Z in
           if (0 <=? j)%Z && (j <? Z.of_nat (shape1 X))%Z
           then setitem X i (Z.to_nat j) val else X) X (seq 0 k) in
  length X' = length X ∧ shape1 X' = shape1 X ∧
  ∀ i, X' !! i =
       if decide (i < k) then diag_row (shape1 X) offset val i <$> X !! i
       else X !! i.
Proof.
  induction k as [|k IH]; intros Hk; cbn zeta.
  - cbn. split_and!; [done..|]. intros i. case_decide; [lia|done].
  - rewrite seq_S, foldl_app. cbn [foldl].
    destruct IH as (Hlen & Hsh & Hrows); [lia|].
    set (X' := foldl _ X (seq 0 k)) in *. cbn [Nat.add].
    rewrite Hsh.
    destruct (_ && _) eqn:Hin.
    + rewrite setitem_length, setitem_shape1. split_and!; [done..|].
      intros i. rewrite setitem_lookup, Hrows.
      repeat case_decide; try lia; subst; try done.
      destruct (X !! k); [|done]. cbn. unfold diag_row. by rewrite Hin.
    + split_and!; [done..|]. intros i. rewrite Hrows.
      repeat case_decide; try lia; try done.
      assert (i = k) as -> by lia.
      destruct (X !! k); [|done]. cbn. unfold diag_row. by rewrite Hin.
Qed.

Lemma assign_diagonal_lookup (X : matrix) offset val i :
  assign_diagonal X offset val !! i = diag_row (shape1 X) offset val i <$> X !! i.
Proof.
  unfold assign_diagonal, shape0.
  destruct (assign_diagonal_prefix X offset val (length X)) as (_&_&H); [lia|].
  rewrite H. case_decide as Hi; [done|].
  rewrite lookup_ge_None_2; [done|lia].
Qed.

Lemma assign_diagonal_length X offset val :
  length (assign_diagonal X offset val) = length X.
Proof.
  unfold assign_diagonal, shape0.
  by destruct (assign_diagonal_prefix X offset val (length X)) as (?&_&_).
Qed.

Lemma assign_diagonal_rect c X offset val :
  rect c X → rect c (assign_diagonal X offset val).
Proof.
  intros H. apply Forall_lookup. intros i row.
  rewrite assign_diagonal_lookup. destruct (X !! i) as [row'|] eqn:E; [|done].
  intros [= <-]. unfold diag_row.
  destruct (_ && _); rewrite ?length_insert; eapply rect_lookup; eauto.
Qed.

(** The entries of [assign_diagonal X offset val]. *)
Lemma assign_diagonal_item c (X : matrix) offset val i j :
  rect c X → i < length X → j < c →
  item (assign_diagonal X offset val) i j =
    if decide (Z.of_nat j = Z.of_nat i + offset)%Z then Some val else item X i j.
Proof.
  intros H Hi Hj. unfold item. rewrite assign_diagonal_lookup.
  destruct (lookup_lt_is_Some_2 X i Hi) as [row Hrow]. rewrite Hrow. cbn.
  assert (length row = c) as Hlen by (eapply rect_lookup; eauto).
  assert (shape1 X = c) as -> by (apply shape1_rect; [done|]; by intros ->).
  unfold diag_row. case_decide as E.
  - rewrite <- E. replace (_ && _) with true; [|symmetry; apply andb_true_iff; lia].
    rewrite Nat2Z.id. apply list_lookup_insert_eq. lia.
  - destruct (_ && _) eqn:Hin; [|done].
    apply list_lookup_insert_ne. intros <-. apply andb_true_iff in Hin. lia.
Qed.

(** ** Masking a band *)

Lemma mask_offset_length val D offset :
  length (mask_offset val D offset) = length D.
Proof.
  unfold mask_offset. destruct (0 <? offset)%Z;
    by rewrite !assign_diagonal_length.
Qed.

Lemma mask_offset_rect c val D offset :
  rect c D → rect c (mask_offset val D offset).
Proof.
  intros H. unfold mask_offset.
  destruct (0 <? offset)%Z; auto using assign_diagonal_rect.
Qed.

Lemma mask_offset_item c val (D : matrix) offset i j :
  rect c D → i < length D → j < c → (0 ≤ offset)%Z →
  item (mask_offset val D offset) i j =
    if decide (Z.of_nat j = Z.of_nat i + offset ∨ Z.of_nat i = Z.of_nat j + offset)%Z
    then Some val else item D i j.
Proof.
  intros H Hi Hj Ho. unfold mask_offset.
  destruct (0 <? offset)%Z eqn:E.
  - rewrite (assign_diagonal_item c), (assign_diagonal_item c);
      auto using assign_diagonal_rect; [|by rewrite assign_diagonal_length].
    repeat case_decide; try done; lia.
  - rewrite (assign_diagonal_item c); auto.
    repeat case_decide; try done; lia.
Qed.

Lemma mask_band_prefix c val (D : matrix) n :
  rect c D →
  let D' := foldl (mask_offset val) D (map (λ k, (0 + Z.of_nat k)%Z) (seq 0 n)) in
  length D' = length D ∧ rect c D' ∧
  ∀ i j, i < length D → j < c →
    item D' i j =
      if decide (i < j + n ∧ j < i + n) then Some val else item D i j.
Proof.
  intros H. induction n as [|n IH]; cbn zeta.
  - cbn. split_and!; [done..|]. intros i j _ _. case_decide; [lia|done].
  - rewrite seq_S, map_app, foldl_app. cbn [map foldl Nat.add].
    destruct IH as (Hlen & Hrect & Hitem).
    set (D' := foldl _ D _) in *.
    rewrite mask_offset_length. split_and!; [done|by apply mask_offset_rect|].
    intros i j Hi Hj.
    rewrite (mask_offset_item c); [|done|lia|done|lia].
    rewrite Hitem by done. repeat case_decide; try done; lia.
Qed.

Lemma mask_band_length val D m : length (mask_band val D m) = length D.
Proof.
  unfold mask_band, range. generalize (Z.to_nat (m - 0)). intros n.
  induction n as [|n IH]; [done|].
  rewrite seq_S, map_app, foldl_app. cbn [map foldl].
  by rewrite mask_offset_length.
Qed.

Lemma mask_band_rect c val D m : rect c D → rect c (mask_band val D m).
Proof.
  intros H. unfold mask_band, range.
  by destruct (mask_band_prefix c val D (Z.to_nat (m - 0)) H) as (_&?&_).
Qed.

(** The entries of the masked array: [val] within [neighbor_offset_min] of
    the diagonal, the entries of [D] elsewhere. *)
Lemma mask_band_item c val (D : matrix) m i j :
  rect c D → i < length D → j < c →
  item (mask_band val D m) i j =
    if decide (Z.abs (Z.of_nat i - Z.of_nat j) < m)%Z then Some val
    else item D i j.
Proof.
  intros H Hi Hj. unfold mask_band, range.
  destruct (mask_band_prefix c val D (Z.to_nat (m - 0)) H) as (_&_&Hitem).
  rewrite Hitem by done. repeat case_decide; try done; lia.
Qed.

(** ** Distances *)


Lemma row_sqdist_same_length (a b : vector) :
  length a = length b → row_sqdist a b = Ok (sqdist a b).
Proof.
  intros Hlen. unfold row_sqdist, broadcast2, sqdist.
  rewrite decide_True by done. cbn. do 2 f_equal.
  clear Hlen. revert b. induction a as [|x a IH]; intros [|y b]; cbn; try done.
  by rewrite IH, sq_sub_swap.
Qed.

Lemma sqdist_sym (a b : vector) : sqdist a b = sqdist b a.
Proof.
  unfold sqdist. f_equal. revert b.
  induction a as [|x a IH]; intros [|y b]; cbn; try done.
  by rewrite IH, sq_sub_swap.
Qed.

Lemma sqdist_diag (a : vector) :
  Forall (λ x, F64.is_finite x = true) a → sqdist a a = F64.zero.
Proof.
  intros H. apply np_sum_zeros. induction H as [|x a Hx _ IH]; cbn; constructor.
  - by rewrite sub_diag.
  - exact IH.
Qed.

Lemma squared_euclidean_distance_rect c (A B : matrix) :
  rect c A → rect c B →
  squared_euclidean_distance A B = Ok (map (λ a, map (sqdist a) B) A).
Proof.
  intros HA HB. unfold squared_euclidean_distance.
  apply mapR_total. eapply Forall_impl; [exact HA|]. cbn. intros a Ha.
  apply mapR_total. eapply Forall_impl; [exact HB|]. cbn. intros b Hb.
  apply row_sqdist_same_length. congruence.
Qed.

Lemma item_map2 {A} (f : A → vector → F64.float) (X : list A) (Y : matrix) i k :
  item (map (λ a, map (f a) Y) X) i k =
    a ← X !! i; b ← Y !! k; Some (f a b).
Proof.
  unfold item. rewrite list_lookup_fmap.
  destruct (X !! i) as [a|]; [|done]. cbn. rewrite list_lookup_fmap.
  by destruct (Y !! k).
Qed.

Lemma item_map (f : F64.float → F64.float) (X : matrix) i k :
  item (map (map f) X) i k = f <$> item X i k.
Proof.
  unfold item. rewrite list_lookup_fmap.
  destruct (X !! i) as [a|]; [|done]. cbn. by rewrite list_lookup_fmap.
Qed.

Lemma map_map_rect (f : F64.float → F64.float) c (X : matrix) :
  rect c X → rect c (map (map f) X).
Proof.
  intros H. apply Forall_fmap. eapply Forall_impl; [exact H|].
  cbn. intros row. by rewrite length_map.
Qed.

(** ** [argpartition] and [find_neighbors] *)

Lemma lookup_or_total {A} `{!Inhabited A} e (l : list A) i :
  i < length l → lookup_or e (l !! i) = Ok (l !!! i).
Proof. intros H. by rewrite list_lookup_lookup_total_lt. Qed.

Lemma column_rect {A} `{!Inhabited A} c (D : list (list A)) i :
  Forall (λ row, length row = c) D → i < c →
  column D i = Ok (map (λ row, row !!! i) D).
Proof.
  intros H Hi. apply mapR_total. eapply Forall_impl; [exact H|].
  cbn. intros row Hrow. apply lookup_or_total. lia.
Qed.

Lemma take_items_total {A} `{!Inhabited A} (v : list A) idx :
  Forall (λ n, n < length v) idx → take_items v idx = Ok (map (λ n, v !!! n) idx).
Proof.
  intros H. apply mapR_total. eapply Forall_impl; [exact H|].
  cbn. intros n Hn. by apply lookup_or_total.
Qed.

Lemma swap_length l i j : length (swap l i j) = length l.
Proof. unfold swap. by rewrite !length_insert. Qed.

Lemma swap_lookup l i j p :
  i < length l → j < length l →
  swap l i j !! p =
    l !! (if decide (p = i) then j else if decide (p = j) then i else p).
Proof.
  intros Hi Hj. unfold swap.
  case_decide as E1; [subst p|case_decide as E2; [subst p|]].
  - rewrite list_lookup_insert_eq by (by rewrite length_insert).
    by rewrite list_lookup_lookup_total_lt.
  - rewrite list_lookup_insert_ne by done.
    rewrite list_lookup_insert_eq by done.
    by rewrite list_lookup_lookup_total_lt.
  - by rewrite !list_lookup_insert_ne.
Qed.

Lemma swap_NoDup l i j :
  i < length l → j < length l → NoDup l → NoDup (swap l i j).
Proof.
  intros Hi Hj H. apply NoDup_alt. intros p q x.
  rewrite !swap_lookup by done. intros Hp Hq.
  pose proof (proj1 (NoDup_alt l) H _ _ _ Hp Hq) as E.
  repeat case_decide; lia.
Qed.

Lemma swap_Forall (P : nat → Prop) l i j :
  i < length l → j < length l → Forall P l → Forall P (swap l i j).
Proof.
  intros Hi Hj H. apply Forall_lookup. intros p x.
  rewrite swap_lookup by done. intros Hp.
  exact (proj1 (Forall_lookup _ _) H _ _ Hp).
Qed.

Lemma min_position_bound v rest k minidx minval :
  minidx < k →
  min_position v rest k minidx minval < k + length rest.
Proof.
  revert k minidx minval. induction rest as [|t rest IH]; intros k minidx minval H; cbn.
  - lia.
  - destruct (np_lt _ _).
    + specialize (IH (S k) k (v !!! t)). lia.
    + specialize (IH (S k) minidx minval). lia.
Qed.


Lemma index_array_seq n : index_array n (seq 0 n).
Proof.
  split_and!.
  - apply length_seq.
  - apply NoDup_seq.
  - apply Forall_seq. intros; lia.
Qed.

Lemma select_round_index_array v n tosort i :
  i < n → index_array n tosort → index_array n (select_round v tosort i).
Proof.
  intros Hi (Hlen & Hnd & Hlt). unfold select_round.
  set (m := min_position _ _ _ _ _).
  assert (m < n) as Hm.
  { pose proof (min_position_bound v (drop (S i) tosort) (S i) i
                  (v !!! (tosort !!! i))) as H.
    rewrite length_drop in H. unfold m. lia. }
  split_and!.
  - by rewrite swap_length.
  - apply swap_NoDup; [lia..|done].
  - apply swap_Forall; [lia..|done].
Qed.

Lemma select_rounds_index_array v k :
  k ≤ length v →
  index_array (length v) (foldl (select_round v) (seq 0 (length v)) (seq 0 k)).
Proof.
  induction k as [|k IH]; intros Hk.
  - apply index_array_seq.
  - rewrite seq_S, foldl_app. cbn [foldl Nat.add].
    apply select_round_index_array; [lia|]. apply IH. lia.
Qed.

Lemma argpartition_index_array v k p :
  argpartition v k = Ok p → index_array (length v) p.
Proof.
  unfold argpartition. case_decide as Hk0; [done|].
  case_decide as Hk; [|done]. intros [= <-].
  by apply select_rounds_index_array.
Qed.

Lemma argpartition_Ok v k :
  1 ≤ k ≤ length v → ∃ p, argpartition v k = Ok p.
Proof.
  intros H. unfold argpartition.
  rewrite decide_False, decide_True by lia. eauto.
Qed.

(** Counting the entries of [l] with [P] by value or by index. *)
Lemma filter_index_length {A} `{!Inhabited A} (P : A → Prop)
    `{!∀ a, Decision (P a)} (l0 l : list A) :
  length (filter (λ t, P ((l0 ++ l) !!! t)) (seq (length l0) (length l))) =
  length (filter P l).
Proof.
  revert l0. induction l as [|a l IH]; intros l0; [done|].
  cbn [length seq]. rewrite !filter_cons.
  rewrite list_lookup_total_middle by done.
  specialize (IH (l0 ++ [a])). rewrite <- app_assoc, length_app in IH.
  cbn in IH. rewrite Nat.add_1_r in IH.
  destruct (decide (P a)); cbn; by rewrite IH.
Qed.

(** Among [k] different indices of [col], when fewer than [k] entries of
    [col] are finite, one is the index of an entry that is not. *)
Lemma selected_not_finite (col : vector) (Ni : list nat) :
  NoDup Ni → Forall (λ t, t < length col) Ni →
  length (filter (λ d, F64.is_finite d = true) col) < length Ni →
  ∃ n, n ∈ Ni ∧ F64.is_finite (col !!! n) = false.
Proof.
  intros Hnd Hlt Hfew.
  destruct (decide (Forall (λ n, F64.is_finite (col !!! n) = true) Ni)) as [Hall|Hex].
  - exfalso.
    pose proof (filter_index_length (λ d, F64.is_finite d = true) [] col) as Hcount.
    cbn in Hcount.
    assert (Ni ⊆+ filter (λ t, F64.is_finite (col !!! t) = true)
                    (seq 0 (length col))) as Hsub.
    { apply NoDup_submseteq; [done|]. intros n Hn.
      apply list_elem_of_filter. split.
      - exact (proj1 (Forall_forall _ _) Hall n Hn).
      - apply elem_of_seq. pose proof (proj1 (Forall_forall _ _) Hlt n Hn) as Hn'.
        cbn in Hn'. lia. }
    apply submseteq_length in Hsub. rewrite Hcount in Hsub. lia.
  - apply not_Forall_Exists in Hex; [|apply _].
    apply Exists_exists in Hex as (n & Hn & Hfin). exists n. split; [done|].
    cbn in Hfin. by destruct (F64.is_finite (col !!! n)).
Qed.

(** [find_neighbors] on a square array, row by row. *)
Lemma neighbors_of_row_square (D : matrix) k i :
  square D → 1 ≤ k ≤ length D → i < length D →
  ∃ p, argpartition (map (λ row, row !!! i) D) k = Ok p ∧
       neighbors_of_row D k i =
         Ok (take k p, map (λ n, (D !!! i) !!! n) (take k p)).
Proof.
  intros Hsq Hk Hi. unfold neighbors_of_row.
  rewrite (column_rect (length D)) by done. cbn.
  destruct (argpartition_Ok (map (λ row, row !!! i) D) k) as [p Hp];
    [by rewrite length_map|].
  exists p. split; [done|]. rewrite Hp. cbn.
  rewrite lookup_or_total by done. cbn.
  apply argpartition_index_array in Hp as (Hlen & Hnd & Hlt).
  rewrite length_map in Hlen, Hlt.
  rewrite take_items_total; [done|].
  apply Forall_take. eapply Forall_impl; [exact Hlt|]. cbn. intros n Hn.
  assert (length (D !!! i) = length D) as ->; [|done].
  eapply (rect_lookup _ D i); [exact Hsq|]. by apply list_lookup_lookup_total_lt.
Qed.

Lemma find_neighbors_square (D : matrix) (k : Z) :
  square D → (0 ≤ k)%Z → (D = [] ∨ 1 ≤ k ≤ Z.of_nat (length D))%Z →
  ∃ N DN, find_neighbors D k = Ok (N, DN) ∧
    length N = length D ∧ length DN = length D ∧
    ∀ i, i < length D →
      ∃ p, argpartition (map (λ row, row !!! i) D) (Z.to_nat k) = Ok p ∧
           N !! i = Some (take (Z.to_nat k) p) ∧
           DN !! i = Some (map (λ n, (D !!! i) !!! n) (take (Z.to_nat k) p)).
Proof.
  intros Hsq Hk0 Hk. unfold find_neighbors.
  destruct (Z.ltb_spec k 0) as [?|_]; [lia|].
  assert (∀ i, i < length D → 1 ≤ Z.to_nat k ≤ length D) as Hk'.
  { intros i Hi. destruct Hk as [->|?]; [cbn in Hi|]; lia. }
  assert (∃ rows, mapR (neighbors_of_row D (Z.to_nat k)) (seq 0 (shape0 D)) = Ok rows)
    as [rows Hrows].
  { exists (map (λ i, match neighbors_of_row D (Z.to_nat k) i with
                      | Ok r => r | Raise _ => ([], []) end) (seq 0 (shape0 D))).
    apply mapR_total. apply Forall_seq. intros i Hi.
    destruct (neighbors_of_row_square D (Z.to_nat k) i) as (p & Hp & Hrow);
      [done|apply (Hk' i); unfold shape0 in Hi; lia|unfold shape0 in Hi; lia|].
    by rewrite Hrow. }
  rewrite Hrows. cbn. exists (map fst rows), (map snd rows). split; [done|].
  pose proof (mapR_length _ _ _ Hrows) as Hlen. rewrite length_seq in Hlen.
  rewrite !length_map. split_and!; [done..|]. intros i Hi.
  destruct (neighbors_of_row_square D (Z.to_nat k) i) as (p & Hp & Hrow);
    [done|by apply (Hk' i)|done|].
  exists p. split; [done|].
  apply mapR_Ok in Hrows.
  destruct (Forall2_lookup_l _ _ _ i i Hrows) as (r & Hr & Hri).
  { by apply lookup_seq_lt. }
  rewrite Hrow in Hri. injection Hri as <-.
  by rewrite !list_lookup_fmap, Hr.
Qed.

(** ** [make_partial_embedding] and [make_full_embedding] *)

Lemma assign_column_from_shape c X start i src X' :
  assign_column_from X start i src = Ok X' →
  length X' = length X ∧ (rect c X → rect c X').
Proof.
  unfold assign_column_from. intros H.
  assert (∃ f : nat → list F64.float → list F64.float,
            (∀ r row, length (f r row) = length row) ∧ X' = imap f X)
    as (f & Hf & ->).
  { repeat case_decide; try done; injection H as <-; eexists; (split; [|done]);
      intros r row; cbn; case_decide; by rewrite ?length_insert. }
  split; [by rewrite length_imap|]. intros Hc.
  apply Forall_lookup. intros r row. rewrite list_lookup_imap.
  destruct (X !! r) as [row'|] eqn:E; [|done]. intros [= <-].
  rewrite Hf. eapply rect_lookup; eauto.
Qed.

Lemma fill_lagged_shape c x X i taus X' :
  fill_lagged x X i taus = Ok X' →
  length X' = length X ∧ (rect c X → rect c X').
Proof.
  revert X i. induction taus as [|tau taus IH]; intros X i; cbn.
  - by intros [= <-].
  - destruct (tau <? 0)%Z; [done|]. intros H.
    apply bind_Ok in H as (X1 & H1 & H).
    apply (assign_column_from_shape c) in H1 as [Hlen Hrect].
    apply IH in H as [Hlen' Hrect']. split; [congruence|auto].
Qed.

Lemma rect_replicate c n (v : F64.float) : rect c (replicate n (replicate c v)).
Proof. apply Forall_replicate. apply length_replicate. Qed.

Lemma make_partial_embedding_shape x taus preserve_indices X :
  make_partial_embedding x taus preserve_indices = Ok X →
  rect (length taus) X ∧
  (preserve_indices = true → length X = length x).
Proof.
  unfold make_partial_embedding. intros H.
  apply bind_Ok in H as (X0 & H0 & H).
  apply (fill_lagged_shape (length taus)) in H0 as [Hlen Hrect].
  rewrite length_replicate in Hlen. specialize (Hrect (rect_replicate _ _ _)).
  destruct preserve_indices.
  - injection H as <-. done.
  - apply bind_Ok in H as (m & _ & [= <-]). split; [|done].
    by apply Forall_drop.
Qed.

Lemma arange_unit_length E : length (arange (E * 1) 1) = Z.to_nat E.
Proof.
  unfold arange. rewrite length_map, length_seq. f_equal.
  rewrite Z.div_1_r. lia.
Qed.

Lemma arange_unit E : arange (E * 1) 1 = range 0 E.
Proof.
  unfold arange, range. rewrite Z.div_1_r.
  replace (E * 1 + 1 - 1)%Z with (E - 0)%Z by lia.
  apply map_ext. intros k. lia.
Qed.

(** The full candidate matrix of [nichkawde_embedding] has [E_max] columns. *)
Lemma make_full_embedding_shape x E preserve_indices X :
  make_full_embedding x E 1 preserve_indices = Ok X →
  (0 < E)%Z ∧ rect (Z.to_nat E) X ∧
  (preserve_indices = true → length X = length x).
Proof.
  unfold make_full_embedding.
  destruct (Z.ltb_spec 0 E) as [HE|]; [|done]. cbn.
  intros [Hrect Hlen]%make_partial_embedding_shape.
  rewrite arange_unit_length in Hrect. done.
Qed.

(** The entries after [X[start:, i] = src] for a [src] of the right length. *)
Lemma assign_column_from_item c (X : matrix) start i src r j :
  rect c X → length src = length X - start → r < length X → j < c → i < c →
  ∃ X', assign_column_from X start i src = Ok X' ∧
    item X' r j =
      if decide (start ≤ r ∧ j = i) then Some (src !!! (r - start))
      else item X r j.
Proof.
  intros Hrect Hsrc Hr Hj Hi. unfold assign_column_from.
  rewrite decide_True by done. eexists. split; [done|].
  unfold item. rewrite list_lookup_imap.
  destruct (lookup_lt_is_Some_2 X r Hr) as [row Hrow]. rewrite Hrow. cbn.
  assert (length row = c) as Hlen by (eapply rect_lookup; eauto).
  repeat case_decide; try lia.
  - destruct_and!. subst j. apply list_lookup_insert_eq. lia.
  - apply list_lookup_insert_ne. lia.
  - done.
Qed.

Lemma slice_to_in_range (x : vector) (tau : Z) :
  (0 ≤ tau ≤ Z.of_nat (length x))%Z →
  slice_to x (Z.of_nat (length x) - tau) = take (length x - Z.to_nat tau) x.
Proof.
  intros H. unfold slice_to.
  destruct (Z.ltb_spec (Z.of_nat (length x) - tau) 0); [lia|].
  f_equal. lia.
Qed.

(** The loop of [make_partial_embedding], for lags within the series:
    column [j] from [i] on holds [x[r - tau]] from row [tau] on. *)
Lemma fill_lagged_item c (x : vector) (taus : list Z) :
  Forall (λ tau, 0 ≤ tau ≤ Z.of_nat (length x))%Z taus →
  ∀ (X : matrix) i, rect c X → length X = length x → i + length taus ≤ c →
  ∃ X', fill_lagged x X i taus = Ok X' ∧
    ∀ r j, r < length x → j < c →
      item X' r j =
        match taus !! (j - i) with
        | Some tau =>
            if decide (i ≤ j ∧ Z.to_nat tau ≤ r)
            then Some (x !!! (r - Z.to_nat tau)) else item X r j
        | None => item X r j
        end.
Proof.
  induction 1 as [|tau taus Htau _ IH]; intros X i Hrect Hlen Hi.
  - exists X. split; [done|]. intros r j _ _. by rewrite lookup_nil.
  - cbn [fill_lagged]. destruct (Z.ltb_spec tau 0) as [?|_]; [lia|].
    rewrite slice_to_in_range by done.
    cbn [length] in Hi.
    assert (∃ X1, assign_column_from X (Z.to_nat tau) i
                    (take (length x - Z.to_nat tau) x) = Ok X1) as [X1 H1].
    { unfold assign_column_from. rewrite decide_True; [eauto|].
      rewrite length_take. lia. }
    rewrite H1. cbn.
    pose proof (assign_column_from_shape c _ _ _ _ _ H1) as [Hlen1 Hrect1].
    destruct (IH X1 (S i)) as (X' & HX' & Hitem); [auto|congruence|lia|].
    exists X'. split; [done|]. intros r j Hr Hj.
    rewrite Hitem by done.
    destruct (assign_column_from_item c X (Z.to_nat tau) i
                (take (length x - Z.to_nat tau) x) r j) as (X1' & H1' & Hitem1);
      [done|rewrite length_take; lia|lia|done|lia|].
    rewrite H1 in H1'. injection H1' as <-.
    rewrite Hitem1.
    destruct (decide (j = i)) as [->|Hne].
    + rewrite Nat.sub_diag. cbn [lookup list_lookup].
      destruct (taus !! (i - S i)); repeat case_decide; try lia; try done;
        by rewrite lookup_total_take_lt by lia.
    + destruct (decide (i < j)) as [Hlt|Hge].
      * replace (j - i) with (S (j - S i)) by lia. cbn [lookup list_lookup].
        destruct (taus !! (j - S i)); repeat case_decide; try lia; done.
      * replace (j - S i) with 0 by lia. replace (j - i) with 0 by lia.
        cbn [lookup list_lookup].
        destruct (taus !! 0); repeat case_decide; try lia; done.
Qed.

Lemma item_replicate n c (v : F64.float) r j :
  r < n → j < c → item (replicate n (replicate c v)) r j = Some v.
Proof.
  intros Hr Hj. unfold item. rewrite lookup_replicate_2 by done. cbn.
  by apply lookup_replicate_2.
Qed.

Lemma np_max_ge (taus : list Z) m :
  np_max taus = Ok m → Forall (λ t, t ≤ m)%Z taus.
Proof.
  destruct taus as [|t taus]; [done|]. cbn. intros [= <-].
  assert (∀ a, (a ≤ foldl Z.max a taus)%Z ∧
               Forall (λ t, t ≤ foldl Z.max a taus)%Z taus) as H.
  { induction taus as [|t' taus IH]; intros a; cbn.
    - split; [lia|constructor].
    - destruct (IH (Z.max a t')) as [H1 H2]. split; [lia|].
      constructor; [lia|done]. }
  destruct (H t). by constructor.
Qed.

(** [make_partial_embedding] for lags within the series: entry [(r, j)] is
    [x[r - taus[j]]] from row [taus[j]] on and [nan] above; without
    [preserve_indices] the first [max(taus)] rows are dropped, and what is
    left holds entries of [x] only. *)
Lemma make_partial_embedding_in_range (x : vector) (taus : list Z) :
  Forall (λ tau, 0 ≤ tau ≤ Z.of_nat (length x))%Z taus →
  (∃ X, make_partial_embedding x taus true = Ok X ∧
     length X = length x ∧
     ∀ r j tau, r < length x → taus !! j = Some tau →
       item X r j =
         Some (if decide (Z.to_nat tau ≤ r) then x !!! (r - Z.to_nat tau)
               else F64.nan)) ∧
  (taus ≠ [] →
   ∃ X m, np_max taus = Ok m ∧
     make_partial_embedding x taus false = Ok X ∧
     length X = length x - Z.to_nat m ∧
     ∀ r j tau, r < length x - Z.to_nat m → taus !! j = Some tau →
       item X r j = Some (x !!! (Z.to_nat m + r - Z.to_nat tau))).
Proof.
  intros Htaus.
  destruct (fill_lagged_item (length taus) x taus Htaus
              (replicate (length x) (replicate (length taus) F64.nan)) 0)
    as (X & HX & Hitem);
    [apply rect_replicate|by rewrite length_replicate|lia|].
  pose proof (fill_lagged_shape (length taus) _ _ _ _ _ HX) as [Hlen _].
  rewrite length_replicate in Hlen.
  assert (∀ r j tau, r < length x → taus !! j = Some tau →
            item X r j = Some (if decide (Z.to_nat tau ≤ r)
                               then x !!! (r - Z.to_nat tau) else F64.nan))
    as Hitem'.
  { intros r j tau Hr Hj. pose proof (lookup_lt_Some _ _ _ Hj) as Hlt.
    rewrite Hitem by done. rewrite Nat.sub_0_r, Hj.
    rewrite item_replicate by done.
    repeat case_decide; try lia; done. }
  unfold make_partial_embedding. rewrite HX. split.
  - exists X. done.
  - intros Hne. destruct (np_max taus) as [m|e] eqn:Hm;
      [|by destruct taus]. cbn.
    exists (drop (Z.to_nat m) X), m. split_and!; [done..| |].
    + rewrite length_drop. lia.
    + intros r j tau Hr Hj.
      assert (item (drop (Z.to_nat m) X) r j = item X (Z.to_nat m + r) j) as ->.
      { unfold item. by rewrite lookup_drop. }
      rewrite (Hitem' _ _ tau) by (done || lia).
      apply np_max_ge in Hm.
      pose proof (proj1 (Forall_lookup _ _) Hm _ _ Hj) as Hle. cbn in Hle.
      pose proof (proj1 (Forall_lookup _ _) Htaus _ _ Hj) as Hge. cbn in Hge.
      rewrite decide_True by lia. done.
Qed.

(** ** The choice of the next lag *)


Lemma best_candidate_pure score g cands m t :
  Forall (λ c, score c = Ok (g c)) cands →
  best_candidate score cands m t = Ok (best_pure g cands m t).
Proof.
  intros H. revert m t. induction H as [|c cands Hc _ IH]; intros m t; cbn.
  - done.
  - rewrite Hc. cbn. destruct (F64.ltb m (g c)); apply IH.
Qed.

(** When the loop over the candidates ends without an exception, every
    score was computed. *)
Lemma best_candidate_Ok score cands m t r :
  best_candidate score cands m t = Ok r →
  ∃ g, Forall (λ c, score c = Ok (g c)) cands ∧ r = best_pure g cands m t.
Proof.
  intros H.
  exists (λ c, match score c with Ok s => s | Raise _ => F64.nan end).
  revert m t H. induction cands as [|c cands IH]; intros m t; cbn.
  - intros [= <-]. split; [constructor|done].
  - intros H. apply bind_Ok in H as (s & Hs & H). rewrite Hs in *.
    destruct (F64.ltb m s); apply IH in H as [Hall ->]; (split; [|done]);
      constructor; auto; by rewrite Hs.
Qed.

(** The outcome of the loop over the candidates: either no score exceeds
    [max_deriv] and nothing changes, or the winner is the first candidate
    with the largest score. *)
Lemma best_pure_spec g cands m t :
  let r := best_pure g cands m t in
  (r = (m, t) ∧ Forall (λ c, F64.ltb m (g c) = false) cands) ∨
  (∃ pre tau post, cands = pre ++ tau :: post ∧ r = (g tau, Some tau) ∧
     F64.ltb m (g tau) = true ∧
     Forall (λ c, F64.ltb (g c) (g tau) = true ∨ F64.isnan (g c) = true
                  ∨ F64.isnan m = true) pre ∧
     Forall (λ c, F64.ltb (g tau) (g c) = false) post).
Proof.
  revert m t. induction cands as [|c cands IH]; intros m t; cbn zeta.
  - left. split; [done|constructor].
  - cbn [best_pure]. destruct (F64.ltb m (g c)) eqn:Hc.
    + right. destruct (IH (g c) (Some c)) as [[Hr Hall]|(pre&tau&post&->&Hr&Hlt&Hpre&Hpost)].
      * exists [], c, cands. split_and!; try done; constructor.
      * exists (c :: pre), tau, post. split_and!; try done.
        -- eauto using ltb_trans.
        -- constructor; [by left|].
           eapply Forall_impl; [exact Hpre|]. cbn. intros c' [?|[?|Hnan]]; auto.
           apply ltb_isnan in Hc as [_ Hc]. congruence.
    + destruct (IH m t) as [[Hr Hall]|(pre&tau&post&->&Hr&Hlt&Hpre&Hpost)].
      * left. split; [done|]. by constructor.
      * right. exists (c :: pre), tau, post. split_and!; try done.
        constructor; [|done].
        destruct (F64.isnan (g c)) eqn:Hnc; [auto|].
        destruct (F64.isnan m) eqn:Hnm; [auto|]. left.
        destruct (ltb_total m (g c)) as [H|H]; try done.
        -- eauto using ltb_trans.
        -- eauto using eqb_ltb_trans.
Qed.

(** ** [range] *)

Lemma range_lookup a b i z :
  range a b !! i = Some z ↔ (z = a + Z.of_nat i ∧ Z.of_nat i < b - a)%Z.
Proof.
  unfold range. rewrite list_lookup_fmap. split.
  - destruct (seq 0 _ !! i) as [k|] eqn:E; [|done]. intros [= <-].
    apply lookup_seq in E as [-> ?]. lia.
  - intros [-> H]. rewrite lookup_seq_lt by lia. done.
Qed.

Lemma elem_of_range a b z : z ∈ range a b ↔ (a ≤ z < b)%Z.
Proof.
  rewrite list_elem_of_lookup. split.
  - intros (i & [-> ?]%range_lookup). lia.
  - intros H. exists (Z.to_nat (z - a)). apply range_lookup. lia.
Qed.

(** In [range a b = pre ++ tau :: post], the candidates before [tau] are
    the smaller ones. *)
Lemma range_split a b pre tau post c :
  range a b = pre ++ tau :: post →
  (c ∈ pre ↔ (a ≤ c < tau)%Z) ∧ (c ∈ post ↔ (tau < c < b)%Z) ∧ (a ≤ tau < b)%Z.
Proof.
  intros H.
  assert (tau = a + Z.of_nat (length pre) ∧ Z.of_nat (length pre) < b - a)%Z
    as [Htau Hb].
  { apply range_lookup. rewrite H. apply list_lookup_middle. done. }
  split; [|split; [|lia]].
  - rewrite list_elem_of_lookup. split.
    + intros (i & Hi).
      pose proof (lookup_lt_Some _ _ _ Hi) as Hlt.
      assert (range a b !! i = Some c) as [-> ?]%range_lookup; [|lia].
      rewrite H. by rewrite lookup_app_l.
    + intros Hc. exists (Z.to_nat (c - a)).
      assert (range a b !! Z.to_nat (c - a) = Some c) as Hr.
      { apply range_lookup. lia. }
      rewrite H, lookup_app_l in Hr by lia. done.
  - rewrite list_elem_of_lookup. split.
    + intros (i & Hi).
      assert (range a b !! (length pre + S i) = Some c) as [-> ?]%range_lookup; [|lia].
      rewrite H. rewrite lookup_app_r by lia.
      replace (length pre + S i - length pre) with (S i) by lia. done.
    + intros Hc. exists (Z.to_nat (c - tau - 1)).
      assert (range a b !! Z.to_nat (c - a) = Some c) as Hr.
      { apply range_lookup. lia. }
      rewrite H, lookup_app_r in Hr by lia.
      replace (Z.to_nat (c - a) - length pre) with (S (Z.to_nat (c - tau - 1)))
        in Hr by lia.
      done.
Qed.

(** ** One turn of the loop of [nichkawde_embedding] *)

Lemma take_columns_rect c (X : matrix) (taus : list Z) :
  rect c X → Forall (λ t, Z.to_nat t < c) taus →
  take_columns X taus = Ok (map (λ row, map (λ t, row !!! Z.to_nat t) taus) X).
Proof.
  intros HX Ht. apply mapR_total. eapply Forall_impl; [exact HX|].
  cbn. intros row Hrow. apply mapR_total. eapply Forall_impl; [exact Ht|].
  cbn. intros t Hlt. apply lookup_or_total. lia.
Qed.


Lemma masked_distance_rect c (X : matrix) m :
  rect c X →
  ∃ D, masked_distance X m = Ok D ∧ length D = length X ∧ square D ∧
    ∀ i k, i < length X → k < length X →
      item D i k =
        Some (if decide (Z.abs (Z.of_nat i - Z.of_nat k) < m)%Z then F64.nan
              else if F64.eqb (dist X i k) F64.zero then F64.inf
              else dist X i k).
Proof.
  intros HX. unfold masked_distance.
  rewrite (squared_euclidean_distance_rect c) by done. cbn.
  set (D2 := map (λ a, map (sqdist a) X) X).
  assert (length D2 = length X) as Hlen2 by (unfold D2; by rewrite length_map).
  assert (rect (length X) D2) as Hrect2.
  { unfold D2. apply Forall_fmap, Forall_forall. intros a _. cbn.
    by rewrite length_map. }
  eexists. split; [done|].
  rewrite mask_band_length. unfold zeros_to_inf, np_sqrt.
  rewrite !length_map. split; [done|]. split.
  { unfold square. rewrite mask_band_length, !length_map, Hlen2.
    by apply mask_band_rect, map_map_rect, map_map_rect. }
  intros i k Hi Hk.
  rewrite (mask_band_item (length X));
    [|by apply map_map_rect, map_map_rect|by rewrite !length_map, Hlen2|done].
  case_decide; [done|].
  rewrite !item_map. unfold D2. rewrite item_map2.
  rewrite !list_lookup_lookup_total_lt by done. cbn. unfold dist. done.
Qed.

Lemma nearest_rect c (X_full : matrix) m (taus : list Z) :
  rect c X_full → Forall (λ t, Z.to_nat t < c) taus →
  ∃ N0 DN0, nearest X_full m taus = Ok (N0, DN0) ∧
    length N0 = length X_full ∧ length DN0 = length X_full ∧
    Forall (λ n, n < length X_full) N0.
Proof.
  intros HX Ht. unfold nearest.
  rewrite (take_columns_rect c) by done. rewrite bind_ret_l.
  set (X := map _ X_full).
  assert (length X = length X_full) as HlenX by (unfold X; by rewrite length_map).
  assert (rect (length taus) X) as HrectX.
  { unfold X. apply Forall_fmap, Forall_forall. intros a _. cbn.
    by rewrite length_map. }
  destruct (masked_distance_rect _ X m HrectX) as (D & -> & HlenD & HsqD & _).
  rewrite bind_ret_l.
  destruct (find_neighbors_square D 1 HsqD) as (N & DN & -> & HlenN & HlenDN & Hrows);
    [lia|destruct D; [by left|right; cbn; lia]|]. rewrite bind_ret_l. cbn [fst snd].
  assert (Forall (λ Ni : list nat, length Ni = 1 ∧ Forall (λ n, n < length D) Ni) N)
    as HN.
  { apply Forall_lookup. intros i Ni Hi.
    pose proof (lookup_lt_Some _ _ _ Hi) as Hlt. rewrite HlenN in Hlt.
    destruct (Hrows i Hlt) as (p & Hp & HNi & _).
    rewrite Hi in HNi. injection HNi as ->.
    apply argpartition_index_array in Hp as (Hlen & _ & Hbound).
    rewrite length_map in Hlen, Hbound. split.
    - rewrite length_take. change (Z.to_nat 1) with 1. lia.
    - by apply Forall_take. }
  assert (Forall (λ DNi : list F64.float, length DNi = 1) DN) as HDN.
  { apply Forall_lookup. intros i DNi Hi.
    pose proof (lookup_lt_Some _ _ _ Hi) as Hlt. rewrite HlenDN in Hlt.
    destruct (Hrows i Hlt) as (p & Hp & _ & HDNi).
    rewrite Hi in HDNi. injection HDNi as ->.
    apply argpartition_index_array in Hp as (Hlen & _ & _).
    rewrite length_map in Hlen.
    rewrite length_map, length_take. change (Z.to_nat 1) with 1. lia. }
  rewrite (column_rect 1 N 0); [|eapply Forall_impl; [exact HN|]; by intros ? [? _]|lia].
  rewrite bind_ret_l. rewrite (column_rect 1 DN 0) by (done || lia).
  rewrite bind_ret_l.
  eexists _, _. split; [done|]. rewrite !length_map.
  split_and!; [congruence..|].
  apply Forall_fmap. eapply Forall_impl; [exact HN|]. cbn.
  intros Ni [Hlen Hbound]. destruct Ni as [|n Ni]; [done|].
  inversion Hbound; subst. cbn. congruence.
Qed.

Lemma derivs_rect c (X_full : matrix) N0 DN0 (tau : Z) :
  rect c X_full → Z.to_nat tau < c → Forall (λ n, n < length X_full) N0 →
  ∃ deriv, derivs X_full N0 DN0 tau = Ok deriv.
Proof.
  intros HX Ht HN. unfold derivs.
  rewrite (column_rect c) by done. cbn.
  rewrite take_items_total by (by rewrite length_map). cbn. eauto.
Qed.

Lemma np_mean_nil : np_mean [] = F64.nan.
Proof. reflexivity. Qed.

Section Scores.
Variable log_fin exp_fin : F64.float → F64.float.

Lemma geo_mean_deriv_Ok X_full N0 DN0 tau s :
  geo_mean_deriv log_fin exp_fin X_full N0 DN0 tau = Ok s ↔
  ∃ deriv, derivs X_full N0 DN0 tau = Ok deriv ∧
           s = np_exp exp_fin (np_mean (map (np_log log_fin) deriv)).
Proof.
  unfold geo_mean_deriv. rewrite bind_Ok. split.
  - intros (d & Hd & [= <-]). eauto.
  - intros (d & Hd & ->). eauto.
Qed.

(** A candidate with no derivative left has the score [nan]. *)
Lemma geo_mean_deriv_empty X_full N0 DN0 tau s :
  derivs X_full N0 DN0 tau = Ok [] →
  geo_mean_deriv log_fin exp_fin X_full N0 DN0 tau = Ok s → s = F64.nan.
Proof.
  intros Hd (d & Hd' & ->)%geo_mean_deriv_Ok. rewrite Hd in Hd'.
  by injection Hd' as <-.
Qed.

(** [next_lag] once the neighbours and the scores are known. *)
Lemma next_lag_scored X_full E_max m taus N0 DN0 g :
  nearest X_full m taus = Ok (N0, DN0) →
  Forall (λ c, geo_mean_deriv log_fin exp_fin X_full N0 DN0 c = Ok (g c))
         (range (last_lag taus + 1) E_max) →
  next_lag log_fin exp_fin X_full E_max m taus =
    match (best_pure g (range (last_lag taus + 1) E_max) F64.zero None).2 with
    | None => Raise EmbeddingFailure
    | Some tau => Ok tau
    end.
Proof.
  intros Hn Hg. unfold next_lag. rewrite Hn. cbn.
  by rewrite (best_candidate_pure _ g).
Qed.

(** A lag returned by [next_lag] is the first candidate with the largest
    score, and that score is above zero. *)
Lemma next_lag_Ok X_full E_max m taus tau :
  next_lag log_fin exp_fin X_full E_max m taus = Ok tau →
  ∃ N0 DN0 g,
    nearest X_full m taus = Ok (N0, DN0) ∧
    (∀ c, last_lag taus < c < E_max →
          geo_mean_deriv log_fin exp_fin X_full N0 DN0 c = Ok (g c))%Z ∧
    (last_lag taus < tau < E_max)%Z ∧
    F64.ltb F64.zero (g tau) = true ∧
    (∀ c, last_lag taus < c < tau →
          F64.ltb (g c) (g tau) = true ∨ F64.isnan (g c) = true)%Z ∧
    (∀ c, tau < c < E_max → F64.ltb (g tau) (g c) = false)%Z.
Proof.
  unfold next_lag. intros H.
  apply bind_Ok in H as ([N0 DN0] & Hn & H).
  apply bind_Ok in H as (best & Hbest & H). cbn in Hbest.
  apply best_candidate_Ok in Hbest as (g & Hg & ->).
  exists N0, DN0, g. split; [done|].
  split.
  { intros c Hc. apply (proj1 (Forall_forall _ _) Hg). apply elem_of_range. lia. }
  destruct (best_pure_spec g (range (last_lag taus + 1) E_max) F64.zero None)
    as [[Hr _]|(pre & tau' & post & Hsplit & Hr & Hpos & Hpre & Hpost)];
    rewrite Hr in H; cbn in H; [done|]. injection H as ->.
  pose proof (λ c, range_split _ _ _ _ _ c Hsplit) as Hin.
  split; [destruct (Hin 0%Z) as (_&_&?); lia|]. split; [done|]. split.
  - intros c Hc. destruct (Hin c) as (Hc' & _ & _).
    destruct (proj1 (Forall_forall _ _) Hpre c) as [?|[?|?]]; auto; [|done].
    apply Hc'. lia.
  - intros c Hc. destruct (Hin c) as (_ & Hc' & _).
    apply (proj1 (Forall_forall _ _) Hpost c). apply Hc'. lia.
Qed.

End Scores.

(** ** The [while] loop *)

Lemma last_lag_snoc taus tau : last_lag (taus ++ [tau]) = tau.
Proof. apply last_last. Qed.


Lemma lags_inv_init E_max : (0 < E_max)%Z → lags_inv E_max [0%Z].
Proof.
  intros H. split_and!.
  - by exists [].
  - repeat constructor.
  - repeat constructor; cbn; lia.
  - cbn. lia.
Qed.

Lemma lags_inv_snoc E_max taus tau :
  lags_inv E_max taus → (last_lag taus < tau < E_max)%Z →
  lags_inv E_max (taus ++ [tau]).
Proof.
  intros ([rest ->] & Hsort & Hall & Hlast) Htau.
  rewrite Forall_forall in Hall. split_and!.
  - by exists (rest ++ [tau]).
  - apply StronglySorted_app_2; [|done|repeat constructor].
    intros t1 t2 H1 ->%list_elem_of_singleton. specialize (Hall t1 H1). lia.
  - rewrite last_lag_snoc. apply Forall_app. split.
    + apply Forall_forall. intros t Ht. specialize (Hall t Ht). lia.
    + apply Forall_singleton.
      assert (0 ≤ last_lag (0 :: rest))%Z by (apply (Hall 0%Z); left). lia.
  - rewrite last_lag_snoc. lia.
Qed.

Lemma lags_inv_bounds E_max taus :
  lags_inv E_max taus → Forall (λ t, 0 ≤ t ≤ E_max - 1)%Z taus.
Proof.
  intros (_ & _ & Hall & Hlast). eapply Forall_impl; [exact Hall|].
  cbn. intros t. lia.
Qed.

Section Loop.
Variable log_fin exp_fin : F64.float → F64.float.
Variable X_full : matrix.
Variable E_max neighbor_offset_min : Z.

Local Abbreviation next := (next_lag log_fin exp_fin X_full E_max neighbor_offset_min).
Local Abbreviation run := (greedy_run log_fin exp_fin X_full E_max neighbor_offset_min).
Local Abbreviation loop := (λ fuel, greedy_loop log_fin exp_fin fuel X_full E_max neighbor_offset_min).

Lemma next_lag_bound taus tau :
  next taus = Ok tau → (last_lag taus < tau < E_max)%Z.
Proof. intros (?&?&?&?&?&?&?)%next_lag_Ok. done. Qed.

Lemma greedy_run_det taus n r n' r' :
  run taus n r → run taus n' r' → n = n' ∧ r = r'.
Proof.
  intros H. revert n' r'.
  induction H as [taus Hc|taus e Hc He|taus tau n r Hc Ht _ IH];
    intros n' r';
    inversion 1 as [? Hc'|? e' Hc' He'|? tau' m r0 Hc' Ht' Hrun']; subst;
    try congruence; try (split; congruence).
  assert (tau' = tau) as -> by congruence.
  destruct (IH _ _ Hrun') as [-> ->]. done.
Qed.

Lemma greedy_run_turns taus n r :
  run taus n r → (Z.of_nat n ≤ Z.max 0 (E_max - 1 - last_lag taus))%Z.
Proof.
  induction 1 as [taus Hc|taus e Hc He|taus tau n r Hc Ht _ IH].
  - lia.
  - apply Z.ltb_lt in Hc. lia.
  - apply next_lag_bound in Ht. rewrite last_lag_snoc in IH. lia.
Qed.

Lemma greedy_loop_run fuel taus r :
  loop fuel taus = Some r → ∃ n, n ≤ fuel ∧ run taus n r.
Proof.
  revert taus. induction fuel as [|fuel IH]; intros taus; cbn;
    destruct (last_lag taus <? E_max - 1)%Z eqn:Hc; try done.
  - intros [= <-]. exists 0. split; [lia|by constructor].
  - destruct (next taus) as [tau|e] eqn:Ht.
    + intros (n & Hn & Hrun)%IH. exists (S n). split; [lia|].
      by eapply run_turn.
    + intros [= <-]. exists 1. split; [lia|]. by constructor.
  - intros [= <-]. exists 0. split; [lia|by constructor].
Qed.

Lemma greedy_run_loop taus n r :
  run taus n r → ∀ fuel, n ≤ fuel → loop fuel taus = Some r.
Proof.
  induction 1 as [taus Hc|taus e Hc He|taus tau n r Hc Ht _ IH];
    intros fuel Hfuel.
  - destruct fuel; cbn; by rewrite Hc.
  - destruct fuel; [lia|]. cbn. by rewrite Hc, He.
  - destruct fuel; [lia|]. cbn. rewrite Hc, Ht. apply IH. lia.
Qed.

(** The loop ends within [E_max - 1 - taus[-1]] turns. *)
Lemma greedy_loop_enough fuel taus :
  (E_max - 1 - last_lag taus ≤ Z.of_nat fuel)%Z → ∃ r, loop fuel taus = Some r.
Proof.
  revert taus. induction fuel as [|fuel IH]; intros taus Hfuel; cbn;
    destruct (Z.ltb_spec (last_lag taus) (E_max - 1)) as [Hc|Hc]; eauto; [lia|].
  destruct (next taus) as [tau|e] eqn:Ht; [|eauto].
  apply IH. apply next_lag_bound in Ht. rewrite last_lag_snoc. lia.
Qed.

Lemma greedy_run_total taus : ∃ n r, run taus n r.
Proof.
  destruct (greedy_loop_enough (Z.to_nat (E_max - 1 - last_lag taus)) taus)
    as [r Hr]; [lia|].
  apply greedy_loop_run in Hr as (n & _ & Hrun). eauto.
Qed.

(** A run that returns has appended one lag per turn and kept the lags
    increasing and below [E_max]. *)
Lemma greedy_run_inv taus n taus' :
  run taus n (Ok taus') → lags_inv E_max taus →
  lags_inv E_max taus' ∧ length taus' = length taus + n.
Proof.
  intros H. remember (Ok taus') as r eqn:Er. revert Er.
  induction H as [taus Hc|taus e Hc He|taus tau n r Hc Ht _ IH]; intros Er Hinv.
  - injection Er as <-. split; [done|lia].
  - done.
  - destruct (IH Er) as [Hinv' Hlen].
    + apply lags_inv_snoc; [done|]. by apply next_lag_bound.
    + split; [done|]. rewrite Hlen, length_app. cbn. lia.
Qed.

(** The lags of every turn the loop gets to are increasing and below
    [E_max]. *)
Lemma greedy_reaches_inv taus taus' :
  greedy_reaches log_fin exp_fin X_full E_max neighbor_offset_min taus taus' →
  lags_inv E_max taus → lags_inv E_max taus'.
Proof.
  induction 1 as [taus|taus tau taus' Hc Ht _ IH]; [done|]. intros Hinv.
  apply IH, lags_inv_snoc; [done|]. by apply next_lag_bound.
Qed.

(** An exception in a turn the loop gets to is the outcome of the loop. *)
Lemma greedy_run_raise taus n r taus' e :
  run taus n r → greedy_reaches log_fin exp_fin X_full E_max neighbor_offset_min taus taus' →
  (last_lag taus' <? E_max - 1)%Z = true → next taus' = Raise e →
  r = Raise e.
Proof.
  intros Hrun Hreach. revert n r Hrun.
  induction Hreach as [taus|taus tau taus' Hc Ht _ IH]; intros n r Hrun Hc' He.
  - inversion Hrun; subst; congruence.
  - inversion Hrun as [? Hc0|? e0 Hc0 He0|? tau0 m r0 Hc0 Ht0 Hrun0]; subst;
      try congruence.
    assert (tau0 = tau) as -> by congruence. eauto.
Qed.

End Loop.

(** ** [nichkawde_embedding] *)

Section Embedding.
Variable log_fin exp_fin : F64.float → F64.float.
Variable x : vector.
Variable E_max neighbor_offset_min : Z.
Variable preserve_indices : bool.

Local Abbreviation embed_run :=
  (nichkawde_run log_fin exp_fin x E_max neighbor_offset_min preserve_indices).
Local Abbreviation embed := (λ fuel,
  nichkawde_embedding log_fin exp_fin fuel x E_max neighbor_offset_min preserve_indices).

Lemma nichkawde_embedding_run fuel out : embed fuel = Some out → embed_run out.
Proof.
  unfold nichkawde_embedding.
  destruct (make_full_embedding x E_max 1 preserve_indices) as [X_full|e] eqn:HX.
  - destruct (greedy_loop _ _ _ _ _ _ _) as [r|] eqn:Hr; [|done].
    intros [= <-]. apply greedy_loop_run in Hr as (n & _ & Hrun).
    by eapply embed_loop.
  - intros [= <-]. by constructor.
Qed.

Lemma nichkawde_run_det o1 o2 : embed_run o1 → embed_run o2 → o1 = o2.
Proof.
  intros H1 H2. destruct H1 as [e He|X_full n r HX Hrun];
    destruct H2 as [e' He'|X_full' n' r' HX' Hrun']; try congruence.
  assert (X_full' = X_full) as -> by congruence.
  by destruct (greedy_run_det _ _ _ _ _ _ _ _ _ _ Hrun Hrun') as [_ ->].
Qed.

Lemma nichkawde_embedding_enough fuel :
  (E_max - 1 ≤ Z.of_nat fuel)%Z → ∃ out, embed fuel = Some out.
Proof.
  intros Hfuel. unfold nichkawde_embedding.
  destruct (make_full_embedding x E_max 1 preserve_indices) as [X_full|e]; [|eauto].
  destruct (greedy_loop_enough log_fin exp_fin X_full E_max neighbor_offset_min
              fuel [0%Z]) as [r ->]; [cbn; lia|]. cbn. eauto.
Qed.

End Embedding.

(** ** numpy's order is a strict weak order *)

Lemma np_lt_rank a b :
  np_lt a b = true ↔ F64.lex3 (np_rank a) (np_rank b) = Lt.
Proof.
  unfold np_lt. destruct (F64.isnan b) eqn:Hb, (F64.isnan a) eqn:Ha;
    destruct a as [[]|[]| |[] ? ?]; try discriminate;
    destruct b as [[]|[]| |[] ? ?]; try discriminate;
    cbn [negb andb orb np_rank]; rewrite ?orb_true_r, ?orb_false_r;
    try (split; [done|done]);
    try (rewrite ltb_rank; cbn [F64.isnan]; split; [by intros (_&_&?)|done]).
Qed.

Lemma np_lt_irrefl a : np_lt a a = false.
Proof.
  destruct (np_lt a a) eqn:E; [|done]. apply np_lt_rank in E.
  pose proof (lex3_antisym (np_rank a) (np_rank a)) as H. rewrite E in H. done.
Qed.

Lemma np_lt_trans a b c : np_lt a b = true → np_lt b c = true → np_lt a c = true.
Proof. rewrite !np_lt_rank. apply lex3_lt_trans. Qed.

(** ** The positions [argpartition] puts in place *)

(** [min_position] returns a position of the range scanned whose value no
    value of the range is below. *)
Lemma min_position_spec (v : vector) (tosort : list nat) i :
  ∀ rest k minidx,
    drop k tosort = rest → i ≤ minidx < k → k ≤ length tosort →
    (∀ b, i ≤ b < k →
       np_lt (v !!! (tosort !!! b)) (v !!! (tosort !!! minidx)) = false) →
    let m := min_position v rest k minidx (v !!! (tosort !!! minidx)) in
    i ≤ m < length tosort ∧
    ∀ b, i ≤ b < length tosort →
      np_lt (v !!! (tosort !!! b)) (v !!! (tosort !!! m)) = false.
Proof.
  induction rest as [|t rest IH]; intros k minidx Hdrop Hmin Hk Hinv; cbn.
  - assert (length tosort ≤ k) as Hge.
    { apply (f_equal length) in Hdrop. rewrite length_drop in Hdrop.
      cbn in Hdrop. lia. }
    split; [lia|]. intros b Hb. apply Hinv. lia.
  - assert (tosort !! k = Some t) as Ht.
    { rewrite <- (Nat.add_0_r k), <- lookup_drop, Hdrop. done. }
    assert (tosort !!! k = t) as Htt by (by apply list_lookup_total_correct).
    pose proof (lookup_lt_Some _ _ _ Ht) as Hlt.
    assert (drop (S k) tosort = rest) as Hdrop'.
    { rewrite (drop_S _ _ _ Ht) in Hdrop. by injection Hdrop. }
    destruct (np_lt (v !!! t) (v !!! (tosort !!! minidx))) eqn:E.
    + rewrite <- Htt. apply IH; [done|lia|lia|].
      intros b Hb. destruct (decide (b = k)) as [->|Hne].
      * apply np_lt_irrefl.
      * destruct (np_lt (v !!! (tosort !!! b)) (v !!! (tosort !!! k))) eqn:E';
          [|done].
        rewrite Htt in E'. pose proof (np_lt_trans _ _ _ E' E) as F.
        rewrite Hinv in F by lia. done.
    + apply IH; [done|lia|lia|].
      intros b Hb. destruct (decide (b = k)) as [->|Hne].
      * by rewrite Htt.
      * apply Hinv. lia.
Qed.

Lemma swap_lookup_total l i j p :
  i < length l → j < length l → p < length l →
  swap l i j !!! p =
    l !!! (if decide (p = i) then j else if decide (p = j) then i else p).
Proof.
  intros Hi Hj Hp. apply list_lookup_total_correct.
  rewrite swap_lookup by done. apply list_lookup_lookup_total_lt.
  repeat case_decide; lia.
Qed.

Lemma select_round_sorted v tosort i :
  i < length tosort → sel_sorted v i tosort →
  sel_sorted v (S i) (select_round v tosort i).
Proof.
  intros Hi Hsorted. unfold select_round.
  destruct (min_position_spec v tosort i (drop (S i) tosort) (S i) i)
    as [Hm Hmin]; [done|lia|lia| |].
  { intros b Hb. assert (b = i) as -> by lia. apply np_lt_irrefl. }
  set (m := min_position _ _ _ _ _) in *.
  intros a b Ha Hb. rewrite swap_length in Hb.
  rewrite !swap_lookup_total by lia.
  repeat case_decide; subst; try lia;
    first [apply Hmin; lia | apply Hsorted; lia].
Qed.

Lemma argpartition_sorted v k p :
  argpartition v k = Ok p → sel_sorted v k p.
Proof.
  unfold argpartition. case_decide as Hk0; [done|].
  case_decide as Hk; [|done]. intros [= <-]. clear Hk0.
  induction k as [|k IH].
  - intros a b Ha. lia.
  - rewrite seq_S, foldl_app. cbn [foldl Nat.add].
    destruct (select_rounds_index_array v k) as (Hlen & _ & _); [lia|].
    apply select_round_sorted; [lia|]. apply IH. lia.
Qed.

(** Every index of [v] is in an index array. *)
Lemma index_array_elem_of n p j : index_array n p → j < n → j ∈ p.
Proof.
  intros (Hlen & Hnd & Hbound) Hj.
  assert (p ≡ₚ seq 0 n) as Hperm.
  { apply submseteq_length_Permutation; [|by rewrite length_seq, Hlen].
    apply NoDup_submseteq; [done|]. intros t Ht. apply elem_of_seq.
    pose proof (proj1 (Forall_forall _ _) Hbound t Ht) as Hlt. cbn in Hlt. lia. }
  rewrite Hperm. apply elem_of_seq. lia.
Qed.

(** The first [k] indices [argpartition] returns are those of [k] smallest
    values of [v], in increasing order of the values. *)
Lemma argpartition_smallest v k p :
  argpartition v k = Ok p →
  (∀ a b na nb, a < b → take k p !! a = Some na → take k p !! b = Some nb →
     np_lt (v !!! nb) (v !!! na) = false) ∧
  (∀ n j, n ∈ take k p → j < length v → j ∉ take k p →
     np_lt (v !!! j) (v !!! n) = false).
Proof.
  intros Hp. pose proof (argpartition_sorted _ _ _ Hp) as Hsorted.
  pose proof (argpartition_index_array _ _ _ Hp) as Hidx.
  pose proof Hidx as (Hlen & _ & _).
  split.
  - intros a b na nb Hab Ha Hb.
    apply lookup_take_Some in Ha as [Ha Hak]. apply lookup_take_Some in Hb as [Hb Hbk].
    pose proof (lookup_lt_Some _ _ _ Hb) as Hblt.
    rewrite <- (list_lookup_total_correct _ _ _ Ha).
    rewrite <- (list_lookup_total_correct _ _ _ Hb).
    apply Hsorted; lia.
  - intros n j Hn Hj Hnot.
    apply list_elem_of_lookup in Hn as [a Ha].
    apply lookup_take_Some in Ha as [Ha Hak].
    pose proof (index_array_elem_of _ _ j Hidx Hj) as Hin.
    apply list_elem_of_lookup in Hin as [b Hb].
    pose proof (lookup_lt_Some _ _ _ Hb) as Hblt.
    assert (k ≤ b) as Hkb.
    { destruct (decide (k ≤ b)) as [|Hlt]; [done|]. exfalso. apply Hnot.
      apply list_elem_of_lookup. exists b. apply lookup_take_Some. split; [done|lia]. }
    rewrite <- (list_lookup_total_correct _ _ _ Ha).
    rewrite <- (list_lookup_total_correct _ _ _ Hb).
    apply Hsorted; lia.
Qed.

(** On a symmetric square array, column [i] and row [i] hold the same
    values, and [find_neighbors] returns for every row the indices of its
    [k] smallest entries, smallest first, with these entries. *)
Lemma find_neighbors_symmetric (D : matrix) (k : Z) :
  square D → symmetric D → (1 ≤ k ≤ Z.of_nat (length D))%Z →
  ∃ N DN, find_neighbors D k = Ok (N, DN) ∧
    length N = length D ∧ length DN = length D ∧
    ∀ i Ni DNi Di, N !! i = Some Ni → DN !! i = Some DNi → D !! i = Some Di →
      length Ni = Z.to_nat k ∧ NoDup Ni ∧ Forall (λ n, n < length D) Ni ∧
      DNi = map (λ n, Di !!! n) Ni ∧
      (∀ a b na nb, a < b → Ni !! a = Some na → Ni !! b = Some nb →
         np_lt (Di !!! nb) (Di !!! na) = false) ∧
      (∀ n j, n ∈ Ni → j < length D → j ∉ Ni →
         np_lt (Di !!! j) (Di !!! n) = false).
Proof.
  intros Hsq Hsym Hk.
  destruct (find_neighbors_square D k Hsq) as (N & DN & HN & HlenN & HlenDN & Hrows);
    [lia|right; lia|].
  exists N, DN. split_and!; try done.
  intros i Ni DNi Di HNi HDNi HDi.
  pose proof (lookup_lt_Some _ _ _ HDi) as Hi.
  destruct (Hrows i Hi) as (p & Hp & HNi' & HDNi').
  rewrite HNi in HNi'. injection HNi' as ->.
  rewrite HDNi in HDNi'. injection HDNi' as ->.
  rewrite (list_lookup_total_correct _ _ _ HDi).
  assert (map (λ row, row !!! i) D = Di) as Hcol.
  { assert (length Di = length D) as HlenDi by (eapply rect_lookup; eauto).
    apply list_eq. intros j. rewrite list_lookup_fmap.
    destruct (D !! j) as [Dj|] eqn:HDj; cbn.
    - pose proof (lookup_lt_Some _ _ _ HDj) as Hj.
      assert (length Dj = length D) as HlenDj by (eapply rect_lookup; eauto).
      specialize (Hsym j i). unfold item in Hsym. rewrite HDj, HDi in Hsym.
      cbn in Hsym. rewrite <- Hsym. symmetry.
      apply list_lookup_lookup_total_lt. lia.
    - symmetry. apply lookup_ge_None_2. apply lookup_ge_None_1 in HDj. lia. }
  rewrite Hcol in Hp.
  pose proof (argpartition_index_array _ _ _ Hp) as (Hlen & Hnd & Hbound).
  pose proof (argpartition_smallest _ _ _ Hp) as [Hsorted Hsmall].
  assert (length Di = length D) as HlenDi by (eapply rect_lookup; eauto).
  rewrite HlenDi in *.
  split_and!; try done.
  - rewrite length_take. lia.
  - apply (sublist_NoDup _ p); [done|apply sublist_take].
  - by apply Forall_take.
Qed.

Lemma take_columns_shape (X : matrix) (taus : list Z) X' :
  take_columns X taus = Ok X' → length X' = length X ∧ rect (length taus) X'.
Proof.
  unfold take_columns. intros H. split; [by apply mapR_length in H|].
  apply mapR_Ok in H. apply Forall_forall. intros row' Hrow'.
  apply list_elem_of_lookup in Hrow' as [i Hi].
  destruct (Forall2_lookup_r _ _ _ _ _ H Hi) as (row & _ & Hrow).
  by apply mapR_length in Hrow.
Qed.

Lemma sqdist_diag_not_finite (a : vector) :
  ¬ Forall (λ x, F64.is_finite x = true) a → sqdist a a = F64.nan.
Proof.
  intros H. apply not_Forall_Exists in H; [|apply _].
  apply Exists_exists in H as (x & Hx & Hnf). cbn in Hnf.
  apply np_sum_nan. apply list_elem_of_lookup in Hx as [i Hi].
  apply list_elem_of_lookup. exists i.
  rewrite lookup_zip_with, Hi. cbn.
  by destruct x as [[]|[]| |].
Qed.

(** * The claims *)

(** C1 (the code departs from the claim).  [find_neighbors] takes the
    neighbours of row [i] from column [i] of [D] ([D[:, i]]) and reads their
    distances from row [i] ([D[i, N[i,:]]]).  On the square array
    [[1, 5], [0, 1]] and one neighbour, row 0 gets neighbour 1 at distance
    5, although the smallest entry of row 0 is the 1 in column 0.  On a
    symmetric array the two agree ([find_neighbors_symmetric]). *)
Theorem C1_find_neighbors_selects_along_columns :
  find_neighbors D_asym 1 = Ok ([[1]; [1]], of_Zs [[5]; [1]]%Z) ∧
  item D_asym 0 0 = Some (F64.of_Z 1) ∧
  item D_asym 0 1 = Some (F64.of_Z 5) ∧
  F64.ltb (F64.of_Z 1) (F64.of_Z 5) = true.
Proof. vm_compute. done. Qed.

(** C2.  Masking with offset 0 sets the diagonal entries to [val] and keeps
    every other entry; masking with an offset [o > 0] sets the entries
    [D[i, i+o]] and [D[i, i-o]] and keeps every other entry; and the whole
    loop up to [neighbor_offset_min] sets the entries with
    [|i - j| < neighbor_offset_min] and keeps every other entry.  A single
    [assign_diagonal] sets the entries [D[i, i+o]] only. *)
Theorem C2_mask_diagonal_band c (D : matrix) (o m : Z) val i j :
  rect c D → i < length D → j < c →
  item (assign_diagonal D o val) i j =
    (if decide (Z.of_nat j = Z.of_nat i + o)%Z then Some val else item D i j) ∧
  item (mask_offset val D 0) i j =
    (if decide (j = i) then Some val else item D i j) ∧
  ((0 < o)%Z →
   item (mask_offset val D o) i j =
     if decide (Z.of_nat j = Z.of_nat i + o ∨ Z.of_nat j = Z.of_nat i - o)%Z
     then Some val else item D i j) ∧
  item (mask_band val D m) i j =
    (if decide (Z.abs (Z.of_nat i - Z.of_nat j) < m)%Z then Some val
     else item D i j).
Proof.
  intros Hrect Hi Hj. split_and!.
  - by apply (assign_diagonal_item c).
  - rewrite (mask_offset_item c) by (done || lia).
    repeat case_decide; try done; lia.
  - intros Ho. rewrite (mask_offset_item c) by (done || lia).
    repeat case_decide; try done; lia.
  - by apply (mask_band_item c).
Qed.

Lemma C2_mask_diagonal_band_witness :
  rect 3 D3 ∧
  item (mask_offset F64.inf D3 1) 0 1 = Some F64.inf ∧
  item (mask_offset F64.inf D3 1) 0 2 = item D3 0 2.
Proof.
  assert (rect 3 D3) as H by (repeat constructor).
  split; [exact H|].
  split.
  - exact (proj1 (proj2 (proj2 (C2_mask_diagonal_band 3 D3 1 0 F64.inf 0 1
             H ltac:(cbn; lia) ltac:(lia)))) ltac:(lia)).
  - exact (proj1 (proj2 (proj2 (C2_mask_diagonal_band 3 D3 1 0 F64.inf 0 2
             H ltac:(cbn; lia) ltac:(lia)))) ltac:(lia)).
Defined.

(** C3 (amended).  In a turn of the loop of [nichkawde_embedding], the
    exception "could not calculate max derivative" is raised if and only if
    no candidate lag has a score above [0.0]; a candidate with no derivative
    left has the score [nan] and never counts, a score of [inf] does count.
    Otherwise the lag appended is the first candidate with the largest
    score.  No other exception is raised in the turn, and the exception is
    the outcome of the whole loop and of [nichkawde_embedding]: no lags and
    no matrix are returned. *)
Theorem C3_embedding_failure (log_fin exp_fin : F64.float → F64.float)
    (x : vector) (E_max neighbor_offset_min : Z) (preserve_indices : bool)
    (X_full : matrix) (taus : list Z) :
  make_full_embedding x E_max 1 preserve_indices = Ok X_full →
  greedy_reaches log_fin exp_fin X_full E_max neighbor_offset_min [0%Z] taus →
  (last_lag taus < E_max - 1)%Z →
  ∃ N0 DN0 (deriv : Z → vector) (score : Z → F64.float),
    nearest X_full neighbor_offset_min taus = Ok (N0, DN0) ∧
    (∀ c, (last_lag taus < c < E_max)%Z →
       derivs X_full N0 DN0 c = Ok (deriv c) ∧
       geo_mean_deriv log_fin exp_fin X_full N0 DN0 c = Ok (score c) ∧
       (deriv c = [] → score c = F64.nan)) ∧
    (next_lag log_fin exp_fin X_full E_max neighbor_offset_min taus
       = Raise EmbeddingFailure ↔
     ∀ c, (last_lag taus < c < E_max)%Z → F64.ltb F64.zero (score c) = false) ∧
    (∀ e, next_lag log_fin exp_fin X_full E_max neighbor_offset_min taus
            = Raise e → e = EmbeddingFailure) ∧
    (∀ tau, next_lag log_fin exp_fin X_full E_max neighbor_offset_min taus
              = Ok tau →
       (last_lag taus < tau < E_max)%Z ∧
       F64.ltb F64.zero (score tau) = true ∧
       (∀ c, (last_lag taus < c < E_max)%Z →
             F64.ltb (score tau) (score c) = false) ∧
       (∀ c, (last_lag taus < c < tau)%Z →
             F64.ltb (score c) (score tau) = true ∨ F64.isnan (score c) = true)) ∧
    (∀ out,
       nichkawde_run log_fin exp_fin x E_max neighbor_offset_min
         preserve_indices out →
       next_lag log_fin exp_fin X_full E_max neighbor_offset_min taus
         = Raise EmbeddingFailure →
       out = Raise EmbeddingFailure).
Proof.
  intros HX Hreach Hc.
  pose proof (make_full_embedding_shape _ _ _ _ HX) as (HE & Hrect & _).
  pose proof (lags_inv_bounds _ _
                (greedy_reaches_inv _ _ _ _ _ _ _ Hreach (lags_inv_init _ HE)))
    as Htaus.
  destruct (nearest_rect (Z.to_nat E_max) X_full neighbor_offset_min taus Hrect)
    as (N0 & DN0 & Hn & _ & _ & HN0).
  { eapply Forall_impl; [exact Htaus|]. cbn. intros t. lia. }
  set (deriv := λ c, match derivs X_full N0 DN0 c with
                     | Ok d => d | Raise _ => [] end).
  set (score := λ c, np_exp exp_fin (np_mean (map (np_log log_fin) (deriv c)))).
  assert (∀ c, (last_lag taus < c < E_max)%Z →
            derivs X_full N0 DN0 c = Ok (deriv c) ∧
            geo_mean_deriv log_fin exp_fin X_full N0 DN0 c = Ok (score c))
    as Hcand.
  { intros c Hrange.
    destruct (derivs_rect (Z.to_nat E_max) X_full N0 DN0 c Hrect) as [d Hd];
      [lia|done|].
    assert (deriv c = d) as Hdc by (unfold deriv; by rewrite Hd).
    split; [congruence|]. apply geo_mean_deriv_Ok. exists d.
    split; [done|]. unfold score. by rewrite Hdc. }
  assert (Forall (λ c, geo_mean_deriv log_fin exp_fin X_full N0 DN0 c
                       = Ok (score c)) (range (last_lag taus + 1) E_max))
    as Hall.
  { apply Forall_forall. intros c Hin%elem_of_range. apply Hcand. lia. }
  pose proof (next_lag_scored log_fin exp_fin X_full E_max neighbor_offset_min
                taus N0 DN0 score Hn Hall) as Hnext.
  assert (∀ tau, next_lag log_fin exp_fin X_full E_max neighbor_offset_min taus
                   = Ok tau →
            (last_lag taus < tau < E_max)%Z ∧
            F64.ltb F64.zero (score tau) = true ∧
            (∀ c, (last_lag taus < c < tau)%Z →
               F64.ltb (score c) (score tau) = true ∨ F64.isnan (score c) = true) ∧
            (∀ c, (tau < c < E_max)%Z → F64.ltb (score tau) (score c) = false))
    as Hok.
  { intros tau Htau.
    apply next_lag_Ok in Htau
      as (N0' & DN0' & g & Hn' & Hg & Hrange & Hpos & Hpre & Hpost).
    rewrite Hn in Hn'. injection Hn' as <- <-.
    assert (∀ c, (last_lag taus < c < E_max)%Z → g c = score c) as Hgs.
    { intros c Hrc. specialize (Hg c Hrc). destruct (Hcand c Hrc) as [_ Hs].
      congruence. }
    split; [done|]. rewrite <- (Hgs tau) by done. split; [done|]. split.
    - intros c Hrc. rewrite <- (Hgs c) by lia. apply Hpre. lia.
    - intros c Hrc. rewrite <- (Hgs c) by lia. apply Hpost. lia. }
  exists N0, DN0, deriv, score. split_and!.
  - done.
  - intros c Hrange. destruct (Hcand c Hrange) as [Hd Hs].
    split_and!; [done..|]. intros Hnil. unfold score. by rewrite Hnil.
  - destruct (best_pure_spec score (range (last_lag taus + 1) E_max) F64.zero None)
      as [[Hr Hnone]|(pre & tau & post & Hsplit & Hr & Hpos & _)];
      cbn zeta in Hr; rewrite Hr in Hnext; cbn in Hnext.
    + split; [|done]. intros _ c Hrc.
      apply (proj1 (Forall_forall _ _) Hnone). apply elem_of_range. lia.
    + split; [congruence|]. intros Hno. exfalso.
      destruct (range_split _ _ _ _ _ tau Hsplit) as (_ & _ & Hrt).
      rewrite Hno in Hpos by lia. done.
  - intros e He. rewrite Hnext in He.
    destruct (best_pure _ _ _ _).2; [done|congruence].
  - intros tau Htau. destruct (Hok tau Htau) as (Hrange & Hpos & Hpre & Hpost).
    split; [done|]. split; [done|]. split; [|done].
    intros c Hrc.
    destruct (Z.lt_trichotomy c tau) as [Hlt|[->|Hgt]].
    + destruct (Hpre c) as [Hlt'|Hnan]; [lia|by apply ltb_asym|].
      destruct (F64.ltb (score tau) (score c)) eqn:E; [|done].
      apply ltb_isnan in E as [_ E]. congruence.
    + apply ltb_irrefl.
    + apply Hpost. lia.
  - intros out Hout Hraise.
    destruct Hout as [e He|X_full' n r HX' Hrun]; [congruence|].
    assert (X_full' = X_full) as -> by congruence.
    assert (r = Raise EmbeddingFailure) as ->; [|done].
    eapply greedy_run_raise; [exact Hrun|exact Hreach| |exact Hraise].
    apply Z.ltb_lt. lia.
Qed.

Lemma C3_embedding_failure_witness :
  make_full_embedding x16 3 1 true = Ok X16_full ∧
  ∃ N0 DN0, nearest X16_full 1 [0%Z] = Ok (N0, DN0) ∧
    ∀ e, next_lag coarse_log coarse_exp X16_full 3 1 [0%Z] = Raise e →
         e = EmbeddingFailure.
Proof.
  assert (make_full_embedding x16 3 1 true = Ok X16_full) as H
    by (vm_compute; reflexivity).
  split; [exact H|].
  destruct (C3_embedding_failure coarse_log coarse_exp x16 3 1 true X16_full
              [0%Z] H) as (N0 & DN0 & _ & _ & Hn & _ & _ & He & _).
  - apply reach_here.
  - cbn. lia.
  - exists N0, DN0. split; [exact Hn|exact He].
Defined.

(** C3 as stated fails: on the finite series [2^-100, 2^-100, 2^1000, 0]
    with [E_max = 2] and [neighbor_offset_min = 2], the only candidate lag
    has the single derivative [inf] (a quotient that overflows) and so the
    score [inf], which is not finite; the turn appends the lag instead of
    raising. *)
Lemma C3_infinite_score_counterexample :
  make_full_embedding x_overflow 2 1 true = Ok X_overflow ∧
  range (last_lag [0%Z] + 1) 2 = [1%Z] ∧
  ∃ N0 DN0, nearest X_overflow 2 [0%Z] = Ok (N0, DN0) ∧
    derivs X_overflow N0 DN0 1 = Ok [F64.inf] ∧
    F64.is_finite F64.inf = false ∧
    ∀ log_fin exp_fin,
      geo_mean_deriv log_fin exp_fin X_overflow N0 DN0 1 = Ok F64.inf ∧
      next_lag log_fin exp_fin X_overflow 2 2 [0%Z] = Ok 1%Z ∧
      nichkawde_embedding log_fin exp_fin 1 x_overflow 2 2 true
        = Some (Ok ([0; 1]%Z, X_overflow)).
Proof.
  split; [vm_compute; reflexivity|]. split; [reflexivity|].
  eexists _, _. split; [vm_compute; reflexivity|].
  split; [vm_compute; reflexivity|]. split; [reflexivity|].
  intros log_fin exp_fin. split_and!; vm_compute; reflexivity.
Qed.

(** C4 (the code departs from the claim).  For a lag [tau] with
    [N < tau <= 2N - 2], the slice [x[:(N - tau)]] has a negative bound and
    is not empty, and its assignment to the empty [X[tau:, i]] raises
    [ValueError]: for the series [1, 2, 3] and the lag 4 no matrix is
    returned, and neither is the full embedding of the series for
    [E = 5]. *)
Theorem C4_lag_beyond_series_raises :
  make_partial_embedding x123 [4%Z] true = Raise ValueError ∧
  make_partial_embedding x123 [4%Z] false = Raise ValueError ∧
  make_full_embedding x123 5 1 true = Raise ValueError ∧
  slice_to x123 (3 - 4) = map F64.of_Z [1; 2]%Z.
Proof. vm_compute. done. Qed.

(** C5.  In a turn of the loop, for the projection [X = X_full[:, taus]]
    and [D1 = euclidean_distance(X, X)], the array handed to
    [find_neighbors] holds [nan] at every [(i, k)] with
    [|i - k| < neighbor_offset_min], [inf] at every other entry where [D1]
    is zero, and the entry of [D1] everywhere else: the zeros are replaced
    first and the band is masked afterwards, so a zero within the band ends
    as [nan]. *)
Theorem C5_masked_distance (X_full : matrix) (taus : list Z) (X : matrix)
    (neighbor_offset_min : Z) :
  take_columns X_full taus = Ok X →
  ∃ D1 D, euclidean_distance X X = Ok D1 ∧
    masked_distance X neighbor_offset_min = Ok D ∧
    D = mask_band F64.nan (zeros_to_inf D1) neighbor_offset_min ∧
    length D1 = length X ∧ square D1 ∧
    length D = length X ∧ square D ∧
    (∀ i k, i < length X → k < length X →
       ∃ d, item D1 i k = Some d ∧
         item D i k =
           Some (if decide (Z.abs (Z.of_nat i - Z.of_nat k)
                            < neighbor_offset_min)%Z
                 then F64.nan
                 else if F64.eqb d F64.zero then F64.inf
                 else d)) ∧
    nearest X_full neighbor_offset_min taus =
      (ndn ← find_neighbors D 1;
       N0 ← column ndn.1 0; DN0 ← column ndn.2 0; Ok (N0, DN0)).
Proof.
  intros HX. pose proof (take_columns_shape _ _ _ HX) as [Hlen Hrect].
  destruct (masked_distance_rect _ X neighbor_offset_min Hrect)
    as (D & HD & HlenD & Hsq & Hitem).
  pose proof HD as HD'. unfold masked_distance in HD'.
  destruct (squared_euclidean_distance X X) as [D2|e] eqn:HD2; [|done].
  rewrite bind_ret_l in HD'. injection HD' as HD'.
  pose proof HD2 as HD2'.
  rewrite (squared_euclidean_distance_rect _ _ _ Hrect Hrect) in HD2'.
  injection HD2' as HD2'.
  assert (∀ i k, i < length X → k < length X →
            item (np_sqrt D2) i k = Some (dist X i k)) as Hitem1.
  { intros i k Hi Hk. unfold np_sqrt. rewrite item_map, <- HD2', item_map2.
    by rewrite !list_lookup_lookup_total_lt by done. }
  exists (np_sqrt D2), D. split_and!; try done.
  - unfold euclidean_distance. by rewrite HD2.
  - unfold np_sqrt. by rewrite <- HD2', !length_map.
  - unfold square, np_sqrt. rewrite <- HD2', !length_map.
    apply map_map_rect, Forall_fmap, Forall_forall. intros a _. cbn.
    by rewrite length_map.
  - intros i k Hi Hk. exists (dist X i k). split; [by apply Hitem1|].
    by apply Hitem.
  - unfold nearest. rewrite HX, bind_ret_l, HD, bind_ret_l. done.
Qed.

Lemma C5_masked_distance_witness :
  take_columns X16_full [0%Z] = Ok (of_Zs [[1]; [2]; [3]; [4]; [5]; [6]]%Z) ∧
  ∃ D, masked_distance (of_Zs [[1]; [2]; [3]; [4]; [5]; [6]]%Z) 2 = Ok D ∧
       item D 0 1 = Some F64.nan ∧ item D 0 2 = Some (F64.of_Z 2).
Proof.
  assert (take_columns X16_full [0%Z] = Ok (of_Zs [[1]; [2]; [3]; [4]; [5]; [6]]%Z))
    as H by (vm_compute; reflexivity).
  split; [exact H|].
  destruct (C5_masked_distance X16_full [0%Z] _ 2 H)
    as (D1 & D & HD1 & HD & _ & _ & _ & _ & _ & Hitem & _).
  exists D. split; [exact HD|].
  vm_compute in HD1. injection HD1 as <-. split.
  - destruct (Hitem 0 1) as (d & _ & ->); [cbn; lia..|]. reflexivity.
  - destruct (Hitem 0 2) as (d & Hd & ->); [cbn; lia..|].
    injection Hd as <-. vm_compute. reflexivity.
Defined.

(** C6.  [nichkawde_embedding] ends, with a value or an exception, within
    [E_max - 1] turns of its loop; every turn that appends a lag appends
    one greater than the last lag and at most [E_max - 1]; and the lags a
    run returns are one more than its turns, increasing and at most
    [E_max - 1]. *)
Theorem C6_greedy_loop_terminates (log_fin exp_fin : F64.float → F64.float)
    (x : vector) (E_max neighbor_offset_min : Z) (preserve_indices : bool) :
  (∃ out,
     nichkawde_run log_fin exp_fin x E_max neighbor_offset_min
       preserve_indices out ∧
     ∀ fuel, (E_max - 1 ≤ Z.of_nat fuel)%Z →
       nichkawde_embedding log_fin exp_fin fuel x E_max neighbor_offset_min
         preserve_indices = Some out) ∧
  ∀ X_full, make_full_embedding x E_max 1 preserve_indices = Ok X_full →
    (0 < E_max)%Z ∧
    (∀ taus tau,
       next_lag log_fin exp_fin X_full E_max neighbor_offset_min taus = Ok tau →
       (last_lag taus < tau ≤ E_max - 1)%Z) ∧
    (∀ n r,
       greedy_run log_fin exp_fin X_full E_max neighbor_offset_min [0%Z] n r →
       (Z.of_nat n ≤ E_max - 1)%Z ∧
       ∀ taus, r = Ok taus →
         length taus = S n ∧ StronglySorted Z.lt taus ∧
         Forall (λ t, 0 ≤ t ≤ E_max - 1)%Z taus).
Proof.
  split.
  - destruct (nichkawde_embedding_enough log_fin exp_fin x E_max
                neighbor_offset_min preserve_indices (Z.to_nat (E_max - 1)))
      as [out Hout]; [lia|].
    exists out. split; [by eapply nichkawde_embedding_run|].
    intros fuel Hfuel.
    destruct (nichkawde_embedding_enough log_fin exp_fin x E_max
                neighbor_offset_min preserve_indices fuel Hfuel) as [out' Hout'].
    rewrite Hout'. f_equal.
    eapply nichkawde_run_det; by eapply nichkawde_embedding_run.
  - intros X_full HX.
    apply make_full_embedding_shape in HX as (HE & _ & _).
    split_and!; [done| |].
    + intros taus tau Htau%next_lag_bound. lia.
    + intros n r Hrun. split.
      * apply greedy_run_turns in Hrun. cbn in Hrun. lia.
      * intros taus ->.
        destruct (greedy_run_inv _ _ _ _ _ _ _ _ Hrun (lags_inv_init _ HE))
          as [Hinv Hlen].
        split_and!; [cbn in Hlen; lia|apply Hinv|by eapply lags_inv_bounds].
Qed.

(** C7.  When [nichkawde_embedding] returns, the lags returned start with
    0, increase strictly and are at most [E_max - 1], and the matrix
    returned is [X_full[:, taus]]: row for row, the entries of the full
    candidate matrix in the columns of the lags, in the order of the lags. *)
Theorem C7_returned_embedding (log_fin exp_fin : F64.float → F64.float)
    (x : vector) (E_max neighbor_offset_min : Z) (preserve_indices : bool)
    (taus : list Z) (M : matrix) :
  nichkawde_run log_fin exp_fin x E_max neighbor_offset_min preserve_indices
    (Ok (taus, M)) →
  ∃ X_full rest,
    make_full_embedding x E_max 1 preserve_indices = Ok X_full ∧
    taus = 0%Z :: rest ∧
    StronglySorted Z.lt taus ∧
    Forall (λ t, 0 ≤ t ≤ E_max - 1)%Z taus ∧
    rect (Z.to_nat E_max) X_full ∧
    take_columns X_full taus = Ok M ∧
    M = map (λ row, map (λ t, row !!! Z.to_nat t) taus) X_full.
Proof.
  inversion 1 as [e He Hout|X_full n r HX Hrun Hout].
  unfold embedding_of in Hout.
  destruct r as [taus'|e]; [|done]. rewrite bind_ret_l in Hout.
  destruct (take_columns X_full taus') as [M'|e] eqn:HM; [|done].
  injection Hout as -> ->.
  pose proof (make_full_embedding_shape _ _ _ _ HX) as (HE & Hrect & _).
  destruct (greedy_run_inv _ _ _ _ _ _ _ _ Hrun (lags_inv_init _ HE))
    as [Hinv _].
  pose proof (lags_inv_bounds _ _ Hinv) as Hb.
  destruct Hinv as ([rest ->] & Hsort & _ & _).
  exists X_full, rest. split_and!; try done.
  rewrite (take_columns_rect (Z.to_nat E_max)) in HM; [congruence|done|].
  eapply Forall_impl; [exact Hb|]. cbn. intros t. lia.
Qed.

Lemma C7_returned_embedding_witness :
  nichkawde_run coarse_log coarse_exp x16 3 1 true
    (Ok ([0; 1; 2]%Z, X16_full)) ∧
  take_columns X16_full [0; 1; 2]%Z = Ok X16_full.
Proof.
  assert (nichkawde_run coarse_log coarse_exp x16 3 1 true
            (Ok ([0; 1; 2]%Z, X16_full))) as H.
  { apply (nichkawde_embedding_run _ _ _ _ _ _ 2). vm_compute. reflexivity. }
  split; [exact H|].
  destruct (C7_returned_embedding _ _ _ _ _ _ _ _ H)
    as (X_full & rest & HX & _ & _ & _ & _ & HM & _).
  assert (X_full = X16_full) as ->
    by (vm_compute in HX; injection HX as <-; reflexivity).
  exact HM.
Defined.

(** C8 (amended).  For arrays [A] and [B] with [c] columns,
    [squared_euclidean_distance(A, B)[i, k]] is the sum over the columns of
    the squares [(A[i,c] - B[k,c])**2], rounded at every addition and added
    as numpy adds a row: for up to 8192 columns, zero plus the
    [pairwise_sum] of the squares; that is, for fewer than 8 columns, from
    left to right starting from zero, and for 8 to 15 columns the first
    eight as [((s0 + s1) + (s2 + s3)) + ((s4 + s5) + (s6 + s7))] and the
    others added to that one by one.  [squared_euclidean_distance(A, A)] is
    symmetric, and its diagonal entry [(i, i)] is zero when every entry of
    row [i] is finite and [nan] when row [i] holds a [nan] or an
    infinity. *)
Theorem C8_squared_distance c (A B : matrix) :
  rect c A → rect c B →
  (∃ D, squared_euclidean_distance A B = Ok D ∧
     length D = length A ∧ rect (length B) D ∧
     ∀ i k a b, A !! i = Some a → B !! k = Some b →
       (c ≤ bufsize →
        item D i k =
          Some (F64.add F64.zero (pairwise_sum (sq_diffs a b)))) ∧
       (c < 8 →
        item D i k =
          Some (F64.add F64.zero (foldl F64.add F64.zero (sq_diffs a b)))) ∧
       (8 ≤ c < 16 →
        item D i k =
          Some (F64.add F64.zero
                  (foldl F64.add
                     (F64.add
                        (F64.add
                           (F64.add (sq_diffs a b !!! 0) (sq_diffs a b !!! 1))
                           (F64.add (sq_diffs a b !!! 2) (sq_diffs a b !!! 3)))
                        (F64.add
                           (F64.add (sq_diffs a b !!! 4) (sq_diffs a b !!! 5))
                           (F64.add (sq_diffs a b !!! 6) (sq_diffs a b !!! 7))))
                     (drop 8 (sq_diffs a b)))))) ∧
  (∃ D, squared_euclidean_distance A A = Ok D ∧
     (∀ i k, item D i k = item D k i) ∧
     (∀ i a, A !! i = Some a →
        item D i i =
          Some (if decide (Forall (λ x, F64.is_finite x = true) a)
                then F64.zero else F64.nan))).
Proof.
  intros HA HB. split.
  - eexists. split; [by apply (squared_euclidean_distance_rect c)|].
    rewrite length_map. split_and!; [done| |].
    + apply Forall_fmap, Forall_forall. intros a _. cbn. by rewrite length_map.
    + intros i k a b Ha Hb.
      assert (length (sq_diffs a b) = c) as Hlen.
      { unfold sq_diffs. rewrite length_zip_with.
        rewrite (rect_lookup _ _ _ _ HA Ha), (rect_lookup _ _ _ _ HB Hb). lia. }
      rewrite item_map2, Ha, Hb. cbn. change (sqdist a b) with (np_sum (sq_diffs a b)).
      split_and!.
      * intros Hc. destruct (decide (c = 0)) as [Hc0|Hc0].
        { rewrite Hc0 in Hlen. by apply nil_length_inv in Hlen as ->. }
        by rewrite np_sum_one_chunk by (unfold bufsize; lia).
      * intros Hc. by rewrite np_sum_small by lia.
      * intros Hc. by rewrite np_sum_one_row by lia.
  - eexists. split; [by apply (squared_euclidean_distance_rect c)|]. split.
    + intros i k. rewrite !item_map2.
      destruct (A !! i) as [a|], (A !! k) as [b|]; cbn; try done.
      by rewrite sqdist_sym.
    + intros i a Ha. rewrite item_map2, Ha. cbn. f_equal.
      case_decide; [by apply sqdist_diag|by apply sqdist_diag_not_finite].
Qed.

Lemma C8_squared_distance_witness :
  rect 8 [row8; replicate 8 F64.zero] ∧
  ∃ D, squared_euclidean_distance [row8; replicate 8 F64.zero]
         [row8; replicate 8 F64.zero] = Ok D ∧
       item D 0 1 = Some (F64.of_Z (2 ^ 54 + 4)) ∧
       Some (F64.add F64.zero
               (pairwise_sum (sq_diffs row8 (replicate 8 F64.zero))))
         = Some (F64.of_Z (2 ^ 54 + 4)) ∧
       foldl F64.add F64.zero (sq_diffs row8 (replicate 8 F64.zero))
         = F64.of_Z (2 ^ 54) ∧
       item D 1 1 = Some F64.zero.
Proof.
  assert (rect 8 [row8; replicate 8 F64.zero]) as H by (repeat constructor).
  split; [exact H|].
  destruct (C8_squared_distance 8 _ _ H H) as [(D & HD & _ & _ & Hitem) _].
  exists D. split; [exact HD|]. split_and!.
  - destruct (Hitem 0 1 row8 (replicate 8 F64.zero) eq_refl eq_refl)
      as (_ & _ & Hrow).
    rewrite Hrow by lia. vm_compute. reflexivity.
  - vm_compute. reflexivity.
  - vm_compute. reflexivity.
  - destruct (Hitem 1 1 (replicate 8 F64.zero) (replicate 8 F64.zero)
                eq_refl eq_refl) as (_ & _ & Hrow).
    rewrite Hrow by lia. vm_compute. reflexivity.
Defined.

(** C8 as stated fails: the first row of the doctests' embedding holds
    [nan], and the diagonal entry of its squared distances is [nan], not 0. *)
Lemma C8_zero_diagonal_counterexample :
  (X ← make_full_embedding x16 3 1 true;
   D ← squared_euclidean_distance X X;
   Ok (item D 0 0)) = Ok (Some F64.nan) ∧
  F64.eqb F64.nan F64.zero = false.
Proof. vm_compute. done. Qed.

(** C9.  On a square array [D] and [1 <= k <= len(D)], [find_neighbors]
    raises nothing and returns [k] indices and [k] distances for every row
    [i], the distances being [D[i, n]] for the indices [n] returned; when
    fewer than [k] entries of the axis the indices are selected along
    (column [i]) are finite, one of the indices returned is that of an entry
    that is not finite ([nan] or an infinity), and, [D] being symmetric, so
    is the distance returned with it. *)
Theorem C9_find_neighbors_total (D : matrix) (k : Z) :
  square D → (1 ≤ k ≤ Z.of_nat (length D))%Z →
  ∃ N DN, find_neighbors D k = Ok (N, DN) ∧
    length N = length D ∧ length DN = length D ∧
    ∀ i Ni DNi, N !! i = Some Ni → DN !! i = Some DNi →
      length Ni = Z.to_nat k ∧
      DNi = map (λ n, (D !!! i) !!! n) Ni ∧
      (length (filter (λ d, F64.is_finite d = true)
                 (map (λ row, row !!! i) D)) < Z.to_nat k →
       ∃ n, n ∈ Ni ∧ F64.is_finite ((D !!! n) !!! i) = false ∧
            ((D !!! i) !!! n = (D !!! n) !!! i →
             ∃ d, d ∈ DNi ∧ F64.is_finite d = false)).
Proof.
  intros Hsq Hk.
  destruct (find_neighbors_square D k Hsq) as (N & DN & HN & HlenN & HlenDN & Hrows);
    [lia|right; lia|].
  exists N, DN. split_and!; try done.
  intros i Ni DNi HNi HDNi.
  pose proof (lookup_lt_Some _ _ _ HNi) as Hi. rewrite HlenN in Hi.
  destruct (Hrows i Hi) as (p & Hp & HNi' & HDNi').
  rewrite HNi in HNi'. injection HNi' as ->.
  rewrite HDNi in HDNi'. injection HDNi' as ->.
  apply argpartition_index_array in Hp as (Hlen & Hnd & Hbound).
  rewrite length_map in Hlen, Hbound.
  assert (length (take (Z.to_nat k) p) = Z.to_nat k) as HlenNi.
  { rewrite length_take. lia. }
  split_and!; try done.
  intros Hfew.
  destruct (selected_not_finite (map (λ row, row !!! i) D) (take (Z.to_nat k) p))
    as (n & Hn & Hnf).
  - apply (sublist_NoDup _ p); [done|apply sublist_take].
  - rewrite length_map. by apply Forall_take.
  - by rewrite HlenNi.
  - assert (n < length D) as Hlt.
    { apply (proj1 (Forall_forall _ _) (Forall_take _ (Z.to_nat k) _ Hbound) n Hn). }
    rewrite (list_lookup_total_fmap (λ row : list F64.float, row !!! i) D n)
      in Hnf by done.
    exists n. split_and!; try done.
    intros Hsym. exists ((D !!! i) !!! n). split; [|congruence].
    by apply (list_elem_of_fmap_2 (λ n, (D !!! i) !!! n)).
Qed.

Lemma C9_find_neighbors_total_witness :
  square D_masked ∧
  ∃ N DN, find_neighbors D_masked 1 = Ok (N, DN) ∧ length N = 2 ∧
    ∀ Ni DNi, N !! 0 = Some Ni → DN !! 0 = Some DNi →
      ∃ n, n ∈ Ni ∧ F64.is_finite ((D_masked !!! n) !!! 0) = false.
Proof.
  assert (square D_masked) as H by (repeat constructor).
  split; [exact H|].
  destruct (C9_find_neighbors_total D_masked 1 H ltac:(cbn; lia))
    as (N & DN & HN & Hlen & _ & Hrows).
  exists N, DN. split; [exact HN|]. split; [exact Hlen|].
  intros Ni DNi HNi HDNi.
  destruct (Hrows 0 Ni DNi HNi HDNi) as (_ & _ & Hfew).
  destruct Hfew as (n & Hn & Hnf & _); [vm_compute; lia|].
  exists n. split; [exact Hn|exact Hnf].
Defined.

(** C10.  [nichkawde_embedding] is a function of its arguments: two runs
    on the same arguments have the same outcome, whatever the number of
    turns allowed to a run that ends; and in a turn, a candidate lag whose
    score equals the score of the lag appended is not below the lag
    appended: among equal scores the smallest lag wins. *)
Theorem C10_deterministic (log_fin exp_fin : F64.float → F64.float)
    (x : vector) (E_max neighbor_offset_min : Z) (preserve_indices : bool) :
  (∀ o1 o2,
     nichkawde_run log_fin exp_fin x E_max neighbor_offset_min
       preserve_indices o1 →
     nichkawde_run log_fin exp_fin x E_max neighbor_offset_min
       preserve_indices o2 →
     o1 = o2) ∧
  (∀ fuel1 fuel2 o1 o2,
     nichkawde_embedding log_fin exp_fin fuel1 x E_max neighbor_offset_min
       preserve_indices = Some o1 →
     nichkawde_embedding log_fin exp_fin fuel2 x E_max neighbor_offset_min
       preserve_indices = Some o2 →
     o1 = o2) ∧
  (∀ X_full taus tau N0 DN0 c s_c s_tau,
     next_lag log_fin exp_fin X_full E_max neighbor_offset_min taus = Ok tau →
     nearest X_full neighbor_offset_min taus = Ok (N0, DN0) →
     (last_lag taus < c < E_max)%Z →
     geo_mean_deriv log_fin exp_fin X_full N0 DN0 c = Ok s_c →
     geo_mean_deriv log_fin exp_fin X_full N0 DN0 tau = Ok s_tau →
     F64.eqb s_c s_tau = true →
     (tau ≤ c)%Z).
Proof.
  split_and!.
  - apply nichkawde_run_det.
  - intros fuel1 fuel2 o1 o2 H1%nichkawde_embedding_run H2%nichkawde_embedding_run.
    by eapply nichkawde_run_det.
  - intros X_full taus tau N0 DN0 c s_c s_tau Htau Hn Hrange Hc Ht Heq.
    apply next_lag_Ok in Htau
      as (N0' & DN0' & g & Hn' & Hg & Hrt & _ & Hpre & _).
    rewrite Hn in Hn'. injection Hn' as <- <-.
    destruct (Z.le_gt_cases tau c) as [|Hlt]; [done|]. exfalso.
    pose proof (Hg c Hrange) as Hgc. pose proof (Hg tau Hrt) as Hgt.
    rewrite Hc in Hgc. rewrite Ht in Hgt.
    injection Hgc as ->. injection Hgt as ->.
    destruct (Hpre c) as [Hlt'|Hnan]; [lia| |].
    + apply ltb_not_eqb in Hlt'. congruence.
    + apply eqb_rank in Heq as (Hnc & _). congruence.
Qed.

(** * Further properties of the program *)

(** ** [make_partial_embedding] and [make_full_embedding], whatever the lags *)

Lemma slice_to_beyond (x : vector) (tau : Z) :
  (Z.of_nat (length x) < tau)%Z →
  slice_to x (Z.of_nat (length x) - tau) =
    take (Z.to_nat (2 * Z.of_nat (length x) - tau)) x.
Proof.
  intros H. unfold slice_to.
  destruct (Z.ltb_spec (Z.of_nat (length x) - tau) 0); [|lia].
  f_equal. lia.
Qed.

(** One assignment [X[tau:, i] = x[:(N - tau)]]: it goes through for the
    lags that fit, and is numpy's [ValueError] for the others. *)
Lemma assign_lag_step c (x : vector) (X : matrix) (tau : Z) i :
  rect c X → length X = length x → i < c → (0 ≤ tau)%Z →
  (lag_fits (length x) tau ∧
   ∃ X', assign_column_from X (Z.to_nat tau) i
           (slice_to x (Z.of_nat (length x) - tau)) = Ok X' ∧
     ∀ r j, r < length x → j < c →
       item X' r j =
         if decide (Z.to_nat tau ≤ r ∧ j = i)
         then Some (x !!! (r - Z.to_nat tau)) else item X r j) ∨
  ((Z.of_nat (length x) < tau < 2 * Z.of_nat (length x) - 1)%Z ∧
   assign_column_from X (Z.to_nat tau) i
     (slice_to x (Z.of_nat (length x) - tau)) = Raise ValueError).
Proof.
  intros Hrect Hlen Hi Htau.
  destruct (decide (tau ≤ Z.of_nat (length x))%Z) as [Hin|Hout].
  - left. split; [unfold lag_fits; lia|].
    rewrite slice_to_in_range by lia.
    assert (length (take (length x - Z.to_nat tau) x) = length X - Z.to_nat tau)
      as Hsrc by (rewrite length_take; lia).
    assert (∃ X1, assign_column_from X (Z.to_nat tau) i
                    (take (length x - Z.to_nat tau) x) = Ok X1) as [X1 H1].
    { unfold assign_column_from. rewrite decide_True; eauto. }
    exists X1. split; [done|]. intros r j Hr Hj.
    destruct (assign_column_from_item c X (Z.to_nat tau) i
                (take (length x - Z.to_nat tau) x) r j) as (X1' & H1' & Hitem);
      [done|done|lia|done|done|].
    rewrite H1 in H1'. injection H1' as <-. rewrite Hitem.
    case_decide; [|done]. by rewrite lookup_total_take_lt by lia.
  - rewrite slice_to_beyond by lia. unfold assign_column_from.
    rewrite length_take.
    destruct (decide (2 * Z.of_nat (length x) - 1 ≤ tau)%Z) as [Hfar|Hnear].
    + left. split; [unfold lag_fits; lia|].
      assert (∀ f : nat → F64.float, ∀ r j, r < length x → j < c →
                item (imap (λ r row, if decide (Z.to_nat tau ≤ r)
                                     then <[i := f r]> row else row) X) r j =
                if decide (Z.to_nat tau ≤ r ∧ j = i)
                then Some (x !!! (r - Z.to_nat tau)) else item X r j) as Himap.
      { intros f r j Hr Hj. unfold item. rewrite list_lookup_imap.
        rewrite (decide_False (P := _ ∧ _)) by lia.
        destruct (X !! r); [|done]. cbn. by rewrite decide_False by lia. }
      case_decide; [|case_decide; [|lia]]; eexists; (split; [reflexivity|]);
        apply Himap.
    + right. split; [lia|].
      rewrite decide_False by lia. by rewrite decide_False by lia.
Qed.

(** The loop of [make_partial_embedding], whatever the lags: when it ends,
    every lag fits and column [j] from [i] on holds [x[r - tau]] from row
    [tau] on; when it raises, it does so at the first lag that is negative
    ([AssertionError]) or does not fit ([ValueError]). *)
Lemma fill_lagged_outcome c (x : vector) (taus : list Z) :
  ∀ (X : matrix) i, rect c X → length X = length x → i + length taus ≤ c →
  match fill_lagged x X i taus with
  | Ok X' =>
      Forall (lag_fits (length x)) taus ∧
      ∀ r j, r < length x → j < c →
        item X' r j =
          match taus !! (j - i) with
          | Some tau =>
              if decide (i ≤ j ∧ Z.to_nat tau ≤ r)
              then Some (x !!! (r - Z.to_nat tau)) else item X r j
          | None => item X r j
          end
  | Raise e =>
      ∃ pre tau post, taus = pre ++ tau :: post ∧
        Forall (lag_fits (length x)) pre ∧
        ((tau < 0)%Z ∧ e = AssertionError ∨
         (Z.of_nat (length x) < tau < 2 * Z.of_nat (length x) - 1)%Z ∧
         e = ValueError)
  end.
Proof.
  induction taus as [|tau taus IH]; intros X i Hrect Hlen Hi.
  - cbn. split; [constructor|]. intros r j _ _. by rewrite lookup_nil.
  - cbn [fill_lagged]. cbn [length] in Hi.
    destruct (Z.ltb_spec tau 0) as [Hneg|Hpos].
    { exists [], tau, taus. split_and!; [done|constructor|]. by left. }
    destruct (assign_lag_step c x X tau i) as [(Hfit & X1 & H1 & Hitem1)|[Hbad H1]];
      [done|done|lia|done| |].
    2:{ rewrite H1. cbn. exists [], tau, taus.
        split_and!; [done|constructor|]. by right. }
    rewrite H1, bind_ret_l.
    pose proof (assign_column_from_shape c _ _ _ _ _ H1) as [Hlen1 Hrect1].
    specialize (IH X1 (S i)).
    destruct (fill_lagged x X1 (S i) taus) as [X'|e].
    + destruct IH as [Hall Hitem]; [auto|congruence|lia|].
      split; [by constructor|]. intros r j Hr Hj.
      rewrite Hitem by done. rewrite Hitem1 by done.
      destruct (decide (j = i)) as [->|Hne].
      * rewrite Nat.sub_diag. cbn [lookup list_lookup].
        destruct (taus !! (i - S i)); repeat case_decide; try lia; done.
      * destruct (decide (i < j)) as [Hlt|Hge].
        -- replace (j - i) with (S (j - S i)) by lia. cbn [lookup list_lookup].
           destruct (taus !! (j - S i)); repeat case_decide; try lia; done.
        -- replace (j - S i) with 0 by lia. replace (j - i) with 0 by lia.
           cbn [lookup list_lookup].
           destruct (taus !! 0); repeat case_decide; try lia; done.
    + destruct IH as (pre & t & post & -> & Hpre & He); [auto|congruence|lia|].
      exists (tau :: pre), t, post. split_and!; [done|by constructor|done].
Qed.

(** [make_partial_embedding] with [preserve_indices], whatever the lags. *)
Lemma make_partial_embedding_outcome (x : vector) (taus : list Z) :
  match make_partial_embedding x taus true with
  | Ok X =>
      Forall (lag_fits (length x)) taus ∧
      length X = length x ∧ rect (length taus) X ∧
      ∀ r j tau, r < length x → taus !! j = Some tau →
        item X r j =
          Some (if decide (Z.to_nat tau ≤ r) then x !!! (r - Z.to_nat tau)
                else F64.nan)
  | Raise e =>
      ∃ pre tau post, taus = pre ++ tau :: post ∧
        Forall (lag_fits (length x)) pre ∧
        ((tau < 0)%Z ∧ e = AssertionError ∨
         (Z.of_nat (length x) < tau < 2 * Z.of_nat (length x) - 1)%Z ∧
         e = ValueError)
  end.
Proof.
  unfold make_partial_embedding.
  pose proof (fill_lagged_outcome (length taus) x taus
                (replicate (length x) (replicate (length taus) F64.nan)) 0
                (rect_replicate _ _ _)) as H.
  rewrite length_replicate in H. specialize (H eq_refl (Nat.le_refl _)).
  destruct (fill_lagged x _ 0 taus) as [X|e] eqn:HX; [|exact H].
  cbn. destruct H as [Hall Hitem].
  pose proof (fill_lagged_shape (length taus) _ _ _ _ _ HX) as [Hlen Hrect].
  rewrite length_replicate in Hlen.
  split_and!; [done|done|apply Hrect, rect_replicate|].
  intros r j tau Hr Hj. pose proof (lookup_lt_Some _ _ _ Hj) as Hlt.
  rewrite Hitem by done. rewrite Nat.sub_0_r, Hj.
  rewrite item_replicate by done.
  repeat case_decide; try lia; done.
Qed.

(** Without [preserve_indices] the rows before [max(taus)] are dropped from
    the same array. *)
Lemma make_partial_embedding_dropped (x : vector) (taus : list Z) :
  make_partial_embedding x taus false =
    (X ← make_partial_embedding x taus true;
     m ← np_max taus; Ok (drop (Z.to_nat m) X)).
Proof.
  unfold make_partial_embedding.
  by destruct (fill_lagged x _ 0 taus).
Qed.

Lemma np_max_elem_of (taus : list Z) m : np_max taus = Ok m → m ∈ taus.
Proof.
  destruct taus as [|t taus]; [done|]. cbn. intros [= <-].
  revert t. induction taus as [|t' taus IH]; intros t; cbn.
  - apply elem_of_cons. by left.
  - specialize (IH (Z.max t t')). rewrite !elem_of_cons in IH |- *.
    destruct IH as [IH|IH].
    + rewrite IH.
      destruct (Z.max_spec t t') as [[_ Hm]|[_ Hm]]; rewrite Hm;
        [right; apply elem_of_cons|]; by left.
    + right. apply elem_of_cons. by right.
Qed.

(** [numpy.arange(0, E * tau, tau)] holds the [E] multiples of [tau]. *)
Lemma arange_multiples (E tau : Z) :
  (0 < tau)%Z →
  arange (E * tau) tau = map (λ k, (Z.of_nat k * tau)%Z) (seq 0 (Z.to_nat E)).
Proof.
  intros Htau. unfold arange. do 2 f_equal.
  replace (E * tau + tau - 1)%Z with (E * tau + (tau - 1))%Z by lia.
  rewrite Z.div_add_l by lia. rewrite Z.div_small by lia. lia.
Qed.

Lemma arange_length (E tau : Z) :
  (0 < tau)%Z → length (arange (E * tau) tau) = Z.to_nat E.
Proof.
  intros. rewrite arange_multiples by done. by rewrite length_map, length_seq.
Qed.

Lemma arange_lookup (E tau : Z) j t :
  (0 < tau)%Z →
  arange (E * tau) tau !! j = Some t ↔ (t = Z.of_nat j * tau)%Z ∧ j < Z.to_nat E.
Proof.
  intros. rewrite arange_multiples by done. rewrite list_lookup_fmap.
  destruct (decide (j < Z.to_nat E)) as [Hlt|Hge].
  - rewrite lookup_seq_lt by done. cbn. split; [intros [= <-]|intros [-> _]]; done.
  - rewrite lookup_seq_ge by lia. cbn. split; [done|lia].
Qed.

Lemma elem_of_arange (E tau t : Z) :
  (0 < tau)%Z →
  t ∈ arange (E * tau) tau ↔ ∃ j, (t = Z.of_nat j * tau)%Z ∧ j < Z.to_nat E.
Proof.
  intros Htau. rewrite list_elem_of_lookup.
  split; intros [j Hj]; exists j; by apply arange_lookup.
Qed.

Lemma lag_fits_not_bad N tau :
  lag_fits N tau →
  ¬ ((tau < 0)%Z ∨ (Z.of_nat N < tau < 2 * Z.of_nat N - 1)%Z).
Proof. unfold lag_fits. lia. Qed.

(** The first element of a list that fails a property is determined. *)
Lemma first_failure_unique {A} (P : A → Prop) pre a post pre' a' post' :
  pre ++ a :: post = pre' ++ a' :: post' →
  Forall P pre → ¬ P a → Forall P pre' → ¬ P a' →
  pre = pre' ∧ a = a'.
Proof.
  revert pre'. induction pre as [|b pre IH]; intros [|b' pre'] Heq Hpre Ha Hpre' Ha';
    cbn in Heq.
  - by injection Heq as -> _.
  - injection Heq as -> _. by apply Forall_cons in Hpre' as [? _].
  - injection Heq as -> _. by apply Forall_cons in Hpre as [? _].
  - injection Heq as -> Heq.
    apply Forall_cons in Hpre as [_ Hpre]. apply Forall_cons in Hpre' as [_ Hpre'].
    destruct (IH pre' Heq) as [-> ->]; done.
Qed.

(** X1.  With [preserve_indices], [make_partial_embedding] returns an array
    exactly when every lag fits the series: it is not negative, and it is at
    most [N = len(x)] or at least [2N - 1].  The array has a row for every
    entry of [x] and a column for every lag; entry [(r, j)] is
    [x[r - taus[j]]] from row [taus[j]] on and [nan] above, so that the
    column of a lag of [2N - 1] or more holds nothing but [nan]. *)
Theorem X1_make_partial_embedding_preserved (x : vector) (taus : list Z) :
  (Forall (lag_fits (length x)) taus ↔
   ∃ X, make_partial_embedding x taus true = Ok X) ∧
  ∀ X, make_partial_embedding x taus true = Ok X →
    length X = length x ∧ rect (length taus) X ∧
    ∀ r j tau, r < length x → taus !! j = Some tau →
      item X r j =
        Some (if decide (Z.to_nat tau ≤ r) then x !!! (r - Z.to_nat tau)
              else F64.nan).
Proof.
  pose proof (make_partial_embedding_outcome x taus) as H.
  destruct (make_partial_embedding x taus true) as [X|e].
  - destruct H as (Hall & Hlen & Hrect & Hitem). split.
    + split; [eauto|done].
    + by intros ? [= <-].
  - destruct H as (pre & tau & post & -> & _ & Hbad). split; [|done].
    split; [|by intros [? ?]].
    intros Hall. apply Forall_app in Hall as [_ Hall].
    apply Forall_cons in Hall as [Hfit _].
    apply lag_fits_not_bad in Hfit. lia.
Qed.

(** X2.  [make_partial_embedding] raises [e] exactly when, going through
    the lags in order, the first lag that is negative or does not fit is
    negative and [e] is the [AssertionError] of the [assert], or lies
    strictly between [N] and [2N - 1] and [e] is numpy's [ValueError] for
    the assignment of a slice of the wrong length; or when there is no lag
    at all and [preserve_indices] is off, where [numpy.max] raises
    [ValueError]. *)
Theorem X2_make_partial_embedding_raises (x : vector) (taus : list Z)
    (preserve_indices : bool) (e : exn) :
  make_partial_embedding x taus preserve_indices = Raise e ↔
  (∃ pre tau post, taus = pre ++ tau :: post ∧
     Forall (lag_fits (length x)) pre ∧
     ((tau < 0)%Z ∧ e = AssertionError ∨
      (Z.of_nat (length x) < tau < 2 * Z.of_nat (length x) - 1)%Z ∧
      e = ValueError)) ∨
  (preserve_indices = false ∧ taus = [] ∧ e = ValueError).
Proof.
  assert (make_partial_embedding x taus true = Raise e ↔
          ∃ pre tau post, taus = pre ++ tau :: post ∧
            Forall (lag_fits (length x)) pre ∧
            ((tau < 0)%Z ∧ e = AssertionError ∨
             (Z.of_nat (length x) < tau < 2 * Z.of_nat (length x) - 1)%Z ∧
             e = ValueError)) as Htrue.
  { pose proof (make_partial_embedding_outcome x taus) as H.
    destruct (make_partial_embedding x taus true) as [X|e'].
    - destruct H as (Hall & _). split; [done|].
      intros (pre & tau & post & -> & _ & Hbad).
      apply Forall_app in Hall as [_ Hall].
      apply Forall_cons in Hall as [Hfit _].
      apply lag_fits_not_bad in Hfit. lia.
    - destruct H as (pre' & tau' & post' & Heq & Hpre' & Hbad'). split.
      + intros [= <-]. eauto 10.
      + intros (pre & tau & post & Heq' & Hpre & Hbad). rewrite Heq in Heq'.
        destruct (first_failure_unique (lag_fits (length x))
                    pre' tau' post' pre tau post) as [_ ->];
          [done|done| |done| |].
        * intros Hfit%lag_fits_not_bad. lia.
        * intros Hfit%lag_fits_not_bad. lia.
        * f_equal. destruct Hbad as [[? ->]|[? ->]], Hbad' as [[? ->]|[? ->]];
            done || lia. }
  destruct preserve_indices.
  - rewrite Htrue. split; [by left|]. by intros [?|[? _]].
  - rewrite make_partial_embedding_dropped.
    pose proof (make_partial_embedding_outcome x taus) as H.
    destruct (make_partial_embedding x taus true) as [X|e'].
    + rewrite bind_ret_l. destruct H as (Hall & _).
      destruct taus as [|t taus]; cbn.
      * split; [intros [= <-]; by right|].
        intros [(pre & ? & ? & ? & _)|(_ & _ & ->)]; [by destruct pre|done].
      * split; [done|]. intros [Hbad|(_ & ? & _)]; [|done].
        by apply Htrue in Hbad.
    + cbn. split.
      * intros Heq. left. by apply Htrue.
      * intros [Hbad|(_ & -> & _)]; [by apply Htrue in Hbad|].
        destruct H as (pre & ? & ? & ? & _). by destruct pre.
Qed.

(** X3.  Without [preserve_indices], for at least one lag and lags that
    all fit, [make_partial_embedding] returns the rows from [max(taus)] on:
    [N - max(taus)] of them (none when the largest lag is beyond the
    series), and entry [(r, j)] is the entry [x[r + max(taus) - taus[j]]]
    of the series: no entry stands for a value before the start of [x]. *)
Theorem X3_make_partial_embedding_dropped_rows (x : vector) (taus : list Z) :
  taus ≠ [] → Forall (lag_fits (length x)) taus →
  ∃ X m, np_max taus = Ok m ∧ m ∈ taus ∧ Forall (λ t, t ≤ m)%Z taus ∧
    make_partial_embedding x taus false = Ok X ∧
    length X = length x - Z.to_nat m ∧ rect (length taus) X ∧
    ∀ r j tau, r < length x - Z.to_nat m → taus !! j = Some tau →
      ∃ v, x !! (r + Z.to_nat m - Z.to_nat tau) = Some v ∧
           item X r j = Some v.
Proof.
  intros Hne Hall. rewrite make_partial_embedding_dropped.
  pose proof (make_partial_embedding_outcome x taus) as H.
  destruct (make_partial_embedding x taus true) as [X|e].
  2:{ destruct H as (pre & tau & post & -> & _ & Hbad).
      apply Forall_app in Hall as [_ Hall].
      apply Forall_cons in Hall as [Hfit%lag_fits_not_bad _]. lia. }
  destruct H as (_ & Hlen & Hrect & Hitem). rewrite bind_ret_l.
  destruct (np_max taus) as [m|e] eqn:Hm; [|by destruct taus].
  rewrite bind_ret_l. pose proof (np_max_ge _ _ Hm) as Hge.
  exists (drop (Z.to_nat m) X), m.
  split_and!; [done|by apply np_max_elem_of|done|done| | |].
  - rewrite length_drop. lia.
  - by apply Forall_drop.
  - intros r j tau Hr Hj.
    pose proof (proj1 (Forall_lookup _ _) Hge _ _ Hj) as Hle. cbn in Hle.
    pose proof (proj1 (Forall_lookup _ _) Hall _ _ Hj) as [Hpos _].
    destruct (lookup_lt_is_Some_2 x (r + Z.to_nat m - Z.to_nat tau)) as [v Hv];
      [lia|].
    exists v. split; [done|].
    assert (item (drop (Z.to_nat m) X) r j = item X (Z.to_nat m + r) j) as ->.
    { unfold item. by rewrite lookup_drop. }
    rewrite (Hitem _ _ tau) by (done || lia).
    rewrite decide_True by lia. f_equal.
    replace (Z.to_nat m + r - Z.to_nat tau) with (r + Z.to_nat m - Z.to_nat tau)
      by lia.
    by apply list_lookup_total_correct.
Qed.

Lemma X3_make_partial_embedding_dropped_rows_witness :
  [0; 2]%Z ≠ [] ∧
  ∃ X, make_partial_embedding x16 [0; 2]%Z false = Ok X ∧ length X = 4 ∧
       item X 0 1 = Some (F64.of_Z 1).
Proof.
  split; [done|].
  destruct (X3_make_partial_embedding_dropped_rows x16 [0; 2]%Z)
    as (X & m & Hm & _ & _ & HX & Hlen & _ & Hitem); [done| |].
  { unfold lag_fits. repeat constructor; cbn; lia. }
  injection Hm as <-. exists X. split_and!; [done|done|].
  destruct (Hitem 0 1 2%Z) as (v & Hv & ->); [cbn; lia|done|].
  by injection Hv as <-.
Defined.

(** The lags of a full embedding within the series all fit. *)
Lemma arange_fits (N : nat) (E tau : Z) :
  (0 < tau)%Z → ((E - 1) * tau ≤ Z.of_nat N)%Z →
  Forall (lag_fits N) (arange (E * tau) tau).
Proof.
  intros Htau HE. apply Forall_forall. intros t (j & -> & Hj)%elem_of_arange; [|done].
  unfold lag_fits. nia.
Qed.

(** X4.  For [E > 0], [tau > 0] and a largest lag [(E - 1) * tau] within the
    series, [make_full_embedding] returns, with [preserve_indices], an array
    of [len(x)] rows and [E] columns whose entry [(r, j)] is [x[r - j * tau]]
    from row [j * tau] on and [nan] above; and without it, the rows from
    [(E - 1) * tau] on, whose entries are all entries of [x]. *)
Theorem X4_make_full_embedding_entries (x : vector) (E tau : Z) :
  (0 < E)%Z → (0 < tau)%Z → ((E - 1) * tau ≤ Z.of_nat (length x))%Z →
  (∃ X, make_full_embedding x E tau true = Ok X ∧
     length X = length x ∧ rect (Z.to_nat E) X ∧
     ∀ r j, r < length x → j < Z.to_nat E →
       item X r j =
         Some (if decide (j * Z.to_nat tau ≤ r)
               then x !!! (r - j * Z.to_nat tau) else F64.nan)) ∧
  (∃ X, make_full_embedding x E tau false = Ok X ∧
     length X = length x - Z.to_nat ((E - 1) * tau) ∧ rect (Z.to_nat E) X ∧
     ∀ r j, r < length X → j < Z.to_nat E →
       ∃ v, x !! (r + (Z.to_nat E - 1 - j) * Z.to_nat tau) = Some v ∧
            item X r j = Some v).
Proof.
  intros HE Htau Hin. unfold make_full_embedding.
  destruct (Z.ltb_spec 0 E); [|lia]. destruct (Z.ltb_spec 0 tau); [|lia]. cbn.
  pose proof (arange_fits (length x) E tau Htau Hin) as Hfits.
  rewrite make_partial_embedding_dropped.
  pose proof (make_partial_embedding_outcome x (arange (E * tau) tau)) as Hout.
  destruct (make_partial_embedding x (arange (E * tau) tau) true) as [X|e].
  2:{ destruct Hout as (pre & t & post & Heq & _ & Hbad). rewrite Heq in Hfits.
      apply Forall_app in Hfits as [_ Hfits].
      apply Forall_cons in Hfits as [Hfit%lag_fits_not_bad _]. lia. }
  destruct Hout as (_ & Hlen & Hrect & Hitem).
  rewrite arange_length in Hrect by done.
  assert (∀ r j, r < length x → j < Z.to_nat E →
            item X r j =
              Some (if decide (j * Z.to_nat tau ≤ r)
                    then x !!! (r - j * Z.to_nat tau) else F64.nan)) as Hitem'.
  { intros r j Hr Hj.
    rewrite (Hitem r j (Z.of_nat j * tau)%Z) by (done || by apply arange_lookup).
    replace (Z.to_nat (Z.of_nat j * tau)) with (j * Z.to_nat tau) by nia. done. }
  split; [by exists X|]. rewrite bind_ret_l.
  destruct (np_max (arange (E * tau) tau)) as [m|e] eqn:Hm.
  2:{ rewrite arange_multiples in Hm by done.
      destruct (Z.to_nat E) eqn:HE'; [lia|done]. }
  assert (m = (E - 1) * tau)%Z as ->.
  { pose proof (np_max_ge _ _ Hm) as Hge.
    apply np_max_elem_of, elem_of_arange in Hm as (j & -> & Hj); [|done].
    assert ((E - 1) * tau ≤ Z.of_nat j * tau)%Z as Hle.
    { apply (proj1 (Forall_forall _ _) Hge). apply elem_of_arange; [done|].
      exists (Z.to_nat (E - 1)). split; [|lia]. by rewrite Z2Nat.id by lia. }
    f_equal. nia. }
  rewrite bind_ret_l. eexists. split; [done|].
  split_and!.
  - rewrite length_drop. lia.
  - by apply Forall_drop.
  - rewrite length_drop. intros r j Hr Hj.
    destruct (lookup_lt_is_Some_2 x (r + (Z.to_nat E - 1 - j) * Z.to_nat tau))
      as [v Hv]; [nia|].
    exists v. split; [done|].
    assert (item (drop (Z.to_nat ((E - 1) * tau)) X) r j =
            item X (Z.to_nat ((E - 1) * tau) + r) j) as ->.
    { unfold item. by rewrite lookup_drop. }
    rewrite Hitem' by (done || lia). rewrite decide_True by nia. f_equal.
    replace (Z.to_nat ((E - 1) * tau) + r - j * Z.to_nat tau)
      with (r + (Z.to_nat E - 1 - j) * Z.to_nat tau) by nia.
    by apply list_lookup_total_correct.
Qed.

Lemma X4_make_full_embedding_entries_witness :
  (0 < 3)%Z ∧ (0 < 2)%Z ∧
  ∃ X, make_full_embedding x_doc 3 2 true = Ok X ∧
       item X 4 2 = Some (tenths 30) ∧ item X 3 2 = Some F64.nan.
Proof.
  split; [lia|]. split; [lia|].
  destruct (X4_make_full_embedding_entries x_doc 3 2)
    as [(X & HX & _ & _ & Hitem) _]; [lia|lia|cbn; lia|].
  exists X. split; [done|].
  split; [apply (Hitem 4 2)|apply (Hitem 3 2)]; cbn; lia.
Defined.

(** The lags of a full embedding are never negative: the only exception
    that can come out of [make_partial_embedding] is the [ValueError] of a
    lag strictly between [N] and [2N - 1]. *)
Lemma make_partial_embedding_arange_raises (x : vector) (E tau : Z)
    (preserve_indices : bool) (e : exn) :
  (0 < E)%Z → (0 < tau)%Z →
  make_partial_embedding x (arange (E * tau) tau) preserve_indices = Raise e ↔
  e = ValueError ∧
  ∃ j, (0 ≤ j < E)%Z ∧
       (Z.of_nat (length x) < j * tau < 2 * Z.of_nat (length x) - 1)%Z.
Proof.
  intros HE Htau.
  assert (arange (E * tau) tau ≠ []) as Hne.
  { rewrite arange_multiples by done. destruct (Z.to_nat E) eqn:HE'; [lia|done]. }
  pose proof (make_partial_embedding_outcome x (arange (E * tau) tau)) as H.
  assert (make_partial_embedding x (arange (E * tau) tau) preserve_indices
          = Raise e ↔
          make_partial_embedding x (arange (E * tau) tau) true = Raise e) as ->.
  { destruct preserve_indices; [done|]. rewrite make_partial_embedding_dropped.
    destruct (make_partial_embedding x _ true); [|done]. rewrite bind_ret_l.
    destruct (arange (E * tau) tau); done. }
  destruct (make_partial_embedding x (arange (E * tau) tau) true) as [X|e'].
  - destruct H as (Hall & _). split; [done|]. intros (_ & j & Hj & Hbad).
    assert (lag_fits (length x) (j * tau)) as Hfit%lag_fits_not_bad; [|lia].
    apply (proj1 (Forall_forall _ _) Hall). apply elem_of_arange; [done|].
    exists (Z.to_nat j). split; [|lia]. by rewrite Z2Nat.id by lia.
  - destruct H as (pre & t & post & Heq & _ & Hbad).
    assert (t ∈ arange (E * tau) tau) as Hin.
    { rewrite Heq. apply elem_of_app. right. apply elem_of_cons. by left. }
    apply elem_of_arange in Hin as (j & -> & Hj); [|done].
    destruct Hbad as [[? _]|[Hbad ->]]; [nia|].
    split.
    + intros [= <-]. split; [done|]. exists (Z.of_nat j). split; [lia|done].
    + by intros [-> _].
Qed.

(** X5.  [make_full_embedding] raises [AssertionError] exactly when [E] or
    [tau] is not positive, and [ValueError] exactly when both are positive
    and one of the lags [j * tau], [j < E], lies strictly between [N] and
    [2N - 1]; it raises nothing else. *)
Theorem X5_make_full_embedding_raises (x : vector) (E tau : Z)
    (preserve_indices : bool) :
  (make_full_embedding x E tau preserve_indices = Raise AssertionError ↔
   (E ≤ 0 ∨ tau ≤ 0)%Z) ∧
  (make_full_embedding x E tau preserve_indices = Raise ValueError ↔
   (0 < E)%Z ∧ (0 < tau)%Z ∧
   ∃ j, (0 ≤ j < E)%Z ∧
        (Z.of_nat (length x) < j * tau < 2 * Z.of_nat (length x) - 1)%Z) ∧
  ∀ e, make_full_embedding x E tau preserve_indices = Raise e →
       e = AssertionError ∨ e = ValueError.
Proof.
  unfold make_full_embedding.
  destruct (Z.ltb_spec 0 E) as [HE|HE]; cbn.
  2:{ split_and!; [split; [lia|done]|split; [done|lia]|intros ? [= <-]; by left]. }
  destruct (Z.ltb_spec 0 tau) as [Htau|Htau]; cbn.
  2:{ split_and!; [split; [lia|done]|split; [done|lia]|intros ? [= <-]; by left]. }
  pose proof (λ e, make_partial_embedding_arange_raises x E tau
                     preserve_indices e HE Htau) as Hraise.
  split_and!.
  - rewrite Hraise. split; [by intros [? _]|lia].
  - rewrite Hraise. split; [intros [_ ?]; done|by intros (_ & _ & ?)].
  - intros e [-> _]%Hraise. by right.
Qed.

(** ** Signs of squares, sums, roots and quotients *)

Section F64_sign.
Import F64.

Lemma binary_round_aux_not_negative m e l :
  not_negative (binary_round_aux prec emax false m e l) = true.
Proof.
  unfold binary_round_aux.
  destruct (shr_fexp _ _ _ _ _) as [mrs e'].
  destruct (shr_fexp _ _ _ _ _) as [mrs' e''].
  destruct (shr_m mrs'); try reflexivity.
  destruct (_ <=? _)%Z; reflexivity.
Qed.

Lemma binary_round_not_negative m e :
  not_negative (binary_round prec emax false m e) = true.
Proof.
  unfold binary_round. destruct (shl_align _ _ _) as [mz ez].
  apply binary_round_aux_not_negative.
Qed.

Lemma mul_square_not_negative a : not_negative (mul a a) = true.
Proof.
  destruct a as [[]|[]| |[] m e]; try reflexivity;
    apply binary_round_aux_not_negative.
Qed.

Lemma add_not_negative a b :
  not_negative a = true → not_negative b = true → not_negative (add a b) = true.
Proof.
  destruct a as [[]|[]| |[] ma ea], b as [[]|[]| |[] mb eb];
    try discriminate; try reflexivity.
  intros _ _. unfold add, SFadd, cond_Zopp.
  destruct (shl_align ma ea _) as [pa ?], (shl_align mb eb _) as [pb ?].
  apply binary_round_not_negative.
Qed.

Lemma sqrt_not_negative a : not_negative a = true → not_negative (sqrt a) = true.
Proof.
  destruct a as [[]|[]| |[] m e]; try discriminate; try reflexivity.
  intros _. unfold sqrt, SFsqrt.
  destruct (SFsqrt_core_binary _ _ _ _) as [[mz ez] lz].
  apply binary_round_aux_not_negative.
Qed.

Lemma abs_not_negative a : not_negative (abs a) = true.
Proof. by destruct a. Qed.

Lemma div_not_negative a b :
  not_negative a = true → not_negative b = true → not_negative (div a b) = true.
Proof.
  destruct a as [[]|[]| |[] ma ea], b as [[]|[]| |[] mb eb];
    try discriminate; try reflexivity.
  intros _ _. unfold div, SFdiv.
  destruct (SFdiv_core_binary _ _ _ _ _ _) as [[mz ez] lz].
  apply binary_round_aux_not_negative.
Qed.

Lemma np_sum_not_negative (v : vector) :
  Forall (λ a, not_negative a = true) v → not_negative (np_sum v) = true.
Proof.
  apply (np_sum_closed (λ a, not_negative a = true)); [|done].
  apply add_not_negative.
Qed.

(** A number that is not negative is not below zero; one that is neither
    [nan] nor zero is above it. *)
Lemma not_negative_ltb a : not_negative a = true → ltb a zero = false.
Proof. by destruct a as [[]|[]| |[] m e]. Qed.

Lemma not_negative_positive a :
  not_negative a = true → isnan a = false → eqb a zero = false →
  ltb zero a = true.
Proof. by destruct a as [[]|[]| |[] m e]. Qed.

End F64_sign.

(** ** Properties that hold entry by entry *)

Lemma Forall2_transfer {A B} (R : A → B → Prop) (Q : A → Prop) (P : B → Prop)
    l k :
  (∀ a b, Q a → R a b → P b) → Forall Q l → Forall2 R l k → Forall P k.
Proof.
  intros H HQ HR. revert HQ.
  induction HR as [|a b l k Hab _ IH]; intros HQ; [constructor|].
  apply Forall_cons in HQ as [Ha HQ]. constructor; eauto.
Qed.

Lemma mapR_entries {A B} (f : A → result B) (Q : A → Prop) (P : B → Prop) l bs :
  (∀ a b, Q a → f a = Ok b → P b) → Forall Q l → mapR f l = Ok bs →
  Forall P bs.
Proof.
  intros H HQ Hbs%mapR_Ok. exact (Forall2_transfer _ Q P l bs H HQ Hbs).
Qed.

Lemma lookup_or_Ok {A} e (o : option A) a : lookup_or e o = Ok a ↔ o = Some a.
Proof. destruct o; cbn; split; congruence. Qed.

Lemma row_sqdist_not_negative (a b : vector) d :
  row_sqdist a b = Ok d → not_negative d = true.
Proof.
  unfold row_sqdist. intros (v & _ & [= <-])%bind_Ok.
  apply np_sum_not_negative, Forall_fmap, Forall_forall.
  intros ? _. apply mul_square_not_negative.
Qed.

Lemma squared_euclidean_distance_entries (Q P : F64.float → Prop)
    (A B D : matrix) :
  (∀ a b d, Forall Q a → Forall Q b → row_sqdist a b = Ok d → P d) →
  Forall (Forall Q) A → Forall (Forall Q) B →
  squared_euclidean_distance A B = Ok D → Forall (Forall P) D.
Proof.
  intros H HA HB. unfold squared_euclidean_distance.
  apply mapR_entries with (Q := Forall Q); [|done].
  intros a row Ha. apply mapR_entries with (Q := Forall Q); [|done].
  intros b d Hb. by apply H.
Qed.

Lemma map_map_entries (f : F64.float → F64.float) (Q P : F64.float → Prop)
    (D : matrix) :
  (∀ d, Q d → P (f d)) → Forall (Forall Q) D → Forall (Forall P) (map (map f) D).
Proof.
  intros H HD. apply Forall_fmap. eapply Forall_impl; [exact HD|].
  intros row Hrow. apply Forall_fmap. eapply Forall_impl; [exact Hrow|done].
Qed.

Lemma assign_diagonal_entries (P : F64.float → Prop) (X : matrix) offset val :
  P val → Forall (Forall P) X → Forall (Forall P) (assign_diagonal X offset val).
Proof.
  intros Hval HX. apply Forall_lookup. intros i row.
  rewrite assign_diagonal_lookup. intros (row0 & Hrow0 & ->)%fmap_Some.
  pose proof (proj1 (Forall_lookup _ _) HX _ _ Hrow0) as HP.
  unfold diag_row. destruct (_ && _); [|done].
  destruct (decide (Z.to_nat (Z.of_nat i + offset) < length row0)).
  - by apply Forall_insert.
  - by rewrite list_insert_ge by lia.
Qed.

Lemma mask_offset_entries (P : F64.float → Prop) val (D : matrix) offset :
  P val → Forall (Forall P) D → Forall (Forall P) (mask_offset val D offset).
Proof.
  intros Hval HD. unfold mask_offset.
  destruct (0 <? offset)%Z; repeat apply assign_diagonal_entries; done.
Qed.

Lemma mask_band_entries (P : F64.float → Prop) val (D : matrix) m :
  P val → Forall (Forall P) D → Forall (Forall P) (mask_band val D m).
Proof.
  intros Hval. unfold mask_band. generalize (range 0 m). intros offsets.
  revert D. induction offsets as [|o offsets IH]; intros D HD; [done|].
  cbn. by apply IH, mask_offset_entries.
Qed.

Lemma take_items_entries {A} (P : A → Prop) (v : list A) idx out :
  Forall P v → take_items v idx = Ok out → Forall P out.
Proof.
  intros Hv. apply mapR_entries with (Q := λ _, True).
  - intros n a _ Ha%lookup_or_Ok. by eapply (proj1 (Forall_lookup _ _) Hv).
  - by apply Forall_forall.
Qed.

Lemma column_entries {A} (P : A → Prop) (D : list (list A)) i col :
  Forall (Forall P) D → column D i = Ok col → Forall P col.
Proof.
  intros HD. apply mapR_entries with (Q := Forall P); [|done].
  intros row a Hrow Ha%lookup_or_Ok. by eapply (proj1 (Forall_lookup _ _) Hrow).
Qed.

Lemma take_columns_entries (P : F64.float → Prop) (X : matrix) taus X' :
  Forall (Forall P) X → take_columns X taus = Ok X' → Forall (Forall P) X'.
Proof.
  intros HX. apply mapR_entries with (Q := Forall P); [|done].
  intros row row' Hrow. apply mapR_entries with (Q := λ _, True).
  - intros t a _ Ha%lookup_or_Ok. by eapply (proj1 (Forall_lookup _ _) Hrow).
  - by apply Forall_forall.
Qed.

Lemma find_neighbors_entries (P : F64.float → Prop) (D : matrix) k N DN :
  Forall (Forall P) D → find_neighbors D k = Ok (N, DN) → Forall (Forall P) DN.
Proof.
  intros HD. unfold find_neighbors. destruct (k <? 0)%Z; [done|].
  intros (rows & Hrows & [= _ <-])%bind_Ok.
  apply Forall_fmap.
  eapply mapR_entries with (Q := λ _, True); [|by apply Forall_forall|exact Hrows].
  intros i [Ni DNi] _. unfold neighbors_of_row.
  intros (col & _ & (part & _ & (Di & HDi%lookup_or_Ok & (DNi' & HDNi & [= _ <-])%bind_Ok)%bind_Ok)%bind_Ok)%bind_Ok.
  cbn. eapply take_items_entries; [|exact HDNi].
  by eapply (proj1 (Forall_lookup _ _) HD).
Qed.

(** The array handed to [find_neighbors]: every entry is [nan], or what
    [D[D == 0.0] = inf] leaves of a distance. *)
Lemma masked_distance_entries (Q P0 P : F64.float → Prop) (X D : matrix) m :
  (∀ a b d, Forall Q a → Forall Q b → row_sqdist a b = Ok d → P0 d) →
  P F64.nan →
  (∀ d, P0 d →
     P (if F64.eqb (F64.sqrt d) F64.zero then F64.inf else F64.sqrt d)) →
  Forall (Forall Q) X → masked_distance X m = Ok D → Forall (Forall P) D.
Proof.
  intros Hsq Hnan Hd HX. unfold masked_distance.
  intros (D0 & HD0 & [= <-])%bind_Ok.
  apply mask_band_entries; [done|]. unfold zeros_to_inf, np_sqrt.
  rewrite <- list_fmap_compose.
  assert (Forall (Forall P0) D0) as HP0
    by (eapply squared_euclidean_distance_entries; eauto).
  apply Forall_fmap. eapply Forall_impl; [exact HP0|].
  intros row Hrow. cbn. rewrite <- list_fmap_compose.
  apply Forall_fmap. eapply Forall_impl; [exact Hrow|]. intros d. apply Hd.
Qed.

Lemma nearest_entries (Q P0 P : F64.float → Prop) (X_full : matrix) m taus
    N0 DN0 :
  (∀ a b d, Forall Q a → Forall Q b → row_sqdist a b = Ok d → P0 d) →
  P F64.nan →
  (∀ d, P0 d →
     P (if F64.eqb (F64.sqrt d) F64.zero then F64.inf else F64.sqrt d)) →
  Forall (Forall Q) X_full →
  nearest X_full m taus = Ok (N0, DN0) → Forall P DN0.
Proof.
  intros Hsq Hnan Hd HX. unfold nearest.
  intros (X & HXt & (D & HD & ([N DN] & Hfn & (N0' & _ & (DN0' & Hcol & [= _ <-])%bind_Ok)%bind_Ok)%bind_Ok)%bind_Ok)%bind_Ok.
  eapply column_entries; [|exact Hcol]. cbn.
  eapply find_neighbors_entries; [|exact Hfn].
  eapply masked_distance_entries; [exact Hsq|done|done| |exact HD].
  by eapply take_columns_entries.
Qed.

(** ** Distances are never negative *)

Lemma item_elem_of (P : F64.float → Prop) (D : matrix) i k d :
  Forall (Forall P) D → item D i k = Some d → P d.
Proof.
  intros HD (row & Hrow & Hd)%item_Some.
  pose proof (proj1 (Forall_lookup _ _) HD _ _ Hrow) as HP.
  by eapply (proj1 (Forall_lookup _ _) HP).
Qed.

Lemma item_outside c (D : matrix) i k :
  rect c D → ¬ (i < length D ∧ k < c) → item D i k = None.
Proof.
  intros HD Hout. unfold item. destruct (D !! i) as [row|] eqn:Hrow; [|done].
  cbn. apply lookup_ge_None.
  pose proof (lookup_lt_Some _ _ _ Hrow). erewrite rect_lookup by eauto. lia.
Qed.

(** X6.  For arrays of [c] columns, [euclidean_distance(A, B)] has a row
    for every row of [A] and a column for every row of [B], every entry is
    the square root of the entry of [squared_euclidean_distance(A, B)] at
    the same place (for fewer than 8 columns, of the squares
    [(A[i,c] - B[k,c])**2] added from left to right starting from zero), and
    no entry is below zero: an entry is [nan], [+inf], zero or positive. *)
Theorem X6_euclidean_distance_entries c (A B : matrix) :
  rect c A → rect c B →
  ∃ D2 D, squared_euclidean_distance A B = Ok D2 ∧
    euclidean_distance A B = Ok D ∧
    length D = length A ∧ rect (length B) D ∧
    (∀ i k, item D i k = F64.sqrt <$> item D2 i k) ∧
    (∀ i k a b, A !! i = Some a → B !! k = Some b → c < 8 →
       item D i k =
         Some (F64.sqrt
                 (F64.add F64.zero
                    (foldl F64.add F64.zero (sq_diffs a b))))) ∧
    (∀ i k d, item D i k = Some d →
       not_negative d = true ∧ F64.ltb d F64.zero = false).
Proof.
  intros HA HB. unfold euclidean_distance.
  destruct (squared_euclidean_distance A B) as [D2|e] eqn:HD2;
    [|by rewrite (squared_euclidean_distance_rect c) in HD2].
  rewrite bind_ret_l. exists D2, (np_sqrt D2). split; [done|]. split; [done|].
  pose proof HD2 as HD2'.
  rewrite (squared_euclidean_distance_rect c) in HD2' by done.
  injection HD2' as HD2'. unfold np_sqrt. split_and!.
  - by rewrite <- HD2', !length_map.
  - apply map_map_rect. rewrite <- HD2'. apply Forall_fmap, Forall_forall.
    intros a _. cbn. by rewrite length_map.
  - intros i k. apply item_map.
  - intros i k a b Ha Hb Hc. rewrite item_map, <- HD2', item_map2, Ha, Hb.
    cbn. change (sqdist a b) with (np_sum (sq_diffs a b)).
    rewrite np_sum_small; [done|]. unfold sq_diffs. rewrite length_zip_with.
    rewrite (rect_lookup _ _ _ _ HA Ha), (rect_lookup _ _ _ _ HB Hb). lia.
  - intros i k d Hd.
    assert (not_negative d = true) as Hnn; [|split; [done|by apply not_negative_ltb]].
    apply (item_elem_of (λ d, not_negative d = true) _ _ _ _) in Hd; [done|].
    apply map_map_entries with (Q := λ d, not_negative d = true);
      [apply sqrt_not_negative|].
    eapply squared_euclidean_distance_entries with (Q := λ _, True);
      [|apply Forall_forall; intros; by apply Forall_forall..|exact HD2].
    intros a b d0 _ _. apply row_sqdist_not_negative.
Qed.

Lemma X6_euclidean_distance_entries_witness :
  rect 2 (of_Zs [[1; 2]; [4; 6]]%Z) ∧
  ∃ D, euclidean_distance (of_Zs [[1; 2]; [4; 6]]%Z)
         (of_Zs [[1; 2]; [4; 6]]%Z) = Ok D ∧
       item D 0 1 = Some (F64.of_Z 5).
Proof.
  assert (rect 2 (of_Zs [[1; 2]; [4; 6]]%Z)) as H
    by (repeat constructor).
  split; [exact H|].
  destruct (X6_euclidean_distance_entries 2 _ _ H H)
    as (D2 & D & _ & HD & _ & _ & _ & Hitem & _).
  exists D. split; [exact HD|].
  rewrite (Hitem 0 1 _ _ eq_refl eq_refl) by lia. vm_compute. reflexivity.
Defined.

(** X7.  When the rows of [A] and the rows of [B] differ in length and
    neither length is 1, the subtraction in [squared_euclidean_distance]
    cannot be broadcast: both distance functions raise [ValueError]. *)
Theorem X7_distance_shape_mismatch cA cB (A B : matrix) :
  rect cA A → rect cB B → A ≠ [] → B ≠ [] →
  cA ≠ cB → cA ≠ 1 → cB ≠ 1 →
  squared_euclidean_distance A B = Raise ValueError ∧
  euclidean_distance A B = Raise ValueError.
Proof.
  intros HA HB HAne HBne Hne HA1 HB1.
  destruct A as [|a A]; [done|]. destruct B as [|b B]; [done|].
  apply Forall_cons in HA as [Ha _]. apply Forall_cons in HB as [Hb _].
  assert (squared_euclidean_distance (a :: A) (b :: B) = Raise ValueError) as H.
  { unfold squared_euclidean_distance. cbn [mapR].
    assert (row_sqdist a b = Raise ValueError) as ->; [|done].
    unfold row_sqdist, broadcast2.
    rewrite decide_False by lia. rewrite decide_False by lia.
    by rewrite decide_False by lia. }
  split; [done|]. unfold euclidean_distance. by rewrite H.
Qed.

Lemma X7_distance_shape_mismatch_witness :
  rect 2 (of_Zs [[1; 2]]%Z) ∧ rect 3 (of_Zs [[1; 2; 3]]%Z) ∧
  euclidean_distance (of_Zs [[1; 2]]%Z) (of_Zs [[1; 2; 3]]%Z) = Raise ValueError.
Proof.
  assert (rect 2 (of_Zs [[1; 2]]%Z)) as HA by (repeat constructor).
  assert (rect 3 (of_Zs [[1; 2; 3]]%Z)) as HB by (repeat constructor).
  split; [exact HA|]. split; [exact HB|].
  apply (X7_distance_shape_mismatch 2 3 _ _ HA HB); done.
Defined.

(** ** The masked distances of a turn *)

Lemma masked_entry_positive d :
  not_negative d = true →
  let v := if F64.eqb (F64.sqrt d) F64.zero then F64.inf else F64.sqrt d in
  not_negative v = true ∧ (F64.isnan v = true ∨ F64.ltb F64.zero v = true).
Proof.
  intros Hd%sqrt_not_negative. cbn.
  destruct (F64.eqb (F64.sqrt d) F64.zero) eqn:Heq; [split; [done|by right]|].
  split; [done|].
  destruct (F64.isnan (F64.sqrt d)) eqn:Hnan; [by left|right].
  by apply not_negative_positive.
Qed.

Lemma masked_distance_positive (X D : matrix) m :
  masked_distance X m = Ok D →
  Forall (Forall (λ d, not_negative d = true ∧
                       (F64.isnan d = true ∨ F64.ltb F64.zero d = true))) D.
Proof.
  apply masked_distance_entries
    with (Q := λ _, True) (P0 := λ d, not_negative d = true).
  - intros a b d _ _. apply row_sqdist_not_negative.
  - split; [done|by left].
  - apply masked_entry_positive.
  - apply Forall_forall. intros. by apply Forall_forall.
Qed.

Lemma masked_distance_symmetric c (X D : matrix) m :
  rect c X → masked_distance X m = Ok D → symmetric D.
Proof.
  intros HX HD.
  destruct (masked_distance_rect c X m HX) as (D' & HD' & Hlen & Hsq & Hitem).
  rewrite HD in HD'. injection HD' as <-.
  intros a b.
  destruct (decide (a < length X ∧ b < length X)) as [[Ha Hb]|Hout].
  - rewrite !Hitem by done. unfold dist.
    rewrite (sqdist_sym (X !!! b) (X !!! a)).
    repeat case_decide; try lia; done.
  - rewrite !(item_outside (length D)) by (done || lia). done.
Qed.

Lemma Forall_zip_with {A B C} (f : A → B → C) (P : A → Prop) (Q : B → Prop)
    (R : C → Prop) l k :
  (∀ a b, P a → Q b → R (f a b)) → Forall P l → Forall Q k →
  Forall R (zip_with f l k).
Proof.
  intros H Hl. revert k. induction Hl as [|a l Ha _ IH]; intros k Hk; [constructor|].
  destruct Hk as [|b k Hb Hk]; cbn; [constructor|]. constructor; eauto.
Qed.

Lemma Forall_True {A} (l : list A) : Forall (λ _, True) l.
Proof. by apply Forall_forall. Qed.

Lemma Forall_filter_impl {A} (P : A → Prop) `{!∀ a, Decision (P a)}
    (Q : A → Prop) l :
  Forall (λ a, P a → Q a) l → Forall Q (filter P l).
Proof.
  intros Hl. apply Forall_forall. intros a [HP Hin]%list_elem_of_filter.
  exact (proj1 (Forall_forall _ _) Hl a Hin HP).
Qed.

(** X8.  The array of a turn of [nichkawde_embedding] that is handed to
    [find_neighbors] is square and symmetric, and none of its entries is
    zero or negative: an entry is [nan], [+inf] or a positive number. *)
Theorem X8_masked_distance_symmetric c (X : matrix) (neighbor_offset_min : Z) :
  rect c X →
  ∃ D, masked_distance X neighbor_offset_min = Ok D ∧
    length D = length X ∧ square D ∧ symmetric D ∧
    ∀ i k d, item D i k = Some d →
      F64.isnan d = true ∨ F64.ltb F64.zero d = true.
Proof.
  intros HX.
  destruct (masked_distance_rect c X neighbor_offset_min HX)
    as (D & HD & Hlen & Hsq & _).
  exists D. split_and!; [done..| |].
  - exact (masked_distance_symmetric _ _ _ _ HX HD).
  - intros i k d Hd. apply masked_distance_positive in HD.
    by apply (item_elem_of _ _ _ _ _ HD) in Hd as [_ ?].
Qed.

Lemma X8_masked_distance_symmetric_witness :
  rect 1 (of_Zs [[1]; [2]; [3]; [4]]%Z) ∧
  ∃ D, masked_distance (of_Zs [[1]; [2]; [3]; [4]]%Z) 2 = Ok D ∧
       item D 0 3 = item D 3 0.
Proof.
  assert (rect 1 (of_Zs [[1]; [2]; [3]; [4]]%Z)) as H by (repeat constructor).
  split; [exact H|].
  destruct (X8_masked_distance_symmetric 1 _ 2 H) as (D & HD & _ & _ & Hsym & _).
  exists D. split; [exact HD|apply Hsym].
Defined.

(** X9.  In a turn of the loop, the neighbour [N[i, 0]] of row [i] is a row
    whose masked distance from row [i] is smallest in numpy's order, in
    which [nan] is above every number: no entry of row [i] of the masked
    array is below the distance [DN[i, 0]] returned with it; and this
    distance is the entry of the array at [(i, N[i, 0])], and is [nan],
    [+inf] or positive. *)
Theorem X9_nearest_is_row_minimum c (X_full : matrix) (neighbor_offset_min : Z)
    (taus : list Z) :
  rect c X_full → Forall (λ t, Z.to_nat t < c) taus →
  ∃ X D N0 DN0,
    take_columns X_full taus = Ok X ∧
    masked_distance X neighbor_offset_min = Ok D ∧
    nearest X_full neighbor_offset_min taus = Ok (N0, DN0) ∧
    length N0 = length X_full ∧ length DN0 = length X_full ∧
    ∀ i n d, N0 !! i = Some n → DN0 !! i = Some d →
      n < length X_full ∧ item D i n = Some d ∧
      (∀ j dj, item D i j = Some dj → np_lt dj d = false) ∧
      (F64.isnan d = true ∨ F64.ltb F64.zero d = true).
Proof.
  intros HX Ht. unfold nearest.
  rewrite (take_columns_rect c) by done. rewrite bind_ret_l.
  set (X := map _ X_full).
  assert (length X = length X_full) as HlenX by (unfold X; by rewrite length_map).
  assert (rect (length taus) X) as HrectX.
  { unfold X. apply Forall_fmap, Forall_forall. intros a _. cbn.
    by rewrite length_map. }
  destruct (masked_distance_rect _ X neighbor_offset_min HrectX)
    as (D & HD & HlenD & HsqD & _).
  pose proof (masked_distance_symmetric _ _ _ _ HrectX HD) as Hsym.
  pose proof (masked_distance_positive _ _ _ HD) as Hpos.
  rewrite HD, bind_ret_l. exists X, D.
  destruct (decide (length D = 0)) as [Hzero|Hpos'].
  { destruct D; [|done]. cbn in HlenD. cbn. exists [], [].
    split_and!; [done|done|done|cbn; lia|cbn; lia|].
    intros i n d Hn. by rewrite lookup_nil in Hn. }
  destruct (find_neighbors_symmetric D 1 HsqD Hsym)
    as (N & DN & -> & HlenN & HlenDN & Hrows); [lia|].
  rewrite bind_ret_l. cbn [fst snd].
  assert (∀ i Ni, N !! i = Some Ni →
            ∃ n Di, Ni = [n] ∧ D !! i = Some Di ∧ DN !! i = Some [Di !!! n] ∧
              n < length D ∧
              ∀ j, j < length D → np_lt (Di !!! j) (Di !!! n) = false) as Hrow.
  { intros i Ni HNi. pose proof (lookup_lt_Some _ _ _ HNi) as Hlt.
    destruct (lookup_lt_is_Some_2 DN i) as [DNi HDNi]; [lia|].
    destruct (lookup_lt_is_Some_2 D i) as [Di HDi]; [lia|].
    destruct (Hrows i Ni DNi Di HNi HDNi HDi)
      as (Hlen1 & _ & Hbound & -> & _ & Hmin).
    destruct Ni as [|n [|? ?]]; try done.
    apply Forall_cons in Hbound as [Hn _].
    exists n, Di. split_and!; [done..|].
    intros j Hj. destruct (decide (j = n)) as [->|Hne]; [apply np_lt_irrefl|].
    apply Hmin; [apply elem_of_cons; by left|done|].
    intros [->|[]%elem_of_nil]%elem_of_cons. done. }
  rewrite (column_rect 1 N 0); [|apply Forall_lookup|lia].
  2:{ intros i Ni (n & _ & -> & _)%Hrow. done. }
  rewrite bind_ret_l. rewrite (column_rect 1 DN 0); [|apply Forall_lookup|lia].
  2:{ intros i DNi HDNi. pose proof (lookup_lt_Some _ _ _ HDNi) as Hlt.
      destruct (lookup_lt_is_Some_2 N i) as [Ni HNi]; [lia|].
      destruct (Hrow i Ni HNi) as (n & Di & _ & _ & HDNi' & _).
      rewrite HDNi in HDNi'. by injection HDNi' as ->. }
  rewrite bind_ret_l. eexists _, _. split_and!; [done..| | |].
  { rewrite length_map. lia. }
  { rewrite length_map. lia. }
  intros i n d. rewrite !list_lookup_fmap.
  intros (Ni & HNi & ->)%fmap_Some (DNi & HDNi & ->)%fmap_Some.
  destruct (Hrow i Ni HNi) as (n & Di & -> & HDi & HDNi' & Hn & Hmin).
  rewrite HDNi in HDNi'. injection HDNi' as ->. cbn.
  assert (length Di = length D) as HlenDi by (eapply rect_lookup; eauto).
  assert (item D i n = Some (Di !!! n)) as Hitem.
  { apply item_Some. exists Di. split; [done|].
    apply list_lookup_lookup_total_lt. lia. }
  split_and!; [lia|done| |].
  - intros j dj (Di' & HDi' & Hdj)%item_Some.
    rewrite HDi in HDi'. injection HDi' as <-.
    pose proof (lookup_lt_Some _ _ _ Hdj) as Hj.
    rewrite <- (list_lookup_total_correct _ _ _ Hdj). apply Hmin. lia.
  - by apply (item_elem_of _ _ _ _ _ Hpos) in Hitem as [_ ?].
Qed.

Lemma X9_nearest_is_row_minimum_witness :
  rect 3 X16_full ∧
  ∃ N0 DN0, nearest X16_full 1 [0%Z] = Ok (N0, DN0) ∧
    N0 !! 2 = Some 1 ∧ DN0 !! 2 = Some (F64.of_Z 1).
Proof.
  assert (rect 3 X16_full) as H by (repeat constructor).
  split; [exact H|].
  destruct (X9_nearest_is_row_minimum 3 X16_full 1 [0%Z] H)
    as (X & D & N0 & DN0 & _ & _ & Hn & _ & _ & _).
  { repeat constructor. }
  exists N0, DN0. split; [exact Hn|].
  vm_compute in Hn. injection Hn as <- <-. split; reflexivity.
Defined.

(** X10.  The derivatives that enter the geometric mean of a candidate lag
    are all above zero (positive or [+inf]): nothing is divided by zero,
    since no neighbour distance is zero, and the logarithm is taken of
    positive arguments only, where [numpy.log] is the platform's logarithm
    of a finite number or [log(inf) = inf]: it never yields [-inf] or the
    [nan] of a negative argument. *)
Theorem X10_kept_derivatives_positive (X_full : matrix)
    (neighbor_offset_min : Z) (taus : list Z) N0 DN0 (tau_next : Z) deriv :
  nearest X_full neighbor_offset_min taus = Ok (N0, DN0) →
  derivs X_full N0 DN0 tau_next = Ok deriv →
  Forall (λ d, F64.eqb d F64.zero = false) DN0 ∧
  Forall (λ d, F64.ltb F64.zero d = true) deriv ∧
  ∀ log_fin : F64.float → F64.float,
    Forall (λ d, F64.is_finite d = true ∧ np_log log_fin d = log_fin d ∨
                 d = F64.inf ∧ np_log log_fin d = F64.inf) deriv.
Proof.
  intros Hn Hd.
  assert (Forall (λ d, not_negative d = true ∧
                       (F64.isnan d = true ∨ F64.ltb F64.zero d = true)) DN0)
    as HDN0.
  { revert Hn. apply nearest_entries
      with (Q := λ _, True) (P0 := λ d, not_negative d = true).
    - intros a b d _ _. apply row_sqdist_not_negative.
    - split; [done|by left].
    - apply masked_entry_positive.
    - apply Forall_forall. intros. apply Forall_True. }
  assert (Forall (λ d, F64.ltb F64.zero d = true) deriv) as Hpos.
  { revert Hd. unfold derivs.
    intros (Xnext & _ & (Xnext_N & _ & [= <-])%bind_Ok)%bind_Ok.
    apply Forall_filter_impl.
    apply Forall_zip_with
      with (P := λ a, not_negative a = true) (Q := λ b, not_negative b = true).
    - intros a b Ha Hb. unfold kept. intros [Hnan Hne]%andb_true_iff.
      apply not_negative_positive.
      + by apply div_not_negative.
      + by apply negb_true_iff.
      + by apply negb_true_iff.
    - apply Forall_zip_with with (P := λ _, True) (Q := λ _, True);
        [|apply Forall_True..].
      intros. apply abs_not_negative.
    - eapply Forall_impl; [exact HDN0|]. by intros ? [? _]. }
  split_and!; [|done|].
  - eapply Forall_impl; [exact HDN0|]. intros d [_ [Hnan|Hlt]].
    + by destruct d.
    + by destruct d as [[]|[]| |[] ? ?].
  - intros log_fin. eapply Forall_impl; [exact Hpos|]. intros d Hlt.
    destruct d as [[]|[]| |[] ? ?]; try done; [by right|by left].
Qed.

Lemma X10_kept_derivatives_positive_witness :
  ∃ N0 DN0 deriv,
    nearest X16_full 1 [0%Z] = Ok (N0, DN0) ∧
    derivs X16_full N0 DN0 1 = Ok deriv ∧
    Forall (λ d, F64.ltb F64.zero d = true) deriv.
Proof.
  destruct (nearest X16_full 1 [0%Z]) as [[N0 DN0]|e] eqn:Hn;
    [|vm_compute in Hn; discriminate].
  destruct (derivs X16_full N0 DN0 1) as [deriv|e] eqn:Hd.
  - exists N0, DN0, deriv. split; [reflexivity|]. split; [exact Hd|].
    exact (proj1 (proj2 (X10_kept_derivatives_positive _ _ _ _ _ _ _ Hn Hd))).
  - vm_compute in Hn. injection Hn as <- <-. vm_compute in Hd. discriminate.
Defined.

(** ** What a turn of the loop can raise *)

Section Turn.
Variable log_fin exp_fin : F64.float → F64.float.
Variable X_full : matrix.
Variable E_max neighbor_offset_min : Z.
Hypothesis X_full_rect : rect (Z.to_nat E_max) X_full.

(** With every lag and every candidate a column of [X_full], the scores of
    a turn do not raise, and the turn is settled by them. *)
Lemma next_lag_by_scores (taus : list Z) :
  Forall (λ t, 0 ≤ t ≤ E_max - 1)%Z taus → (0 ≤ last_lag taus)%Z →
  ∃ N0 DN0 deriv,
    nearest X_full neighbor_offset_min taus = Ok (N0, DN0) ∧
    (∀ c, (last_lag taus < c < E_max)%Z →
       derivs X_full N0 DN0 c = Ok (deriv c)) ∧
    next_lag log_fin exp_fin X_full E_max neighbor_offset_min taus =
      match (best_pure
               (λ c, np_exp exp_fin (np_mean (map (np_log log_fin) (deriv c))))
               (range (last_lag taus + 1) E_max) F64.zero None).2 with
      | None => Raise EmbeddingFailure
      | Some tau => Ok tau
      end.
Proof.
  intros Htaus Hlast.
  destruct (nearest_rect (Z.to_nat E_max) X_full neighbor_offset_min taus
              X_full_rect) as (N0 & DN0 & Hn & _ & _ & HN0).
  { eapply Forall_impl; [exact Htaus|]. cbn. intros t. lia. }
  set (deriv := λ c, match derivs X_full N0 DN0 c with
                     | Ok d => d | Raise _ => [] end).
  assert (∀ c, (last_lag taus < c < E_max)%Z →
            derivs X_full N0 DN0 c = Ok (deriv c)) as Hd.
  { intros c Hc.
    destruct (derivs_rect (Z.to_nat E_max) X_full N0 DN0 c X_full_rect)
      as [d Hd]; [lia|done|].
    unfold deriv. by rewrite Hd. }
  exists N0, DN0, deriv. split; [done|]. split; [done|].
  apply next_lag_scored with (N0 := N0) (DN0 := DN0); [done|].
  apply Forall_forall. intros c Hc%elem_of_range.
  apply geo_mean_deriv_Ok. exists (deriv c). split; [|done]. apply Hd. lia.
Qed.

Lemma next_lag_raises_failure (taus : list Z) e :
  lags_inv E_max taus →
  next_lag log_fin exp_fin X_full E_max neighbor_offset_min taus = Raise e →
  e = EmbeddingFailure.
Proof.
  intros Hinv.
  destruct (next_lag_by_scores taus) as (N0 & DN0 & deriv & _ & _ & ->).
  - by apply lags_inv_bounds.
  - destruct Hinv as (_ & _ & Hall & _).
    destruct taus as [|t taus]; [done|].
    apply Forall_cons in Hall as [? _]. lia.
  - destruct (best_pure _ _ _ _).2; [done|congruence].
Qed.

Lemma greedy_run_raises_failure (taus : list Z) n e :
  greedy_run log_fin exp_fin X_full E_max neighbor_offset_min taus n (Raise e) →
  lags_inv E_max taus → e = EmbeddingFailure.
Proof.
  remember (Raise e) as r eqn:Hr. intros Hrun. revert Hr.
  induction Hrun as [taus Hc|taus e' Hc He|taus tau n r Hc Ht Hrun IH];
    intros Hr Hinv.
  - done.
  - injection Hr as <-. by eapply next_lag_raises_failure.
  - apply IH; [done|]. apply lags_inv_snoc; [done|].
    by eapply next_lag_bound.
Qed.

Lemma take_columns_lags (taus : list Z) :
  lags_inv E_max taus →
  take_columns X_full taus =
    Ok (map (λ row, map (λ t, row !!! Z.to_nat t) taus) X_full).
Proof.
  intros Hinv%lags_inv_bounds.
  apply (take_columns_rect (Z.to_nat E_max)); [done|].
  eapply Forall_impl; [exact Hinv|]. cbn. intros t. lia.
Qed.

End Turn.

(** ** The entries of an embedding *)

Lemma lookup_total_entries (P : F64.float → Prop) (l : vector) k :
  P F64.nan → Forall P l → P (l !!! k).
Proof.
  intros Hnan Hl. destruct (l !! k) as [a|] eqn:Hk.
  - rewrite (list_lookup_total_correct _ _ _ Hk).
    by eapply (proj1 (Forall_lookup _ _) Hl).
  - rewrite list_lookup_total_alt, Hk. done.
Qed.

Lemma assign_column_from_entries (P : F64.float → Prop) (X : matrix) start i
    src X' :
  P F64.nan → Forall P src → Forall (Forall P) X →
  assign_column_from X start i src = Ok X' → Forall (Forall P) X'.
Proof.
  intros Hnan Hsrc HX. unfold assign_column_from.
  assert (∀ f : nat → F64.float, (∀ r, P (f r)) →
            Forall (Forall P)
              (imap (λ r row, if decide (start ≤ r) then <[i := f r]> row
                              else row) X)) as Himap.
  { intros f Hf. apply Forall_lookup. intros r row.
    rewrite list_lookup_imap. intros (row0 & Hrow0 & ->)%fmap_Some.
    pose proof (proj1 (Forall_lookup _ _) HX _ _ Hrow0) as HP.
    case_decide; [|done].
    destruct (decide (i < length row0)).
    - by apply Forall_insert.
    - by rewrite list_insert_ge by lia. }
  repeat case_decide; intros [= <-]; apply Himap; intros r;
    by apply lookup_total_entries.
Qed.

Lemma fill_lagged_entries (P : F64.float → Prop) (x : vector) taus :
  P F64.nan → Forall P x →
  ∀ X i X', Forall (Forall P) X → fill_lagged x X i taus = Ok X' →
    Forall (Forall P) X'.
Proof.
  intros Hnan Hx. induction taus as [|tau taus IH]; intros X i X' HX; cbn.
  - by intros [= <-].
  - destruct (tau <? 0)%Z; [done|].
    intros (X1 & H1 & Hrest)%bind_Ok.
    eapply IH; [|exact Hrest].
    eapply assign_column_from_entries; [done| |done|exact H1].
    unfold slice_to. by apply Forall_take.
Qed.

(** Every entry of an embedding is [nan] or an entry of the series. *)
Lemma make_partial_embedding_values (P : F64.float → Prop) (x : vector) taus
    preserve_indices X :
  P F64.nan → Forall P x →
  make_partial_embedding x taus preserve_indices = Ok X → Forall (Forall P) X.
Proof.
  intros Hnan Hx. unfold make_partial_embedding.
  intros (X0 & H0 & HX)%bind_Ok.
  assert (Forall (Forall P) X0) as HX0.
  { eapply fill_lagged_entries; [done|done| |exact H0].
    apply Forall_replicate. by apply Forall_replicate. }
  destruct preserve_indices; [by injection HX as <-|].
  apply bind_Ok in HX as (m & _ & [= <-]). by apply Forall_drop.
Qed.

Lemma make_full_embedding_values (P : F64.float → Prop) (x : vector) E tau
    preserve_indices X :
  P F64.nan → Forall P x →
  make_full_embedding x E tau preserve_indices = Ok X → Forall (Forall P) X.
Proof.
  intros Hnan Hx. unfold make_full_embedding.
  destruct (negb _); [done|]. destruct (negb _); [done|].
  by apply make_partial_embedding_values.
Qed.

(** ** A series of one value *)

Lemma sub_self_zero_or_nan c : F64.sub c c = F64.zero ∨ F64.sub c c = F64.nan.
Proof.
  destruct c as [[]|[]| |s m e]; try (by left); try (by right).
  left. by apply sub_diag.
Qed.

Lemma sub_nan_r a : F64.sub a F64.nan = F64.nan.
Proof. by destruct a. Qed.

Lemma np_sum_zero_or_nan (v : vector) :
  Forall (λ a, a = F64.zero ∨ a = F64.nan) v →
  np_sum v = F64.zero ∨ np_sum v = F64.nan.
Proof.
  apply (np_sum_closed (λ a, a = F64.zero ∨ a = F64.nan)); [|by left].
  intros a b [->| ->] [->| ->]; by (left + right).
Qed.

Lemma filter_none {A} (P : A → Prop) `{!∀ a, Decision (P a)} (l : list A) :
  Forall (λ a, ¬ P a) l → filter P l = [].
Proof.
  induction 1 as [|a l Ha _ IH]; [done|]. by rewrite filter_cons_False.
Qed.

Section Constant.
Variable c : F64.float.

Local Abbreviation Q := (λ v : F64.float, v = c ∨ v = F64.nan).

Lemma constant_sub (a b : F64.float) :
  Q a → Q b → F64.sub a b = F64.zero ∨ F64.sub a b = F64.nan.
Proof.
  intros [->| ->] [->| ->]; [apply sub_self_zero_or_nan|right..]; try done.
  apply sub_nan_r.
Qed.

Lemma constant_row_sqdist (a b : vector) d :
  Forall Q a → Forall Q b → row_sqdist a b = Ok d →
  d = F64.zero ∨ d = F64.nan.
Proof.
  intros Ha Hb. unfold row_sqdist. intros (v & Hv & [= <-])%bind_Ok.
  apply np_sum_zero_or_nan, Forall_fmap.
  assert (Forall (λ w, w = F64.zero ∨ w = F64.nan) v) as Hw.
  { revert Hv. unfold broadcast2. repeat case_decide; intros [= <-].
    - apply Forall_zip_with with (P := Q) (Q := Q); [|done..].
      intros. by apply constant_sub.
    - apply Forall_fmap. eapply Forall_impl; [exact Hb|]. cbn. intros w Hw.
      apply constant_sub; [done|]. by apply lookup_total_entries; [right|].
    - apply Forall_fmap. eapply Forall_impl; [exact Ha|]. cbn. intros w Hw.
      apply constant_sub; [|done]. by apply lookup_total_entries; [right|]. }
  eapply Forall_impl; [exact Hw|]. cbn. intros w [->| ->]; by (left + right).
Qed.

(** With a constant series no derivative is kept: all differences are zero
    or [nan], and all neighbour distances [inf] or [nan]. *)
Lemma constant_derivs (X_full : matrix) N0 DN0 tau deriv :
  Forall (Forall Q) X_full → Forall (λ d, d = F64.inf ∨ d = F64.nan) DN0 →
  derivs X_full N0 DN0 tau = Ok deriv → deriv = [].
Proof.
  intros HX HDN. unfold derivs.
  intros (Xnext & Hnext & (Xnext_N & HN & [= <-])%bind_Ok)%bind_Ok.
  apply filter_none.
  apply Forall_zip_with
    with (P := λ w, w = F64.zero ∨ w = F64.nan)
         (Q := λ d, d = F64.inf ∨ d = F64.nan).
  - intros w d [->| ->] [->| ->]; done.
  - apply Forall_zip_with with (P := Q) (Q := Q).
    + intros a b Ha Hb.
      destruct (constant_sub a b Ha Hb) as [->| ->]; by (left + right).
    + by eapply column_entries.
    + eapply take_items_entries; [|exact HN]. by eapply column_entries.
  - done.
Qed.

End Constant.

(** X11.  On a series whose [N] values are all the same (a number, an
    infinity or [nan]), [nichkawde_embedding] with [2 <= E_max <= N + 1]
    raises "could not calculate max derivative" in its first turn: every
    distance is zero or [nan], so every neighbour distance is [inf] or
    [nan]; every difference of a candidate column is zero or [nan]; no
    derivative is kept for any candidate lag, and every score is [nan]. *)
Theorem X11_constant_series_fails (log_fin exp_fin : F64.float → F64.float)
    (c : F64.float) (N : nat) (E_max neighbor_offset_min : Z)
    (preserve_indices : bool) :
  (2 ≤ E_max ≤ Z.of_nat N + 1)%Z →
  nichkawde_run log_fin exp_fin (replicate N c) E_max neighbor_offset_min
    preserve_indices (Raise EmbeddingFailure) ∧
  ∀ fuel,
    nichkawde_embedding log_fin exp_fin (S fuel) (replicate N c) E_max
      neighbor_offset_min preserve_indices = Some (Raise EmbeddingFailure).
Proof.
  intros HE.
  destruct (make_full_embedding (replicate N c) E_max 1 preserve_indices)
    as [X_full|e] eqn:HX.
  2:{ unfold make_full_embedding in HX.
      destruct (Z.ltb_spec 0 E_max); [|lia]. cbn in HX.
      apply make_partial_embedding_arange_raises in HX as (_ & j & Hj & Hbad);
        [|lia..].
      rewrite length_replicate in Hbad. lia. }
  pose proof (make_full_embedding_shape _ _ _ _ HX) as (_ & Hrect & _).
  assert (Forall (Forall (λ v, v = c ∨ v = F64.nan)) X_full) as HQ.
  { eapply make_full_embedding_values; [by right| |exact HX].
    apply Forall_replicate. by left. }
  destruct (next_lag_by_scores log_fin exp_fin X_full E_max neighbor_offset_min
              Hrect [0%Z]) as (N0 & DN0 & deriv & Hn & Hd & Hnext).
  { repeat constructor; lia. }
  { done. }
  assert (Forall (λ d, d = F64.inf ∨ d = F64.nan) DN0) as HDN.
  { revert Hn. apply nearest_entries
      with (Q := λ v, v = c ∨ v = F64.nan)
           (P0 := λ d, d = F64.zero ∨ d = F64.nan).
    - apply constant_row_sqdist.
    - by right.
    - intros d [->| ->]; by (left + right).
    - done. }
  assert (next_lag log_fin exp_fin X_full E_max neighbor_offset_min [0%Z]
          = Raise EmbeddingFailure) as Hraise.
  { rewrite Hnext.
    destruct (best_pure_spec
                (λ c, np_exp exp_fin (np_mean (map (np_log log_fin) (deriv c))))
                (range (last_lag [0%Z] + 1) E_max) F64.zero None)
      as [[Hr _]|(pre & tau & post & Hsplit & _ & Hpos & _)].
    - cbn zeta in Hr. by rewrite Hr.
    - destruct (range_split _ _ _ _ _ tau Hsplit) as (_ & _ & Hrt).
      rewrite (constant_derivs c X_full N0 DN0 tau (deriv tau)) in Hpos;
        [|done|done|apply Hd; lia].
      cbn [map] in Hpos. by rewrite np_mean_nil in Hpos. }
  assert ((last_lag [0%Z] <? E_max - 1)%Z = true) as Hcond.
  { apply Z.ltb_lt. cbn. lia. }
  split.
  - apply (embed_loop log_fin exp_fin _ _ _ _ X_full 1 (Raise EmbeddingFailure));
      [done|]. by apply run_raise.
  - intros fuel. unfold nichkawde_embedding. rewrite HX.
    cbn [greedy_loop]. by rewrite Hcond, Hraise.
Qed.

Lemma X11_constant_series_fails_witness :
  (2 ≤ 3 ≤ Z.of_nat 6 + 1)%Z ∧
  nichkawde_embedding coarse_log coarse_exp 1 (replicate 6 (F64.of_Z 7)) 3 1 true
    = Some (Raise EmbeddingFailure).
Proof.
  assert (2 ≤ 3 ≤ Z.of_nat 6 + 1)%Z as H by lia.
  split; [exact H|].
  exact (proj2 (X11_constant_series_fails coarse_log coarse_exp
                  (F64.of_Z 7) 6 3 1 true H) 0).
Defined.

(** ** A window that covers the series *)

Lemma entries_of_items (P : F64.float → Prop) c (D : matrix) :
  rect c D →
  (∀ i k d, i < length D → k < c → item D i k = Some d → P d) →
  Forall (Forall P) D.
Proof.
  intros HD Hitem. apply Forall_lookup. intros i row Hrow.
  apply Forall_lookup. intros k d Hd.
  apply (Hitem i k d).
  - by eapply lookup_lt_Some.
  - rewrite <- (rect_lookup _ _ _ _ HD Hrow). by eapply lookup_lt_Some.
  - apply item_Some. eauto.
Qed.

Lemma make_full_embedding_length (x : vector) E tau preserve_indices X :
  make_full_embedding x E tau preserve_indices = Ok X → length X ≤ length x.
Proof.
  unfold make_full_embedding.
  destruct (negb _); [done|]. destruct (negb _); [done|].
  unfold make_partial_embedding. intros (X0 & H0 & HX)%bind_Ok.
  apply (fill_lagged_shape 0) in H0 as [Hlen _].
  rewrite length_replicate in Hlen.
  destruct preserve_indices; [injection HX as <-; lia|].
  apply bind_Ok in HX as (m & _ & [= <-]). rewrite length_drop. lia.
Qed.

Lemma div_nan_r a : F64.div a F64.nan = F64.nan.
Proof. by destruct a. Qed.

(** X12.  When [neighbor_offset_min] is at least the length of the series,
    every entry of the distance matrix is masked, every neighbour distance
    is [nan], and no derivative is kept: [nichkawde_embedding] with
    [2 <= E_max <= N + 1] raises "could not calculate max derivative" in
    its first turn, whatever the values of the series. *)
Theorem X12_window_covers_series (log_fin exp_fin : F64.float → F64.float)
    (x : vector) (E_max neighbor_offset_min : Z) (preserve_indices : bool) :
  (2 ≤ E_max ≤ Z.of_nat (length x) + 1)%Z →
  (Z.of_nat (length x) ≤ neighbor_offset_min)%Z →
  nichkawde_run log_fin exp_fin x E_max neighbor_offset_min preserve_indices
    (Raise EmbeddingFailure) ∧
  ∀ fuel,
    nichkawde_embedding log_fin exp_fin (S fuel) x E_max neighbor_offset_min
      preserve_indices = Some (Raise EmbeddingFailure).
Proof.
  intros HE Hm.
  destruct (make_full_embedding x E_max 1 preserve_indices)
    as [X_full|e] eqn:HX.
  2:{ unfold make_full_embedding in HX.
      destruct (Z.ltb_spec 0 E_max); [|lia]. cbn in HX.
      apply make_partial_embedding_arange_raises in HX as (_ & j & Hj & Hbad);
        lia. }
  pose proof (make_full_embedding_shape _ _ _ _ HX) as (_ & Hrect & _).
  pose proof (make_full_embedding_length _ _ _ _ _ HX) as Hrows.
  destruct (next_lag_by_scores log_fin exp_fin X_full E_max neighbor_offset_min
              Hrect [0%Z]) as (N0 & DN0 & deriv & Hn & Hd & Hnext).
  { repeat constructor; lia. }
  { done. }
  assert (Forall (λ d, d = F64.nan) DN0) as HDN.
  { revert Hn. unfold nearest.
    intros (X & HXt & (D & HD & ([N DN] & Hfn & (N0' & _ & (DN0' & Hcol & [= _ <-])%bind_Ok)%bind_Ok)%bind_Ok)%bind_Ok)%bind_Ok.
    eapply column_entries; [|exact Hcol]. cbn.
    eapply find_neighbors_entries; [|exact Hfn].
    apply take_columns_shape in HXt as [HlenX HrectX].
    destruct (masked_distance_rect _ X neighbor_offset_min HrectX)
      as (D' & HD' & HlenD & HsqD & Hitem).
    rewrite HD in HD'. injection HD' as <-.
    apply (entries_of_items _ (length D)); [done|].
    intros i k d Hi Hk. rewrite Hitem by lia.
    rewrite decide_True by lia. by intros [= <-]. }
  assert (next_lag log_fin exp_fin X_full E_max neighbor_offset_min [0%Z]
          = Raise EmbeddingFailure) as Hraise.
  { rewrite Hnext.
    destruct (best_pure_spec
                (λ c, np_exp exp_fin (np_mean (map (np_log log_fin) (deriv c))))
                (range (last_lag [0%Z] + 1) E_max) F64.zero None)
      as [[Hr _]|(pre & tau & post & Hsplit & _ & Hpos & _)].
    - cbn zeta in Hr. by rewrite Hr.
    - destruct (range_split _ _ _ _ _ tau Hsplit) as (_ & _ & Hrt).
      assert (deriv tau = []) as Hnil.
      { specialize (Hd tau). revert Hd. unfold derivs.
        intros (Xnext & _ & (Xnext_N & _ & [= <-])%bind_Ok)%bind_Ok; [|lia].
        apply filter_none.
        apply Forall_zip_with with (P := λ _, True) (Q := λ d, d = F64.nan);
          [|apply Forall_True|done].
        intros a d _ ->. by rewrite div_nan_r. }
      rewrite Hnil in Hpos. cbn [map] in Hpos. by rewrite np_mean_nil in Hpos. }
  assert ((last_lag [0%Z] <? E_max - 1)%Z = true) as Hcond.
  { apply Z.ltb_lt. cbn. lia. }
  split.
  - apply (embed_loop log_fin exp_fin _ _ _ _ X_full 1 (Raise EmbeddingFailure));
      [done|]. by apply run_raise.
  - intros fuel. unfold nichkawde_embedding. rewrite HX.
    cbn [greedy_loop]. by rewrite Hcond, Hraise.
Qed.

Lemma X12_window_covers_series_witness :
  (2 ≤ 3 ≤ Z.of_nat (length x16) + 1)%Z ∧
  nichkawde_embedding coarse_log coarse_exp 1 x16 3 6 true
    = Some (Raise EmbeddingFailure).
Proof.
  assert (2 ≤ 3 ≤ Z.of_nat (length x16) + 1)%Z as H by (cbn; lia).
  split; [exact H|].
  refine (proj2 (X12_window_covers_series coarse_log coarse_exp x16 3 6 true
                   H _) 0).
  cbn. lia.
Defined.

(** ** The outcomes of [nichkawde_embedding] *)

(** X13.  [nichkawde_embedding] raises [AssertionError] exactly when
    [E_max <= 0], and [ValueError] exactly when the series has at least
    three values and [E_max >= N + 2] (the lag [N + 1] of the full candidate
    matrix does not fit); it never raises [IndexError]; and the failure to
    find a lag can only come from a turn of the loop, so from
    [E_max >= 2]. *)
Theorem X13_nichkawde_embedding_raises (log_fin exp_fin : F64.float → F64.float)
    (x : vector) (E_max neighbor_offset_min : Z) (preserve_indices : bool)
    (out : result (list Z * matrix)) :
  nichkawde_run log_fin exp_fin x E_max neighbor_offset_min preserve_indices
    out →
  (out = Raise AssertionError ↔ (E_max ≤ 0)%Z) ∧
  (out = Raise ValueError ↔
   (3 ≤ Z.of_nat (length x) ∧ Z.of_nat (length x) + 2 ≤ E_max)%Z) ∧
  out ≠ Raise IndexError ∧
  (out = Raise EmbeddingFailure → (2 ≤ E_max)%Z).
Proof.
  intros [e He|X_full n r HX Hrun].
  - unfold make_full_embedding in He.
    destruct (Z.ltb_spec 0 E_max) as [HE|HE]; cbn in He.
    + apply make_partial_embedding_arange_raises in He as (-> & j & Hj & Hbad);
        [|lia..].
      split_and!; [split; [done|lia]|split; [lia|done]|done|done].
    + injection He as <-.
      split_and!; [done|split; [done|lia]|done|done].
  - pose proof (make_full_embedding_shape _ _ _ _ HX) as (HE & Hrect & _).
    assert (¬ (3 ≤ Z.of_nat (length x) ∧ Z.of_nat (length x) + 2 ≤ E_max)%Z)
      as Hfits.
    { intros [H3 HN].
      assert (make_full_embedding x E_max 1 preserve_indices = Raise ValueError)
        as Hr; [|congruence].
      unfold make_full_embedding. destruct (Z.ltb_spec 0 E_max); [|lia]. cbn.
      apply make_partial_embedding_arange_raises; [lia..|].
      split; [done|]. exists (Z.of_nat (length x) + 1)%Z. lia. }
    destruct r as [taus|e]; cbn.
    + destruct (greedy_run_inv _ _ _ _ _ _ _ _ Hrun (lags_inv_init _ HE))
        as [Hinv _].
      rewrite (take_columns_lags _ _ Hrect _ Hinv). cbn.
      split_and!; [split; [done|lia]|split; [done|lia]|done|done].
    + assert (e = EmbeddingFailure) as ->.
      { eapply greedy_run_raises_failure; [exact Hrect|exact Hrun|].
        by apply lags_inv_init. }
      split_and!; [split; [done|lia]|split; [done|lia]|done|].
      intros _. inversion Hrun as [|? ? Hc|? ? ? ? Hc];
        apply Z.ltb_lt in Hc; cbn in Hc; lia.
Qed.

Lemma X13_nichkawde_embedding_raises_witness :
  nichkawde_run coarse_log coarse_exp x123 5 1 true (Raise ValueError) ∧
  (3 ≤ Z.of_nat (length x123) ∧ Z.of_nat (length x123) + 2 ≤ 5)%Z.
Proof.
  assert (nichkawde_run coarse_log coarse_exp x123 5 1 true (Raise ValueError))
    as H by (by apply embed_no_matrix).
  split; [exact H|].
  by apply (X13_nichkawde_embedding_raises _ _ _ _ _ _ _ H).
Defined.

Lemma take_columns_single (x : vector) :
  take_columns (map (λ v, [v]) x) [0%Z] = Ok (map (λ v, [v]) x).
Proof.
  rewrite (take_columns_rect 1);
    [|apply Forall_fmap, Forall_forall; done|repeat constructor].
  f_equal. rewrite <- list_fmap_compose. reflexivity.
Qed.

(** X14.  For [E_max = 1] the loop is not entered: whatever the series,
    the offset and [preserve_indices], [nichkawde_embedding] returns the
    single lag 0 and the series as a matrix of one column, and nothing is
    computed that could raise. *)
Theorem X14_single_dimension (log_fin exp_fin : F64.float → F64.float)
    (x : vector) (neighbor_offset_min : Z) (preserve_indices : bool)
    (fuel : nat) :
  make_full_embedding x 1 1 preserve_indices = Ok (map (λ v, [v]) x) ∧
  nichkawde_embedding log_fin exp_fin fuel x 1 neighbor_offset_min
    preserve_indices = Some (Ok ([0%Z], map (λ v, [v]) x)).
Proof.
  assert (make_full_embedding x 1 1 preserve_indices = Ok (map (λ v, [v]) x))
    as HX.
  { unfold make_full_embedding. cbn [negb Z.ltb Z.compare].
    change (arange (1 * 1) 1) with [0%Z].
    assert (make_partial_embedding x [0%Z] true = Ok (map (λ v, [v]) x)) as Ht.
    { unfold make_partial_embedding. cbn [fill_lagged Z.ltb Z.compare length].
      unfold slice_to, assign_column_from.
      rewrite Z.sub_0_r. destruct (Z.ltb_spec (Z.of_nat (length x)) 0); [lia|].
      rewrite Nat2Z.id, firstn_all, length_replicate.
      change (Z.to_nat 0) with 0. rewrite Nat.sub_0_r, decide_True by done.
      rewrite !bind_ret_l. f_equal. apply list_eq. intros r.
      rewrite list_lookup_imap, list_lookup_fmap.
      destruct (decide (r < length x)) as [Hr|Hr].
      - rewrite lookup_replicate_2 by done.
        rewrite (list_lookup_lookup_total_lt x r) by done. cbn.
        by rewrite Nat.sub_0_r.
      - rewrite (proj1 (lookup_replicate_None _ _ _)) by lia.
        by rewrite lookup_ge_None_2 by lia. }
    destruct preserve_indices; [done|].
    by rewrite make_partial_embedding_dropped, Ht. }
  split; [exact HX|].
  unfold nichkawde_embedding. rewrite HX.
  assert (greedy_loop log_fin exp_fin fuel (map (λ v, [v]) x) 1
            neighbor_offset_min [0%Z] = Some (Ok [0%Z])) as ->
    by (by destruct fuel).
  cbn. f_equal.
  by rewrite take_columns_single.
Qed.

(** ** The matrix returned *)

Lemma matrix_eq c (X Y : matrix) :
  length X = length Y → rect c X → rect c Y →
  (∀ r j, r < length X → j < c → item X r j = item Y r j) → X = Y.
Proof.
  intros Hlen HX HY Hitem.
  apply (list_eq_same_length X Y (length X)); [done|done|].
  intros r rowX rowY Hr HrX HrY.
  apply (list_eq_same_length rowX rowY c);
    [exact (rect_lookup _ _ _ _ HY HrY)|exact (rect_lookup _ _ _ _ HX HrX)|].
  intros j a b Hj Ha Hb. specialize (Hitem r j Hr Hj). unfold item in Hitem.
  rewrite HrX, HrY in Hitem. cbn in Hitem. congruence.
Qed.

Lemma last_lag_elem_of (taus : list Z) : taus ≠ [] → last_lag taus ∈ taus.
Proof.
  destruct (decide (taus = [])) as [->|Hne]; [done|]. intros _.
  destruct (exists_last Hne) as (pre & t & ->).
  rewrite last_lag_snoc. apply elem_of_app. right. apply elem_of_cons. by left.
Qed.

Lemma greedy_run_exit log_fin exp_fin X_full E_max m taus n taus' :
  greedy_run log_fin exp_fin X_full E_max m taus n (Ok taus') →
  (E_max - 1 ≤ last_lag taus')%Z.
Proof.
  remember (Ok taus') as r eqn:Hr. intros Hrun. revert Hr.
  induction Hrun as [taus Hc|taus e' Hc He|taus tau n r Hc Ht Hrun IH];
    intros Hr; [|done|by apply IH].
  injection Hr as <-. by apply Z.ltb_ge in Hc.
Qed.

(** X15.  When [nichkawde_embedding] returns the lags [taus] and the matrix
    [M], the last lag is [E_max - 1], and [M] is the partial embedding of
    the series for the lags: what [make_partial_embedding(x, taus,
    preserve_indices)] returns. *)
Theorem X15_returned_is_partial_embedding
    (log_fin exp_fin : F64.float → F64.float) (x : vector)
    (E_max neighbor_offset_min : Z) (preserve_indices : bool)
    (taus : list Z) (M : matrix) :
  nichkawde_run log_fin exp_fin x E_max neighbor_offset_min preserve_indices
    (Ok (taus, M)) →
  last_lag taus = (E_max - 1)%Z ∧
  make_partial_embedding x taus preserve_indices = Ok M.
Proof.
  inversion 1 as [e He Hout|X_full n r HX Hrun Hout].
  destruct r as [taus'|e]; [|done]. unfold embedding_of in Hout.
  rewrite bind_ret_l in Hout.
  pose proof (make_full_embedding_shape _ _ _ _ HX) as (HE & Hrect & _).
  destruct (greedy_run_inv _ _ _ _ _ _ _ _ Hrun (lags_inv_init _ HE))
    as [Hinv _].
  rewrite (take_columns_lags _ _ Hrect _ Hinv) in Hout.
  injection Hout as -> <-.
  pose proof (greedy_run_exit _ _ _ _ _ _ _ _ Hrun) as Hexit.
  pose proof (lags_inv_bounds _ _ Hinv) as Hbounds.
  assert (taus ≠ []) as Hne by (destruct Hinv as ([? ->] & _); done).
  assert (last_lag taus = E_max - 1)%Z as Hlast.
  { destruct Hinv as (_ & _ & _ & ?). lia. }
  split; [done|].
  unfold make_full_embedding in HX.
  destruct (Z.ltb_spec 0 E_max); [|lia]. cbn in HX. rewrite arange_unit in HX.
  pose proof (make_partial_embedding_outcome x (range 0 E_max)) as Hout0.
  destruct (make_partial_embedding x (range 0 E_max) true) as [X0|e0] eqn:HX0.
  2:{ destruct preserve_indices; [congruence|].
      by rewrite make_partial_embedding_dropped, HX0 in HX. }
  destruct Hout0 as (Hfits0 & Hlen0 & Hrect0 & Hitem0).
  pose proof (make_partial_embedding_outcome x taus) as Ht.
  destruct (make_partial_embedding x taus true) as [Xt|et] eqn:HXt.
  2:{ destruct Ht as (pre & t & post & -> & _ & Hbad).
      assert (lag_fits (length x) t) as Hfit%lag_fits_not_bad; [|lia].
      apply (proj1 (Forall_forall _ _) Hfits0), elem_of_range.
      apply Forall_app in Hbounds as [_ Hb].
      apply Forall_cons in Hb as [? _]. lia. }
  destruct Ht as (_ & Hlent & Hrectt & Hitemt).
  assert (Xt = map (λ row, map (λ t, row !!! Z.to_nat t) taus) X0) as Heq.
  { apply (matrix_eq (length taus)); [by rewrite length_map, Hlen0|done| |].
    { apply Forall_fmap, Forall_forall. intros ? _. cbn. by rewrite length_map. }
    intros r j Hr Hj. rewrite Hlent in Hr.
    destruct (lookup_lt_is_Some_2 taus j Hj) as [t Htj].
    rewrite (Hitemt r j t) by done.
    pose proof (proj1 (Forall_lookup _ _) Hbounds _ _ Htj) as Hb. cbn in Hb.
    assert (item X0 r (Z.to_nat t) =
            Some (if decide (Z.to_nat t ≤ r) then x !!! (r - Z.to_nat t)
                  else F64.nan)) as Hi.
    { apply Hitem0; [done|]. apply range_lookup. lia. }
    apply item_Some in Hi as (row0 & Hrow0 & Hv).
    unfold item. rewrite list_lookup_fmap, Hrow0. cbn.
    rewrite list_lookup_fmap, Htj. cbn.
    by rewrite (list_lookup_total_correct _ _ _ Hv). }
  destruct preserve_indices.
  - rewrite HX0 in HX. injection HX as <-. by rewrite HXt, Heq.
  - rewrite make_partial_embedding_dropped, HX0, bind_ret_l in HX.
    rewrite make_partial_embedding_dropped, HXt, bind_ret_l.
    destruct (np_max (range 0 E_max)) as [m0|?] eqn:Hm0; [|done].
    rewrite bind_ret_l in HX. injection HX as <-.
    destruct (np_max taus) as [mt|?] eqn:Hmt; [|by destruct taus].
    rewrite bind_ret_l.
    assert (m0 = E_max - 1)%Z as ->.
    { pose proof (np_max_ge _ _ Hm0) as Hge.
      apply np_max_elem_of, elem_of_range in Hm0.
      assert (E_max - 1 ≤ m0)%Z; [|lia].
      apply (proj1 (Forall_forall _ _) Hge), elem_of_range. lia. }
    assert (mt = E_max - 1)%Z as ->.
    { pose proof (np_max_ge _ _ Hmt) as Hge.
      apply np_max_elem_of in Hmt.
      pose proof (proj1 (Forall_forall _ _) Hbounds _ Hmt) as Hb. cbn in Hb.
      assert (last_lag taus ≤ mt)%Z; [|lia].
      apply (proj1 (Forall_forall _ _) Hge). by apply last_lag_elem_of. }
    by rewrite Heq, fmap_drop.
Qed.

Lemma X15_returned_is_partial_embedding_witness :
  nichkawde_run coarse_log coarse_exp x16 3 1 true
    (Ok ([0; 1; 2]%Z, X16_full)) ∧
  make_partial_embedding x16 [0; 1; 2]%Z true = Ok X16_full.
Proof.
  assert (nichkawde_run coarse_log coarse_exp x16 3 1 true
            (Ok ([0; 1; 2]%Z, X16_full))) as H.
  { apply (nichkawde_embedding_run _ _ _ _ _ _ 2). vm_compute. reflexivity. }
  split; [exact H|].
  exact (proj2 (X15_returned_is_partial_embedding _ _ _ _ _ _ _ _ H)).
Defined.

(** ** [find_neighbors] on arrays that need not be symmetric *)

(** X16.  On a square array [D] and [1 <= k <= len(D)], the indices
    [find_neighbors] returns for row [i] are [k] different rows of [D],
    those with the smallest entries of column [i] in numpy's order ([nan]
    above every number), in ascending order of these entries; the
    distances returned with them are the entries of row [i] at these
    indices. *)
Theorem X16_find_neighbors_along_columns (D : matrix) (k : Z) :
  square D → (1 ≤ k ≤ Z.of_nat (length D))%Z →
  ∃ N DN, find_neighbors D k = Ok (N, DN) ∧
    length N = length D ∧ length DN = length D ∧
    ∀ i Ni, N !! i = Some Ni →
      length Ni = Z.to_nat k ∧ NoDup Ni ∧ Forall (λ n, n < length D) Ni ∧
      DN !! i = Some (map (λ n, (D !!! i) !!! n) Ni) ∧
      (∀ a b na nb, a < b → Ni !! a = Some na → Ni !! b = Some nb →
         np_lt ((D !!! nb) !!! i) ((D !!! na) !!! i) = false) ∧
      (∀ n j, n ∈ Ni → j < length D → j ∉ Ni →
         np_lt ((D !!! j) !!! i) ((D !!! n) !!! i) = false).
Proof.
  intros Hsq Hk.
  destruct (find_neighbors_square D k Hsq)
    as (N & DN & HN & HlenN & HlenDN & Hrows); [lia|right; lia|].
  exists N, DN. split_and!; [done..|].
  intros i Ni HNi. pose proof (lookup_lt_Some _ _ _ HNi) as Hi.
  rewrite HlenN in Hi.
  destruct (Hrows i Hi) as (p & Hp & HNi' & HDNi).
  rewrite HNi in HNi'. injection HNi' as ->.
  pose proof (argpartition_index_array _ _ _ Hp) as (Hlen & Hnd & Hbound).
  pose proof (argpartition_smallest _ _ _ Hp) as [Hsorted Hsmall].
  rewrite length_map in Hlen, Hbound, Hsmall.
  assert (∀ j, j < length D → map (λ row, row !!! i) D !!! j = (D !!! j) !!! i)
    as Hcol.
  { intros j Hj. apply list_lookup_total_correct.
    by rewrite list_lookup_fmap, (list_lookup_lookup_total_lt D j). }
  assert (Forall (λ n, n < length D) (take (Z.to_nat k) p)) as Hb
    by (by apply Forall_take).
  split_and!; [|..|done| |].
  - rewrite length_take. lia.
  - apply (sublist_NoDup _ p); [done|apply sublist_take].
  - done.
  - intros a b na nb Hab Ha Hb'.
    rewrite <- !Hcol.
    + by eapply Hsorted.
    + by eapply (proj1 (Forall_lookup _ _) Hb).
    + by eapply (proj1 (Forall_lookup _ _) Hb).
  - intros n j Hn Hj Hnot. rewrite <- !Hcol; [by apply Hsmall|..|done].
    by eapply (proj1 (Forall_forall _ _) Hb).
Qed.

Lemma X16_find_neighbors_along_columns_witness :
  square D_asym ∧
  ∃ N DN, find_neighbors D_asym 1 = Ok (N, DN) ∧ N !! 0 = Some [1] ∧
    np_lt ((D_asym !!! 0) !!! 0) ((D_asym !!! 1) !!! 0) = false.
Proof.
  assert (square D_asym) as H by (repeat constructor).
  split; [exact H|].
  destruct (X16_find_neighbors_along_columns D_asym 1 H)
    as (N & DN & HN & _ & _ & Hrows); [cbn; lia|].
  exists N, DN. split; [exact HN|].
  assert (N !! 0 = Some [1]) as H0
    by (vm_compute in HN; injection HN as <- _; reflexivity).
  split; [exact H0|].
  destruct (Hrows 0 [1] H0) as (_ & _ & _ & _ & _ & Hsmall).
  apply (Hsmall 1 0); [apply elem_of_cons; by left|cbn; lia|].
  intros [?|[]%elem_of_nil]%elem_of_cons. done.
Defined.

(** ** What [find_neighbors] raises *)

Lemma mapR_raises {A B} (f : A → result B) (e : exn) (l : list A) :
  Forall (λ a, f a = Raise e ∨ ∃ b, f a = Ok b) l →
  Exists (λ a, f a = Raise e) l → mapR f l = Raise e.
Proof.
  induction 1 as [|a l Ha _ IH]; intros Hex; [by apply Exists_nil in Hex|].
  cbn. destruct Ha as [->|[b Hb]]; [done|].
  rewrite Hb, bind_ret_l.
  apply Exists_cons in Hex as [Hex|Hex]; [congruence|].
  by rewrite IH.
Qed.

Lemma column_length {A} (D : list (list A)) i col :
  column D i = Ok col → length col = length D.
Proof. apply mapR_length. Qed.

Lemma take_items_cases {A} (v : list A) idx :
  take_items v idx = Raise IndexError ∨ ∃ out, take_items v idx = Ok out.
Proof.
  unfold take_items. induction idx as [|n idx IH]; [right; by eexists|].
  cbn. destruct (v !! n); cbn; [|by left].
  destruct IH as [->|[out ->]]; cbn; [by left|right; by eexists].
Qed.

Lemma column_cases {A} (D : list (list A)) i :
  column D i = Raise IndexError ∨ ∃ col, column D i = Ok col.
Proof.
  unfold column. induction D as [|row D IH]; [right; by eexists|].
  cbn. destruct (row !! i); cbn; [|by left].
  destruct IH as [->|[out ->]]; cbn; [by left|right; by eexists].
Qed.

(** For no neighbours at all, [argpartition] is handed an empty [kth]:
    on an array with a row and a column the first turn of the loop raises
    [TypeError]; an array with no row is not looked at. *)
Lemma find_neighbors_no_neighbors c (D : matrix) :
  rect c D → 0 < c →
  find_neighbors D 0 = if decide (D = []) then Ok ([], []) else Raise TypeError.
Proof.
  intros HD Hc. unfold find_neighbors.
  change (0 <? 0)%Z with false. change (Z.to_nat 0) with 0. cbv iota.
  case_decide as HD0; [by rewrite HD0|].
  assert (neighbors_of_row D 0 0 = Raise TypeError) as Hrow.
  { unfold neighbors_of_row. by rewrite (column_rect c) by done. }
  assert (0 < length D) as Hpos by (destruct D; [done|cbn; lia]).
  unfold shape0. destruct (length D) as [|n]; [lia|].
  cbn [seq mapR]. by rewrite Hrow.
Qed.

(** X17.  [find_neighbors] raises [ValueError] for a negative number of
    neighbours and, on a square array that is not empty, for more neighbours
    than rows; on an array with fewer columns than rows, and
    [1 <= n_neighbors <= len(D)], it raises [IndexError]. *)
Theorem X17_find_neighbors_raises c (D : matrix) (n_neighbors : Z) :
  rect c D → D ≠ [] →
  ((n_neighbors < 0)%Z → find_neighbors D n_neighbors = Raise ValueError) ∧
  (c = length D → (Z.of_nat (length D) < n_neighbors)%Z →
   find_neighbors D n_neighbors = Raise ValueError) ∧
  (c < length D → (1 ≤ n_neighbors ≤ Z.of_nat (length D))%Z →
   find_neighbors D n_neighbors = Raise IndexError).
Proof.
  intros HD Hne. unfold find_neighbors. split_and!.
  - intros Hk. by destruct (Z.ltb_spec n_neighbors 0); [|lia].
  - intros -> Hk. destruct (Z.ltb_spec n_neighbors 0); [lia|].
    assert (0 < length D) as Hpos by (destruct D; [done|cbn; lia]).
    assert (neighbors_of_row D (Z.to_nat n_neighbors) 0 = Raise ValueError)
      as Hrow.
    { unfold neighbors_of_row. rewrite (column_rect (length D)) by done.
      rewrite bind_ret_l. unfold argpartition.
      rewrite length_map. by rewrite !decide_False by lia. }
    unfold shape0. destruct (length D) as [|n]; [lia|].
    cbn [seq mapR]. by rewrite Hrow.
  - intros Hc Hk. destruct (Z.ltb_spec n_neighbors 0); [lia|].
    assert (mapR (neighbors_of_row D (Z.to_nat n_neighbors)) (seq 0 (shape0 D))
            = Raise IndexError) as ->; [|done].
    apply mapR_raises.
    + apply Forall_forall. intros i _. unfold neighbors_of_row.
      destruct (column_cases D i) as [->|[col Hcol]]; [by left|].
      rewrite Hcol, bind_ret_l. apply column_length in Hcol.
      destruct (argpartition_Ok col (Z.to_nat n_neighbors)) as [p ->]; [lia|].
      rewrite bind_ret_l.
      destruct (D !! i) as [Di|]; cbn; [|by left].
      destruct (take_items_cases Di (take (Z.to_nat n_neighbors) p))
        as [->|[out ->]]; cbn; [by left|right; by eexists].
    + apply Exists_exists. exists c. split; [apply elem_of_seq; unfold shape0; lia|].
      unfold neighbors_of_row.
      assert (column D c = Raise IndexError) as ->; [|done].
      destruct D as [|row D']; [done|]. apply Forall_cons in HD as [Hrow _].
      unfold column. cbn. by rewrite lookup_ge_None_2 by lia.
Qed.

Lemma X17_find_neighbors_raises_witness :
  rect 2 D_asym ∧ D_asym ≠ [] ∧ find_neighbors D_asym 3 = Raise ValueError.
Proof.
  assert (rect 2 D_asym) as H by (repeat constructor).
  assert (D_asym ≠ []) as Hne by done.
  split; [exact H|]. split; [exact Hne|].
  apply (X17_find_neighbors_raises 2 D_asym 3 H Hne); [done|cbn; lia].
Defined.

(** ** Assignments to diagonals, one after the other *)

(** X18.  Two assignments to the same diagonal leave the value of the
    second (so repeating an assignment changes nothing); assignments to
    different diagonals can be made in either order; and an offset that
    points outside the array (at least the number of columns, or at most
    minus the number of rows) leaves the array as it is. *)
Theorem X18_assign_diagonal_composes c (X : matrix) (o1 o2 : Z)
    (v1 v2 : F64.float) :
  rect c X →
  assign_diagonal (assign_diagonal X o1 v1) o1 v2 = assign_diagonal X o1 v2 ∧
  (o1 ≠ o2 →
   assign_diagonal (assign_diagonal X o1 v1) o2 v2 =
     assign_diagonal (assign_diagonal X o2 v2) o1 v1) ∧
  ((Z.of_nat c ≤ o1 ∨ o1 ≤ - Z.of_nat (length X))%Z →
   assign_diagonal X o1 v1 = X).
Proof.
  intros HX.
  assert (∀ Y o v, rect c Y → length Y = length X →
            ∀ r j, r < length X → j < c →
              item (assign_diagonal Y o v) r j =
                if decide (Z.of_nat j = Z.of_nat r + o)%Z then Some v
                else item Y r j) as Hitem.
  { intros Y o v HY Hlen r j Hr Hj. apply (assign_diagonal_item c); [done|lia|done]. }
  split_and!.
  - apply (matrix_eq c);
      [by rewrite !assign_diagonal_length|by do 2 apply assign_diagonal_rect
      |by apply assign_diagonal_rect|].
    intros r j Hr Hj. rewrite !assign_diagonal_length in Hr.
    rewrite (Hitem (assign_diagonal X o1 v1));
      [|by apply assign_diagonal_rect|by rewrite assign_diagonal_length|done..].
    rewrite !Hitem by done.
    by repeat case_decide.
  - intros Hne. apply (matrix_eq c);
      [by rewrite !assign_diagonal_length|by do 2 apply assign_diagonal_rect
      |by do 2 apply assign_diagonal_rect|].
    intros r j Hr Hj. rewrite !assign_diagonal_length in Hr.
    rewrite (Hitem (assign_diagonal X o1 v1));
      [|by apply assign_diagonal_rect|by rewrite assign_diagonal_length|done..].
    rewrite (Hitem (assign_diagonal X o2 v2));
      [|by apply assign_diagonal_rect|by rewrite assign_diagonal_length|done..].
    rewrite !Hitem by done.
    repeat case_decide; try done; lia.
  - intros Hout. apply (matrix_eq c);
      [by rewrite assign_diagonal_length|by apply assign_diagonal_rect|done|].
    intros r j Hr Hj. rewrite assign_diagonal_length in Hr.
    rewrite Hitem by done. case_decide; [lia|done].
Qed.

Lemma X18_assign_diagonal_composes_witness :
  rect 3 D3 ∧
  assign_diagonal (assign_diagonal D3 1 F64.inf) (-1) F64.nan =
    assign_diagonal (assign_diagonal D3 (-1) F64.nan) 1 F64.inf.
Proof.
  assert (rect 3 D3) as H by (repeat constructor).
  split; [exact H|].
  by apply (X18_assign_diagonal_composes 3 D3 1 (-1) F64.inf F64.nan H).
Defined.

(** ** Splitting into lines and pieces *)

Lemma str_split_nonempty sep s : str_split sep s ≠ [].
Proof.
  destruct s as [|ch rest]; cbn [str_split]; [done|].
  destruct (Ascii.eqb ch sep); [done|]. by destruct (str_split sep rest).
Qed.

Lemma str_split_app sep a b :
  str_split sep (a +:+ String sep b) = str_split sep a ++ str_split sep b.
Proof.
  induction a as [|ch a IH].
  - change ("" +:+ String sep b) with (String sep b). cbn [str_split].
    by rewrite Ascii.eqb_refl.
  - change (String ch a +:+ String sep b) with (String ch (a +:+ String sep b)).
    cbn [str_split].
    destruct (Ascii.eqb ch sep); [by rewrite IH|]. rewrite IH.
    pose proof (str_split_nonempty sep a). by destruct (str_split sep a).
Qed.

Lemma str_split_none sep s : contains sep s = false → str_split sep s = [s].
Proof.
  induction s as [|ch s IH]; cbn [str_split contains]; [done|].
  intros [H1 H2]%orb_false_iff. rewrite H1. by rewrite IH.
Qed.

Lemma prefix_append p s : String.prefix p s = true → ∃ s', s = p +:+ s'.
Proof.
  revert s. induction p as [|a p IH]; intros s Hp; [by exists s|].
  destruct s as [|b s]; [done|]. cbn in Hp.
  destruct (ascii_dec a b) as [->|]; [|done].
  destruct (IH s Hp) as [s' ->]. by exists s'.
Qed.

Lemma foldlR_app {A B} (f : B → A → result B) b l1 l2 :
  foldlR f b (l1 ++ l2) = (b' ← foldlR f b l1; foldlR f b' l2).
Proof.
  revert b. induction l1 as [|a l1 IH]; intros b; cbn; [done|].
  destruct (f b a); cbn; [apply IH|done].
Qed.

(** ** [uzal_parse_results] *)

Section Uzal_results.
Variable py_int : string → option Z.
Variable py_float : string → option F64.float.

Local Abbreviation step := (uzal_results_step py_int py_float).

Lemma uzal_results_step_acc acc line :
  step acc line =
    (acc.1 ++ (step ([], []) line).1, acc.2 ++ (step ([], []) line).2).
Proof.
  unfold uzal_results_step. destruct acc as [ms Lks]. cbn.
  destruct (_ && _); [|by rewrite !app_nil_r].
  destruct (parse_result_line _ _ _) as [[m Lk]|]; cbn; by rewrite ?app_nil_r.
Qed.

Lemma uzal_results_step_lengths line :
  length (step ([], []) line).1 = length (step ([], []) line).2.
Proof.
  unfold uzal_results_step. destruct (_ && _); [|done].
  by destruct (parse_result_line _ _ _) as [[m Lk]|].
Qed.

Lemma uzal_results_fold lines : ∀ acc,
  foldl step acc lines =
    (acc.1 ++ (foldl step ([], []) lines).1,
     acc.2 ++ (foldl step ([], []) lines).2).
Proof.
  induction lines as [|line lines IH]; intros acc; cbn.
  - destruct acc. by rewrite !app_nil_r.
  - rewrite (IH (step acc line)), (IH (step ([], []) line)).
    rewrite (uzal_results_step_acc acc). cbn. by rewrite !app_assoc.
Qed.

Lemma uzal_results_lengths lines :
  length (foldl step ([], []) lines).1 = length (foldl step ([], []) lines).2.
Proof.
  induction lines as [|line lines IH]; [done|]. cbn.
  rewrite uzal_results_fold. cbn. rewrite !length_app.
  by rewrite uzal_results_step_lengths, IH.
Qed.

End Uzal_results.

(** X19.  [uzal_parse_results] goes through the text line by line: the
    results for two texts joined by a line feed are the results for the
    first followed by the results for the second; and the two lists it
    returns always have the same length. *)
Theorem X19_uzal_parse_results_concatenates (py_int : string → option Z)
    (py_float : string → option F64.float) (a b : string) :
  uzal_parse_results py_int py_float (a +:+ String newline b) =
    ((uzal_parse_results py_int py_float a).1 ++
       (uzal_parse_results py_int py_float b).1,
     (uzal_parse_results py_int py_float a).2 ++
       (uzal_parse_results py_int py_float b).2) ∧
  length (uzal_parse_results py_int py_float a).1 =
    length (uzal_parse_results py_int py_float a).2.
Proof.
  unfold uzal_parse_results. split; [|apply uzal_results_lengths].
  rewrite str_split_app, foldl_app. apply uzal_results_fold.
Qed.

(** X20.  A single line gives no result when it is empty or starts with
    [#], when it has no second piece, or when [int] or [float] rejects its
    first or second piece: the exception is swallowed.  Otherwise it gives
    one more than the integer of its first piece, and the float of its
    second piece; further pieces are ignored. *)
Theorem X20_uzal_parse_results_line (py_int : string → option Z)
    (py_float : string → option F64.float) (line : string) :
  contains newline line = false →
  (line = "" ∨ String.prefix "#" line = true →
   uzal_parse_results py_int py_float line = ([], [])) ∧
  (∀ p0, str_split " " line = [p0] →
   uzal_parse_results py_int py_float line = ([], [])) ∧
  (∀ p0 rest, str_split " " line = p0 :: rest → py_int p0 = None →
   uzal_parse_results py_int py_float line = ([], [])) ∧
  (∀ p0 p1 rest, str_split " " line = p0 :: p1 :: rest → py_float p1 = None →
   uzal_parse_results py_int py_float line = ([], [])) ∧
  (∀ p0 p1 rest n f,
     String.prefix "#" line = false →
     str_split " " line = p0 :: p1 :: rest →
     py_int p0 = Some n → py_float p1 = Some f →
     uzal_parse_results py_int py_float line = ([(n + 1)%Z], [f])).
Proof.
  intros Hnl. unfold uzal_parse_results. rewrite (str_split_none _ _ Hnl).
  cbn [foldl]. unfold uzal_results_step, parse_result_line. split_and!.
  - intros [-> | Hp]; [done|]. by rewrite Hp.
  - intros p0 ->. destruct (_ && _); [|done]. cbn.
    by destruct (py_int p0).
  - intros p0 rest -> Hint. destruct (_ && _); [|done]. cbn. by rewrite Hint.
  - intros p0 p1 rest -> Hfloat. destruct (_ && _); [|done]. cbn.
    destruct (py_int p0); cbn; [|done]. by rewrite Hfloat.
  - intros p0 p1 rest n f Hhash Hsplit Hint Hfloat. rewrite Hhash.
    destruct line as [|ch line]; [done|]. rewrite Hsplit. cbn.
    rewrite Hint. cbn. by rewrite Hfloat.
Qed.

Lemma X20_uzal_parse_results_line_witness :
  contains newline "3 25" = false ∧
  uzal_parse_results digits_int digits_float "3 25" = ([4%Z], [F64.of_Z 25]).
Proof.
  assert (contains newline "3 25" = false) as H by reflexivity.
  split; [exact H|].
  destruct (X20_uzal_parse_results_line digits_int digits_float "3 25" H)
    as (_ & _ & _ & _ & Hline).
  by apply (Hline "3" "25" [] 3%Z).
Defined.

(** ** [uzal_parse_params] *)

Section Uzal_params.
Variable py_int : string → option Z.

Local Abbreviation step := (uzal_params_step py_int).

(** What a line does to the dictionary does not depend on the dictionary. *)
Lemma uzal_params_step_union params line :
  step params line = (d ← step ∅ line; Ok (d ∪ params)).
Proof.
  unfold uzal_params_step.
  repeat (destruct (String.prefix _ line);
          [repeat (destruct (_ !! _); cbn [lookup_or]; rewrite ?bind_ret_l;
                   [|done]);
           destruct (py_int _); cbn [lookup_or]; rewrite ?bind_ret_l; [|done];
           by rewrite insert_empty, <- insert_union_singleton_l|]).
  by rewrite bind_ret_l, (left_id_L ∅ (∪)).
Qed.

(** A line that starts with one of the three keys has a piece after the
    first [=]. *)
Lemma str_split_after_key key line :
  contains "=" key = false →
  String.prefix (key +:+ "=") line = true →
  ∃ p1 rest, str_split "=" line = key :: p1 :: rest.
Proof.
  intros Hkey [s' ->]%prefix_append.
  assert ((key +:+ "=") +:+ s' = key +:+ String "=" s') as ->.
  { clear Hkey. induction key as [|ch key IH]; [done|].
    change (String ch ((key +:+ "=") +:+ s') = String ch (key +:+ String "=" s')).
    by rewrite IH. }
  rewrite str_split_app, (str_split_none _ _ Hkey).
  pose proof (str_split_nonempty "=" s').
  destruct (str_split "=" s') as [|p1 rest]; [done|]. by exists p1, rest.
Qed.

Lemma uzal_params_step_empty line :
  step ∅ line = Raise ValueError ∨ step ∅ line = Ok ∅ ∨
  ∃ k v, (k = "tw_max" ∨ k = "theiler_window" ∨ k = "n_neighbors") ∧
         step ∅ line = Ok {[k := v]}.
Proof.
  unfold uzal_params_step.
  destruct (String.prefix "Using T_M=" line) eqn:H1.
  { destruct (str_split_after_key "Using T_M" line) as (p1 & rest & ->);
      [done|done|]. cbn.
    destruct (py_int p1) as [v|]; cbn; [|by left].
    right. right. exists "tw_max", v. by rewrite insert_empty; auto. }
  destruct (String.prefix "Using ThW=" line) eqn:H2.
  { destruct (str_split_after_key "Using ThW" line) as (p1 & rest & ->);
      [done|done|]. cbn.
    destruct (py_int p1) as [v|]; cbn; [|by left].
    right. right. exists "theiler_window", v. by rewrite insert_empty; auto. }
  destruct (String.prefix "Using k=" line) eqn:H3; [|by right; left].
  destruct (str_split_after_key "Using k" line) as (p1 & rest & ->);
    [done|done|]. cbn.
  pose proof (str_split_nonempty " " p1).
  destruct (str_split " " p1) as [|q ?]; [done|]. cbn.
  destruct (py_int q) as [v|]; cbn; [|by left].
  right. right. exists "n_neighbors", v. by rewrite insert_empty; auto.
Qed.

Lemma uzal_params_fold_union lines : ∀ acc,
  foldlR step acc lines = (p ← foldlR step ∅ lines; Ok (p ∪ acc)).
Proof.
  induction lines as [|line lines IH]; intros acc; cbn [foldlR].
  - by rewrite bind_ret_l, (left_id_L ∅ (∪)).
  - rewrite (uzal_params_step_union acc).
    destruct (step ∅ line) as [d|e]; [|done]. rewrite !bind_ret_l.
    rewrite (IH (d ∪ acc)), (IH d).
    destruct (foldlR step ∅ lines) as [p|e]; [|done]. rewrite !bind_ret_l.
    by rewrite (assoc_L (∪)).
Qed.

Lemma uzal_params_fold_outcome lines : ∀ acc,
  (∀ k v, acc !! k = Some v →
     k = "tw_max" ∨ k = "theiler_window" ∨ k = "n_neighbors") →
  match foldlR step acc lines with
  | Ok params =>
      ∀ k v, params !! k = Some v →
        k = "tw_max" ∨ k = "theiler_window" ∨ k = "n_neighbors"
  | Raise e => e = ValueError
  end.
Proof.
  induction lines as [|line lines IH]; intros acc Hacc; cbn [foldlR]; [done|].
  rewrite (uzal_params_step_union acc).
  destruct (uzal_params_step_empty line) as [->|[->|(k & v & Hk & ->)]];
    [done| |]; rewrite bind_ret_l; apply IH.
  - by rewrite (left_id_L ∅ (∪)).
  - intros k' v' [[<- _]%lookup_singleton_Some|[_ ?]]%lookup_union_Some_raw;
      eauto.
Qed.

End Uzal_params.

(** X21.  [uzal_parse_params] raises nothing but the [ValueError] of [int]
    on a value that is not a numeral: a line that starts with one of the
    three keys has a piece after its [=], so no index is out of range.  The
    dictionary returned has no keys but [tw_max], [theiler_window] and
    [n_neighbors]. *)
Theorem X21_uzal_parse_params_outcome (py_int : string → option Z)
    (stderr_data : string) :
  (∀ e, uzal_parse_params py_int stderr_data = Raise e → e = ValueError) ∧
  (∀ params k v,
     uzal_parse_params py_int stderr_data = Ok params → params !! k = Some v →
     k = "tw_max" ∨ k = "theiler_window" ∨ k = "n_neighbors").
Proof.
  unfold uzal_parse_params.
  pose proof (uzal_params_fold_outcome py_int
                (str_split newline stderr_data) ∅) as H.
  destruct (foldlR _ _ _) as [params|e].
  - split; [done|]. intros ? k v [= <-]. apply H. intros ? ?.
    by rewrite lookup_empty.
  - split; [|done]. intros ? [= <-]. apply H. intros ? ?.
    by rewrite lookup_empty.
Qed.

(** X22.  [uzal_parse_params] goes through the text line by line, and a
    later line overwrites the value an earlier line gave to the same key:
    the dictionary for two texts joined by a line feed is the dictionary of
    the second, completed by the entries of the first for the keys the
    second does not set; an exception in either text is the outcome, the
    first text first. *)
Theorem X22_uzal_parse_params_later_lines_win (py_int : string → option Z)
    (a b : string) :
  uzal_parse_params py_int (a +:+ String newline b) =
    (pa ← uzal_parse_params py_int a;
     pb ← uzal_parse_params py_int b;
     Ok (pb ∪ pa)).
Proof.
  unfold uzal_parse_params. rewrite str_split_app, foldlR_app.
  destruct (foldlR _ ∅ (str_split newline a)) as [pa|e]; [|done].
  rewrite !bind_ret_l. apply uzal_params_fold_union.
Qed.

(** The parameters the cost function program reports, read back. *)
Example uzal_parse_params_example :
  (params ← uzal_parse_params digits_int
     ("Using T_M=50" +:+ String newline
        ("Using ThW=12" +:+ String newline "Using k=3 neighbours"));
   Ok (params !! "tw_max", params !! "theiler_window",
       params !! "n_neighbors")) =
    Ok (Some 50%Z, Some 12%Z, Some 3%Z).
Proof. vm_compute. reflexivity. Qed.
